(** * PDF-Paser: the text-cleaning pipeline and the batch processor of
      [enhanced_pdf_parser_with_sources.py], embedded in Rocq.

    A Python [str] is a sequence of Unicode code points; a character is its
    code point, a text is a list of them.  The patterns handed to [re.sub]
    are regular expressions without back-references, so a match is the first
    element of the list of all ways to match in the priority order of a
    backtracking engine (greedy quantifiers try the longest repetition
    first, alternation tries the left branch first). *)

From Stdlib Require Import NArith ZArith List String Ascii Bool Lia.
From stdpp Require Import gmap strings.
Import ListNotations.

Local Open Scope N_scope.

(** ** Characters and texts *)

Definition char := N.
Definition text := list char.

(** The code points of an ASCII literal. *)
Definition codes (s : string) : text :=
  List.map N_of_ascii (list_ascii_of_string s).

Definition NL : char := 10.
Definition SPACE : char := 32.
Definition CARET : char := 94.

(** The non-ASCII characters that occur in the source file.  The file on
    disk spells each intended symbol as two characters (the regular
    expressions are read by Python exactly as they are stored). *)
Definition NOT_SIGN : char := 172.        (* U+00AC *)
Definition PLUS_MINUS : char := 177.      (* U+00B1 *)
Definition MASC_ORDINAL : char := 186.    (* U+00BA *)
Definition A_DIAERESIS : char := 196.     (* U+00C4 *)
Definition TIMES : char := 215.           (* U+00D7 *)
Definition I_GRAVE : char := 236.         (* U+00EC *)
Definition O_ACUTE : char := 243.         (* U+00F3 *)
Definition OE_LIGATURE : char := 338.     (* U+0152 *)
Definition LOW_QUOTE : char := 8218.      (* U+201A *)
Definition SQUARE_ROOT : char := 8730.    (* U+221A *)
Definition INFINITY : char := 8734.       (* U+221E *)

Definition between (lo hi c : char) : bool := (lo <=? c) && (c <=? hi).

Fixpoint one_of (cs : text) (c : char) : bool :=
  match cs with
  | [] => false
  | x :: cs' => (c =? x) || one_of cs' c
  end.

(** [str.isspace], which is also [\s] of [re] on [str] patterns and the
    set [str.strip()] removes. *)
Definition isspace (c : char) : bool :=
  between 9 13 c || between 28 32 c || (c =? 133) || (c =? 160)
  || (c =? 5760) || between 8192 8202 c || (c =? 8232) || (c =? 8233)
  || (c =? 8239) || (c =? 8287) || (c =? 12288).

Section Unicode.

(** Python's Unicode database above U+00FF is not part of the repository:
    which of those code points are decimal digits and which are
    alphanumeric is taken as a parameter. *)
Variable decimal_ext : char -> bool.
Variable alnum_ext : char -> bool.

(** [\d]: a Unicode decimal digit. *)
Definition isdecimal (c : char) : bool :=
  if c <? 256 then between 48 57 c else decimal_ext c.

(** [str.isalnum]. *)
Definition isalnum (c : char) : bool :=
  if c <? 256 then
    between 48 57 c || between 65 90 c || between 97 122 c
    || (c =? 170) || between 178 179 c || (c =? 181) || between 185 186 c
    || between 188 190 c || between 192 214 c || between 216 246 c
    || between 248 255 c
  else alnum_ext c.

(** [\w]: alphanumeric or underscore. *)
Definition isword (c : char) : bool := isalnum c || (c =? 95).

End Unicode.

(** ** Regular expressions

    Every quantifier of the source applies to a single character class. *)
Inductive regex : Type :=
| Cls (p : char -> bool)
| Star (p : char -> bool)
| Plus (p : char -> bool)
| Opt (p : char -> bool)
| Cat (r1 r2 : regex)
| Alt (r1 r2 : regex)
| Grp (r : regex).

Definition Lit (c : char) : regex := Cls (N.eqb c).

Fixpoint Seq (rs : list regex) : regex :=
  match rs with
  | [] => Opt (fun _ => false)
  | [r] => r
  | r :: rs' => Cat r (Seq rs')
  end.

(** The texts left after [p*], longest repetition first. *)
Fixpoint star (p : char -> bool) (s : text) : list text :=
  match s with
  | [] => [[]]
  | c :: s' => if p c then star p s' ++ [s] else [s]
  end.

Definition plus (p : char -> bool) (s : text) : list text :=
  match s with
  | [] => []
  | c :: s' => if p c then star p s' else []
  end.

Definition opt (p : char -> bool) (s : text) : list text :=
  match s with
  | [] => [[]]
  | c :: s' => if p c then [s'; s] else [s]
  end.

Definition no_groups (ss : list text) : list (list text * text) :=
  List.map (fun s' => ([], s')) ss.

(** All the ways [r] matches a prefix of [s], in the order a backtracking
    engine tries them: the captured groups and the text left. *)
Fixpoint run (r : regex) (s : text) : list (list text * text) :=
  match r with
  | Cls p =>
      match s with
      | [] => []
      | c :: s' => if p c then [([], s')] else []
      end
  | Star p => no_groups (star p s)
  | Plus p => no_groups (plus p s)
  | Opt p => no_groups (opt p s)
  | Cat r1 r2 =>
      List.flat_map
        (fun m1 => List.map (fun m2 => (fst m1 ++ fst m2, snd m2))
                            (run r2 (snd m1)))
        (run r1 s)
  | Alt r1 r2 => run r1 s ++ run r2 s
  | Grp r' =>
      List.map
        (fun m => (firstn (length s - length (snd m)) s :: fst m, snd m))
        (run r' s)
  end.

(** A replacement template: literal text and group references. *)
Inductive piece : Type :=
| PText (t : text)
| PGroup (n : nat).

Fixpoint expand (tpl : list piece) (groups : list text) : text :=
  match tpl with
  | [] => []
  | PText t :: tpl' => t ++ expand tpl' groups
  | PGroup n :: tpl' => nth (n - 1) groups [] ++ expand tpl' groups
  end.

(** [re.sub]: scan from the left; at a position where the pattern matches,
    emit the expanded template and go on after the match; elsewhere copy
    the character.  [skip] counts the characters of the current match still
    to be dropped.  No pattern of this program matches the empty text (see
    [run_consumes]); an empty match would emit the template and copy the
    character. *)
Fixpoint sub_from (r : regex) (tpl : list piece) (skip : nat) (s : text)
  : text :=
  match s with
  | [] =>
      match skip, run r [] with
      | O, (g, _) :: _ => expand tpl g
      | _, _ => []
      end
  | c :: s' =>
      match skip with
      | S k => sub_from r tpl k s'
      | O =>
          match run r s with
          | [] => c :: sub_from r tpl O s'
          | (g, rest) :: _ =>
              match (length s - length rest)%nat with
              | O => expand tpl g ++ c :: sub_from r tpl O s'
              | S k => expand tpl g ++ sub_from r tpl k s'
              end
          end
      end
  end.

Definition re_sub (r : regex) (tpl : list piece) (s : text) : text :=
  sub_from r tpl O s.

(** ** Helpers on [str] *)

(** [str.split('\n')]: the pieces between newlines, never an empty list. *)
Fixpoint split_lines (s : text) : list text :=
  match s with
  | [] => [[]]
  | c :: s' =>
      if c =? NL then [] :: split_lines s'
      else match split_lines s' with
           | [] => [[c]]
           | l :: ls => (c :: l) :: ls
           end
  end.

Fixpoint lstrip (s : text) : text :=
  match s with
  | [] => []
  | c :: s' => if isspace c then lstrip s' else s
  end.

Definition rstrip (s : text) : text := rev (lstrip (rev s)).

(** [str.strip()] *)
Definition strip (s : text) : text := rstrip (lstrip s).

(** A [str] is true in a condition when it is not empty. *)
Definition truthy (s : text) : bool :=
  match s with [] => false | _ :: _ => true end.

(** [line.endswith(('.', '!', '?', ':', ';'))] *)
Definition ends_sentence (line : text) : bool :=
  match rev line with
  | [] => false
  | c :: _ => one_of (codes ".!?:;") c
  end.

(** [''.join(fragments)] *)
Definition join (fragments : list text) : text := List.concat fragments.

(** [needle in haystack] *)
Fixpoint starts_with (needle s : text) : bool :=
  match needle, s with
  | [], _ => true
  | _ :: _, [] => false
  | a :: needle', b :: s' => (a =? b) && starts_with needle' s'
  end.

Fixpoint contains (needle s : text) : bool :=
  starts_with needle s
  || match s with
     | [] => false
     | _ :: s' => contains needle s'
     end.

(** ** The four passes *)

Section Pipeline.

Context (decimal_ext alnum_ext : char -> bool).

Let digit : char -> bool := isdecimal decimal_ext.
Let word : char -> bool := isword alnum_ext.

(** The patterns are quoted with blanks added between their parts.

    [\d+\.?\d*] *)
Definition number : regex :=
  Seq [Plus digit; Opt (N.eqb 46); Star digit].

(** [\s*\n\s*] *)
Definition line_break : regex :=
  Seq [Star isspace; Lit NL; Star isspace].

(** [( \d+\.?\d* ) \s*\n\s* ( [%¬∞] )] *)
Definition percent_rule : regex :=
  Seq [Grp number; line_break; Grp (Cls (one_of [37; NOT_SIGN; INFINITY]))].

(** [( \d+\.?\d* \s* [√óx] \s* 10 ) \s*\n\s* ( [-+]? \d+ )] *)
Definition scientific_rule : regex :=
  Seq [Grp (Seq [number; Star isspace;
                 Cls (one_of [SQUARE_ROOT; O_ACUTE; 120]);
                 Star isspace; Lit 49; Lit 48]);
       line_break;
       Grp (Seq [Opt (one_of [45; 43]); Plus digit])].

(** [( \d+\.?\d* ) \s*\n\s* [-‚Äì] \s*\n\s* ( \d+\.?\d* )]: in the
    class, [-] comes first and is literal. *)
Definition range_rule : regex :=
  Seq [Grp number; line_break;
       Cls (one_of [45; LOW_QUOTE; A_DIAERESIS; I_GRAVE]);
       line_break; Grp number].

(** [( \d+\.?\d* ) \s*\n\s* ¬± \s*\n\s* ( \d+\.?\d* )] *)
Definition error_rule : regex :=
  Seq [Grp number; line_break; Lit NOT_SIGN; Lit PLUS_MINUS;
       line_break; Grp number].

(** [( \d+\.?\d* ) \s*\n\s* ( [ŒºmkMGT]? [gLMVAW] | ¬∞ [CF]? )] *)
Definition unit_rule : regex :=
  Seq [Grp number; line_break;
       Grp (Alt (Seq [Opt (one_of (OE_LIGATURE :: MASC_ORDINAL :: codes "mkMGT"));
                      Cls (one_of (codes "gLMVAW"))])
                (Seq [Lit NOT_SIGN; Lit INFINITY; Opt (one_of (codes "CF"))]))].

Definition _fix_numerical_line_breaks (text0 : text) : text :=
  let text1 := re_sub percent_rule [PGroup 1; PGroup 2] text0 in
  let text2 := re_sub scientific_rule [PGroup 1; PText [CARET]; PGroup 2] text1 in
  let text3 := re_sub range_rule [PGroup 1; PText [45]; PGroup 2] text2 in
  let text4 := re_sub error_rule
                 [PGroup 1; PText [NOT_SIGN; PLUS_MINUS]; PGroup 2] text3 in
  re_sub unit_rule [PGroup 1; PGroup 2] text4.

(** The fragment the loop appends for [lines[i]], given the lines after
    it ([i < len(lines) - 1] says that there is one). *)
Definition fragment (raw_line : text) (following : list text) : text :=
  let line := strip raw_line in
  if negb (truthy line) then []
  else
    let has_next := match following with [] => false | _ :: _ => true end in
    let next_nonempty :=
      match following with
      | [] => false
      | next :: _ => truthy (strip next)
      end in
    if has_next && ends_sentence line && next_nonempty then line
    else if has_next && next_nonempty then line ++ [SPACE]
    else line.

Fixpoint cleaned_lines (lines : list text) : list text :=
  match lines with
  | [] => []
  | l :: following => fragment l following :: cleaned_lines following
  end.

Definition _normalize_whitespace (text0 : text) : text :=
  let text1 := re_sub (Plus (N.eqb SPACE)) [PText [SPACE]] text0 in
  let text2 := re_sub (Seq [Lit NL; Plus (N.eqb NL)]) [PText [NL; NL]] text1 in
  join (cleaned_lines (split_lines text2)).

(** The characters the filter keeps:
    [\w\s\.\,\-\+√ó¬∞%¬±=:/\(\)\[\]ŒºmkMGTgLVAW] *)
Definition essential (c : char) : bool :=
  word c || isspace c
  || one_of (codes ".,-+" ++ [SQUARE_ROOT; O_ACUTE; NOT_SIGN; INFINITY; 37;
                              NOT_SIGN; PLUS_MINUS]
             ++ codes "=:/()[]" ++ [OE_LIGATURE; MASC_ORDINAL]
             ++ codes "mkMGTgLVAW") c.

Definition _clean_preserve_numerical_symbols (text0 : text) : text :=
  re_sub (Cls (fun c => negb (essential c))) [PText [SPACE]] text0.

(** [re.IGNORECASE] on a letter of [Page]: either case. *)
Definition either_case (upper lower : char) : regex :=
  Cls (one_of [upper; lower]).

(** [\n\s*Page \d+\s*\n] with [re.IGNORECASE] *)
Definition page_label_rule : regex :=
  Seq [Lit NL; Star isspace;
       either_case 80 112; either_case 65 97; either_case 71 103;
       either_case 69 101; Lit SPACE; Plus digit; Star isspace; Lit NL].

(** [\n\s*\d+\s*\n] *)
Definition page_number_rule : regex :=
  Seq [Lit NL; Star isspace; Plus digit; Star isspace; Lit NL].

(** [\n\s*\n\s*\n+] *)
Definition blank_lines_rule : regex :=
  Seq [Lit NL; Star isspace; Lit NL; Star isspace; Plus (N.eqb NL)].

(** [\s+ ( [,;:] ) \s+] *)
Definition punctuation_rule : regex :=
  Seq [Plus isspace; Grp (Cls (one_of (codes ",;:"))); Plus isspace].

Definition _remove_noise_keep_context (text0 : text) : text :=
  let text1 := re_sub page_label_rule [PText [NL]] text0 in
  let text2 := re_sub page_number_rule [PText [NL]] text1 in
  let text3 := re_sub blank_lines_rule [PText [NL; NL]] text2 in
  let text4 := re_sub punctuation_rule [PGroup 1; PText [SPACE]] text3 in
  strip text4.

Definition _clean_text_for_numerical_extraction (raw_text : text) : text :=
  let text1 := _fix_numerical_line_breaks raw_text in
  let text2 := _normalize_whitespace text1 in
  let text3 := _clean_preserve_numerical_symbols text2 in
  _remove_noise_keep_context text3.

End Pipeline.

(** ** The batch processor

    Objects that the program shares by reference live in a store: the
    dictionary [self.processing_stats], its nested [source_mapping]
    dictionary, and every dictionary [dict.copy()] creates.  Logging is
    left out: it changes neither the results nor the statistics. *)

Definition loc := positive.

(** [processing_stats]: a dictionary with five fixed keys, the last one
    holding a reference to the [source_mapping] dictionary. *)
Record stats_dict : Type := {
  total_documents : Z;
  successful_extractions : Z;
  failed_extractions : Z;
  total_text_length : Z;
  source_mapping : loc
}.

Inductive object : Type :=
| Stats (d : stats_dict)
| Mapping (m : gmap text text).

Record machine : Type := {
  objects : gmap loc object;
  next_loc : loc;
  clock : nat   (* how many times [datetime.now()] has been read *)
}.

Record EnhancedPDFParser : Type := {
  processing_stats : loc
}.

Record SourceDocument : Type := {
  source_id : text;
  source_label : text;
  file_path : text;
  raw_text : text;
  cleaned_text : text;
  processing_timestamp : text
}.

(** One entry of [pdf_configs]: a dictionary with the keys ['path'],
    ['source_id'] and ['source_label']. *)
Record config : Type := {
  cfg_path : text;
  cfg_source_id : text;
  cfg_source_label : text
}.

(** What the program asks of its environment: [os.path.exists], what
    PyPDF2 extracts from a file ([None] when opening or reading it raises)
    and what the [n]-th reading of the clock returns. *)
Record world : Type := {
  path_exists : text -> bool;
  pdf_pages : text -> option (list text);
  now : nat -> text
}.

Inductive exn : Type :=
| FileNotFoundError (path : text)
| Exception (path : text).

Inductive outcome (A : Type) : Type :=
| Return (a : A)
| Raise (e : exn).
Arguments Return {A} a.
Arguments Raise {A} e.

(** Computations on the machine; [None] is a dangling or ill-typed
    reference, which no run from [__init__] produces. *)
Definition M (A : Type) : Type := machine -> option (A * machine).

Definition ret {A} (a : A) : M A := fun st => Some (a, st).

Definition bind {A B} (m : M A) (k : A -> M B) : M B :=
  fun st => match m st with
            | None => None
            | Some (a, st') => k a st'
            end.

Notation "x <- m ;; k" := (bind m (fun x => k))
  (at level 100, m at next level, right associativity).
Notation "m ;;; k" := (bind m (fun _ => k))
  (at level 100, right associativity).

Definition alloc (o : object) : M loc :=
  fun st => Some (next_loc st,
                  {| objects := <[next_loc st := o]> (objects st);
                     next_loc := Pos.succ (next_loc st);
                     clock := clock st |}).

Definition read_stats (l : loc) : M stats_dict :=
  fun st => match objects st !! l with
            | Some (Stats d) => Some (d, st)
            | _ => None
            end.

Definition read_mapping (l : loc) : M (gmap text text) :=
  fun st => match objects st !! l with
            | Some (Mapping m) => Some (m, st)
            | _ => None
            end.

Definition write (l : loc) (o : object) : M unit :=
  fun st => Some (tt, {| objects := <[l := o]> (objects st);
                         next_loc := next_loc st;
                         clock := clock st |}).

(** [datetime.now()], rendered as text *)
Definition read_clock (w : world) : M text :=
  fun st => Some (now w (clock st),
                  {| objects := objects st;
                     next_loc := next_loc st;
                     clock := S (clock st) |}).

Definition update_stats (l : loc) (f : stats_dict -> stats_dict) : M unit :=
  d <- read_stats l ;; write l (Stats (f d)).

(** [d[key] = value] on a [source_mapping] dictionary *)
Definition mapping_setitem (l : loc) (key value : text) : M unit :=
  m <- read_mapping l ;; write l (Mapping (<[key := value]> m)).

Definition set_total_documents (n : Z) (d : stats_dict) : stats_dict :=
  {| total_documents := n;
     successful_extractions := successful_extractions d;
     failed_extractions := failed_extractions d;
     total_text_length := total_text_length d;
     source_mapping := source_mapping d |}.

Definition add_success (d : stats_dict) : stats_dict :=
  {| total_documents := total_documents d;
     successful_extractions := (successful_extractions d + 1)%Z;
     failed_extractions := failed_extractions d;
     total_text_length := total_text_length d;
     source_mapping := source_mapping d |}.

Definition add_text_length (n : Z) (d : stats_dict) : stats_dict :=
  {| total_documents := total_documents d;
     successful_extractions := successful_extractions d;
     failed_extractions := failed_extractions d;
     total_text_length := (total_text_length d + n)%Z;
     source_mapping := source_mapping d |}.

Definition add_failure (d : stats_dict) : stats_dict :=
  {| total_documents := total_documents d;
     successful_extractions := successful_extractions d;
     failed_extractions := (failed_extractions d + 1)%Z;
     total_text_length := total_text_length d;
     source_mapping := source_mapping d |}.

(** [__init__]: the clock is read once for the name of the log file. *)
Definition __init__ (w : world) : M EnhancedPDFParser :=
  _ <- read_clock w ;;
  mapping <- alloc (Mapping ∅) ;;
  stats <- alloc (Stats {| total_documents := 0;
                           successful_extractions := 0;
                           failed_extractions := 0;
                           total_text_length := 0;
                           source_mapping := mapping |}) ;;
  ret {| processing_stats := stats |}.

Definition boot : machine :=
  {| objects := ∅; next_loc := 1%positive; clock := O |}.

Definition _extract_text_from_pdf (w : world) (pdf_path : text)
  : outcome text :=
  if negb (path_exists w pdf_path) then Raise (FileNotFoundError pdf_path)
  else
    match pdf_pages w pdf_path with
    | None => Raise (Exception pdf_path)
    | Some pages =>
        Return (strip (List.concat (List.map (fun page_text => page_text ++ [NL]) pages)))
    end.

(** [len(text)] *)
Definition len (t : text) : Z := Z.of_nat (length t).

(** [dict.copy()]: a new dictionary with the same entries; the values are
    not copied. *)
Definition get_processing_statistics (self : EnhancedPDFParser) : M loc :=
  d <- read_stats (processing_stats self) ;;
  alloc (Stats d).

Section Batch.

Context (decimal_ext alnum_ext : char -> bool).
Context (w : world).

(** The body of the loop of [process_multiple_pdfs] for one request. *)
Definition process_one (self : EnhancedPDFParser) (cfg : config)
    (processed_documents : list SourceDocument) : M (list SourceDocument) :=
  match _extract_text_from_pdf w (cfg_path cfg) with
  | Return raw =>
      let cleaned :=
        _clean_text_for_numerical_extraction decimal_ext alnum_ext raw in
      stamp <- read_clock w ;;
      let source_doc :=
        {| source_id := cfg_source_id cfg;
           source_label := cfg_source_label cfg;
           file_path := cfg_path cfg;
           raw_text := raw;
           cleaned_text := cleaned;
           processing_timestamp := stamp |} in
      update_stats (processing_stats self) add_success ;;;
      update_stats (processing_stats self) (add_text_length (len cleaned)) ;;;
      d <- read_stats (processing_stats self) ;;
      mapping_setitem (source_mapping d) (cfg_source_id cfg)
                      (cfg_source_label cfg) ;;;
      ret (processed_documents ++ [source_doc])
  | Raise _ =>
      update_stats (processing_stats self) add_failure ;;;
      ret processed_documents
  end.

Fixpoint process_all (self : EnhancedPDFParser) (cfgs : list config)
    (processed_documents : list SourceDocument) : M (list SourceDocument) :=
  match cfgs with
  | [] => ret processed_documents
  | cfg :: cfgs' =>
      docs <- process_one self cfg processed_documents ;;
      process_all self cfgs' docs
  end.

Definition process_multiple_pdfs (self : EnhancedPDFParser)
    (pdf_configs : list config) : M (list SourceDocument) :=
  docs <- process_all self pdf_configs [] ;;
  update_stats (processing_stats self)
               (set_total_documents (Z.of_nat (length pdf_configs))) ;;;
  ret docs.

End Batch.

(** ** The export

    [export_processed_documents] builds the dictionary [export_data], hands
    it to [json.dump] and returns the path of the file.  The contents of
    the file system are not modelled: the result holds, with the path, the
    dictionary handed to [json.dump]. *)

(** The dictionary [doc_data] of one document. *)
Record doc_data : Type := {
  doc_source_id : text;
  doc_source_label : text;
  doc_file_path : text;
  doc_text_length : Z;
  doc_cleaned_text : text;
  doc_processing_timestamp : text
}.

(** The dictionary [export_data]; its ['processing_stats'] entry is the
    processor's own dictionary, not a copy. *)
Record export_data : Type := {
  export_processing_timestamp : text;
  export_total_documents : Z;
  export_processing_stats : loc;
  export_documents : list doc_data
}.

(** What the export asks of its environment: what
    [datetime.now().strftime("%Y%m%d_%H%M%S")] gives at the [n]-th reading
    of the clock, and whether [open(output_path, 'w')] and [json.dump] go
    through (that depends on the file system and, for the encoding, on the
    texts written, those of the statistics included). *)
Record export_env : Type := {
  strftime : nat -> text;
  can_write : text -> export_data -> machine -> bool
}.

(** The export returns the path, or raises what [open] or [json.dump]
    raise. *)
Inductive export_result : Type :=
| Exported (output_path : text) (export_data : export_data)
| WriteError (output_path : text).

(** [datetime.now()], as the number of the reading. *)
Definition tick : M nat :=
  fun st => Some (clock st,
                  {| objects := objects st;
                     next_loc := next_loc st;
                     clock := S (clock st) |}).

Definition doc_data_of (doc : SourceDocument) : doc_data :=
  {| doc_source_id := source_id doc;
     doc_source_label := source_label doc;
     doc_file_path := file_path doc;
     doc_text_length := len (cleaned_text doc);
     doc_cleaned_text := cleaned_text doc;
     doc_processing_timestamp := processing_timestamp doc |}.

(** [output_path] is [None] when the caller leaves it out. *)
Definition export_processed_documents (w : world) (env : export_env)
    (self : EnhancedPDFParser) (documents : list SourceDocument)
    (output_path : option text) : M export_result :=
  output_path <- match output_path with
                 | None =>
                     n <- tick ;;
                     ret (codes "processed_documents_" ++ strftime env n
                          ++ codes ".json")
                 | Some path => ret path
                 end ;;
  stamp <- read_clock w ;;
  let export_data :=
    {| export_processing_timestamp := stamp;
       export_total_documents := Z.of_nat (length documents);
       export_processing_stats := processing_stats self;
       export_documents := List.map doc_data_of documents |} in
  fun st =>
    Some (if can_write env output_path export_data st
          then Exported output_path export_data
          else WriteError output_path,
          st).

(** * The vocabulary of the properties *)

(** ** Patterns *)

(** [matches r m]: the text [m] is matched by [r]. *)
Fixpoint matches (r : regex) (m : text) : Prop :=
  match r with
  | Cls p => exists c, m = [c] /\ p c = true
  | Star p => Forall (fun c => p c = true) m
  | Plus p => m <> [] /\ Forall (fun c => p c = true) m
  | Opt p => m = [] \/ exists c, m = [c] /\ p c = true
  | Cat r1 r2 => exists m1 m2, m = m1 ++ m2 /\ matches r1 m1 /\ matches r2 m2
  | Alt r1 r2 => matches r1 m \/ matches r2 m
  | Grp r' => matches r' m
  end.

(** [nullable r]: [r] can match the empty text. *)
Fixpoint nullable (r : regex) : bool :=
  match r with
  | Cls _ | Plus _ => false
  | Star _ | Opt _ => true
  | Cat r1 r2 => nullable r1 && nullable r2
  | Alt r1 r2 => nullable r1 || nullable r2
  | Grp r' => nullable r'
  end.

(** The characters a pattern can consume. *)
Fixpoint alphabet (P : char -> Prop) (r : regex) : Prop :=
  match r with
  | Cls p | Star p | Plus p | Opt p => forall c, p c = true -> P c
  | Cat r1 r2 | Alt r1 r2 => alphabet P r1 /\ alphabet P r2
  | Grp r' => alphabet P r'
  end.

(** The literal text of a template. *)
Fixpoint template_text (tpl : list piece) : text :=
  match tpl with
  | [] => []
  | PText t :: tpl' => t ++ template_text tpl'
  | PGroup _ :: tpl' => template_text tpl'
  end.

(** Every match begins with a newline. *)
Definition starts_NL (r : regex) : Prop :=
  forall m, matches r m -> exists m', m = NL :: m'.

(** Every match begins and ends with a whitespace character. *)
Definition space_edged (r : regex) : Prop :=
  forall m, matches r m ->
    (exists c t, m = c :: t /\ isspace c = true)
    /\ (exists t c, m = t ++ [c] /\ isspace c = true).

(** Every match holds two newlines at least. *)
Definition needs_two_NL (r : regex) : Prop :=
  forall m, matches r m -> exists a b, m = NL :: a ++ NL :: b.

(** ** The scenarios of the specification *)

(** ["Yield was 97.2\n% under standard conditions.\nPage 3\n"] *)
Definition yield_text : text :=
  codes "Yield was 97.2" ++ [NL] ++ codes "% under standard conditions."
  ++ [NL] ++ codes "Page 3" ++ [NL].

(** ["Rate: 1.5 × 10\n-6 per second"], with U+00D7 *)
Definition rate_text : text :=
  codes "Rate: 1.5 " ++ [TIMES] ++ codes " 10" ++ [NL] ++ codes "-6 per second".

(** The same with the letter [x] as the multiplication sign. *)
Definition rate_text_x : text :=
  codes "Rate: 1.5 x 10" ++ [NL] ++ codes "-6 per second".

(** ["Error: 95.2\n±\n0.5 units"], with U+00B1 *)
Definition error_text : text :=
  codes "Error: 95.2" ++ [NL; PLUS_MINUS; NL] ++ codes "0.5 units".

(** ** The processor and its store *)

(** What the processor [self] holds in the machine [st]: its statistics
    dictionary [d] and the [source_mapping] dictionary [m] that [d] refers
    to, both allocated. *)
Record parser_state (self : EnhancedPDFParser) (st : machine)
    (d : stats_dict) (m : gmap text text) : Prop := {
  ps_stats : objects st !! processing_stats self = Some (Stats d);
  ps_mapping : objects st !! source_mapping d = Some (Mapping m);
  ps_stats_allocated : (processing_stats self < next_loc st)%positive;
  ps_mapping_allocated : (source_mapping d < next_loc st)%positive
}.

(** The statistics of a processor just built. *)
Definition fresh_stats : stats_dict :=
  {| total_documents := 0;
     successful_extractions := 0;
     failed_extractions := 0;
     total_text_length := 0;
     source_mapping := 1%positive |}.

(** The processor [__init__] builds and the machine it leaves. *)
Definition fresh_parser : EnhancedPDFParser :=
  {| processing_stats := 2%positive |}.

Definition fresh_machine : machine :=
  {| objects := <[2%positive := Stats fresh_stats]>
                  (<[1%positive := Mapping ∅]> ∅);
     next_loc := 3%positive;
     clock := 1%nat |}.

(** What a caller can do with the dictionary [snap] it got from
    [get_processing_statistics]: change it at the top level
    ([snap[key] = ...], any change [f] of its entries), or change the
    dictionary under its ['source_mapping'] key
    ([snap['source_mapping'][key] = value]). *)
Definition snapshot_update (snap : loc) (f : stats_dict -> stats_dict)
  : M unit :=
  update_stats snap f.

(** [snap['source_mapping'][key] = value] *)
Definition snapshot_mapping_setitem (snap : loc) (key value : text) : M unit :=
  d <- read_stats snap ;; mapping_setitem (source_mapping d) key value.

(** ** A concrete world *)

(** A world in which a path exists unless it holds ["missing"], every
    file has the same two pages, and the clock shows its count. *)
Definition sample_world : world :=
  {| path_exists := fun p => negb (contains (codes "missing") p);
     pdf_pages := fun _ => Some [codes "Yield was 97.2"; codes "% of theory."];
     now := fun n => codes "2024-01-01T00:00:0" ++ [48 + N.of_nat n] |}.

(** A request of the batch. *)
Definition sample_config (path id label : string) : config :=
  {| cfg_path := codes path;
     cfg_source_id := codes id;
     cfg_source_label := codes label |}.

(** What the extraction gives for a file of [sample_world]. *)
Definition sample_raw : text :=
  codes "Yield was 97.2" ++ [NL] ++ codes "% of theory.".

(** Unicode tables with nothing above U+00FF. *)
Definition no_ext : char -> bool := fun _ => false.

(** ** What depends on the Unicode tables and on the world *)

Section Vocabulary.

Context (decimal_ext alnum_ext : char -> bool).
Context (w : world).

(** What the Symbol Filter writes for the character [c]. *)
Definition keep_or_blank (c : char) : char :=
  if negb (essential alnum_ext c) then SPACE else c.

(** The characters the four patterns of the Noise Remover can consume:
    whitespace, decimal digits, the letters of [Page] in either case and
    the three punctuation marks. *)
Definition consumable (c : char) : bool :=
  isspace c || isdecimal decimal_ext c || one_of (codes "PpAaGgEe,;:") c.

(** The characters the two page patterns can consume: whitespace, decimal
    digits and the letters of [Page] in either case. *)
Definition page_consumable (c : char) : bool :=
  isspace c || isdecimal decimal_ext c || one_of (codes "PpAaGgEe") c.

(** The document built for a request whose extraction gave [raw], at the
    time [stamp]. *)
Definition document_of (cfg : config) (raw stamp : text) : SourceDocument :=
  {| source_id := cfg_source_id cfg;
     source_label := cfg_source_label cfg;
     file_path := cfg_path cfg;
     raw_text := raw;
     cleaned_text := _clean_text_for_numerical_extraction decimal_ext alnum_ext raw;
     processing_timestamp := stamp |}.

(** What a batch over [cfgs] does, request by request: the documents it
    produces when the clock has been read [t] times, the statistics it
    leaves and the entries it adds to [source_mapping]. *)
Fixpoint produced (cfgs : list config) (t : nat) : list SourceDocument :=
  match cfgs with
  | [] => []
  | cfg :: cfgs' =>
      match _extract_text_from_pdf w (cfg_path cfg) with
      | Return raw => document_of cfg raw (now w t) :: produced cfgs' (S t)
      | Raise _ => produced cfgs' t
      end
  end.

Fixpoint tally (cfgs : list config) (d : stats_dict) : stats_dict :=
  match cfgs with
  | [] => d
  | cfg :: cfgs' =>
      match _extract_text_from_pdf w (cfg_path cfg) with
      | Return raw =>
          tally cfgs' (add_text_length (len (_clean_text_for_numerical_extraction decimal_ext alnum_ext
                                        raw)) (add_success d))
      | Raise _ => tally cfgs' (add_failure d)
      end
  end.

Fixpoint mapped (cfgs : list config) (m : gmap text text) : gmap text text :=
  match cfgs with
  | [] => m
  | cfg :: cfgs' =>
      match _extract_text_from_pdf w (cfg_path cfg) with
      | Return _ =>
          mapped cfgs' (<[cfg_source_id cfg := cfg_source_label cfg]> m)
      | Raise _ => mapped cfgs' m
      end
  end.

End Vocabulary.

(** ** The shape of the line-break patterns *)

(** What the five patterns of Line-Break Repair have in common: a match
    begins with a decimal digit and holds a newline. *)
Definition repair_shaped (decimal_ext : char -> bool) (r : regex) : Prop :=
  forall m, matches r m ->
    (exists c t, m = c :: t /\ isdecimal decimal_ext c = true) /\ In NL m.

(** ** Batches *)

(** Whether the extraction of a request returns a text. *)
Definition succeeds (w : world) (cfg : config) : bool :=
  match _extract_text_from_pdf w (cfg_path cfg) with
  | Return _ => true
  | Raise _ => false
  end.

(** The request a document answers, read off its fields. *)
Definition request_of (doc : SourceDocument) : config :=
  {| cfg_path := file_path doc;
     cfg_source_id := source_id doc;
     cfg_source_label := source_label doc |}.

(** [sum(len(doc.cleaned_text) for doc in docs)] *)
Definition total_length (docs : list SourceDocument) : Z :=
  fold_right Z.add 0%Z (List.map (fun doc => len (cleaned_text doc)) docs).

(** [mapping[doc.source_id] = doc.source_label] for every document, in
    order. *)
Definition record_sources (docs : list SourceDocument) (m : gmap text text)
  : gmap text text :=
  fold_left (fun m doc => <[source_id doc := source_label doc]> m) docs m.

(** [st'] differs from [st] at most in the objects at the locations [ls],
    and has allocated nothing. *)
Definition same_but (ls : list loc) (st st' : machine) : Prop :=
  next_loc st' = next_loc st
  /\ forall l, ~ In l ls -> objects st' !! l = objects st !! l.

(** ** Patterns, continued *)

(** [r] holds no capturing group. *)
Fixpoint group_free (r : regex) : bool :=
  match r with
  | Cls _ | Star _ | Plus _ | Opt _ => true
  | Cat r1 r2 | Alt r1 r2 => group_free r1 && group_free r2
  | Grp _ => false
  end.

(** The patterns of Line-Break Repair that join a number to what follows
    the line break: [( \d+\.?\d* ) \s*\n\s* ( x )]. *)
Definition joining_rule (decimal_ext : char -> bool) (x : regex) : regex :=
  Cat (Grp (number decimal_ext)) (Cat line_break (Grp x)).

(** Every match of [r] holds a line break followed, after whitespace, by a
    character of the class [C] that is not whitespace. *)
Definition breaks_before (C : char -> bool) (r : regex) : Prop :=
  forall m, matches r m ->
    exists F A y R,
      m = F ++ NL :: A ++ y :: R
      /\ Forall (fun c => isspace c = true) A
      /\ isspace y = false /\ C y = true.

(** The characters that stand after the line break in the five patterns
    of Line-Break Repair: a decimal digit, a sign, and the symbols of the
    classes as the file stores them. *)
Definition repairable (decimal_ext : char -> bool) (c : char) : bool :=
  isdecimal decimal_ext c
  || one_of ([37; NOT_SIGN; INFINITY; 45; 43; LOW_QUOTE; A_DIAERESIS; I_GRAVE;
              OE_LIGATURE; MASC_ORDINAL] ++ codes "mkMGTgLVAW") c.

(** [[mkMGT]?[gLMVAW]]: the units of the last pattern that are written
    with ASCII letters. *)
Definition ascii_unit : regex :=
  Seq [Opt (one_of (codes "mkMGT")); Cls (one_of (codes "gLMVAW"))].

(** The character after the line break, pattern by pattern. *)
Definition percent_class : char -> bool := one_of [37; NOT_SIGN; INFINITY].

Definition exponent_class (decimal_ext : char -> bool) : char -> bool :=
  fun c => one_of [45; 43] c || isdecimal decimal_ext c.

Definition dash_class : char -> bool :=
  one_of [45; LOW_QUOTE; A_DIAERESIS; I_GRAVE].

Definition unit_class : char -> bool :=
  one_of (OE_LIGATURE :: MASC_ORDINAL :: codes "mkMGT" ++ codes "gLMVAW"
          ++ [NOT_SIGN]).

(** [[ŒºmkMGT]?[gLMVAW]|¬∞[CF]?]: the second group of the last pattern. *)
Definition unit_symbol : regex :=
  Alt (Seq [Opt (one_of (OE_LIGATURE :: MASC_ORDINAL :: codes "mkMGT"));
            Cls (one_of (codes "gLMVAW"))])
      (Seq [Lit NOT_SIGN; Lit INFINITY; Opt (one_of (codes "CF"))]).

(** ** The export *)

(** The sum of the ['text_length'] entries of an exported dictionary. *)
Definition exported_length (data : export_data) : Z :=
  fold_right Z.add 0%Z
    (List.map doc_text_length (export_documents data)).

(** An environment in which every file can be written. *)
Definition sample_env : export_env :=
  {| strftime := fun n => codes "20240101_00000" ++ [48 + N.of_nat n];
     can_write := fun _ _ _ => true |}.

(** The three requests of the running example: the path of the second is
    missing. *)
Definition sample_batch : list config :=
  [sample_config "a.pdf" "SRC_001" "Source One";
   sample_config "missing.pdf" "SRC_002" "Source Two";
   sample_config "c.pdf" "SRC_003" "Source Three"].

(** * Properties *)

(** ** Basic facts about the helpers *)

Lemma isspace_NL : isspace NL = true.
Proof. reflexivity. Qed.

Lemma isspace_SPACE : isspace SPACE = true.
Proof. reflexivity. Qed.

Lemma lstrip_incl (s : text) : incl (lstrip s) s.
Proof.
  induction s as [|c s IH]; simpl.
  - apply incl_refl.
  - destruct (isspace c).
    + apply incl_tl, IH.
    + apply incl_refl.
Qed.

Lemma lstrip_head (s : text) c t : lstrip s = c :: t -> isspace c = false.
Proof.
  induction s as [|a s IH]; simpl; [discriminate|].
  destruct (isspace a) eqn:Ha; [exact IH|].
  intros E. injection E as -> _. exact Ha.
Qed.

Lemma rstrip_incl (s : text) : incl (rstrip s) s.
Proof.
  unfold rstrip. intros c Hc.
  apply in_rev in Hc. apply lstrip_incl in Hc. now apply in_rev.
Qed.

Lemma rstrip_last (s : text) pre c : rstrip s = pre ++ [c] -> isspace c = false.
Proof.
  unfold rstrip. intros E.
  apply (f_equal (@rev char)) in E.
  rewrite rev_involutive, rev_app_distr in E.
  exact (lstrip_head _ _ _ E).
Qed.

Lemma strip_incl (s : text) : incl (strip s) s.
Proof.
  unfold strip. eapply incl_tran; [apply rstrip_incl | apply lstrip_incl].
Qed.

Lemma strip_last (s : text) pre c : strip s = pre ++ [c] -> isspace c = false.
Proof. unfold strip. apply rstrip_last. Qed.

Lemma split_lines_nonempty (s : text) : split_lines s <> [].
Proof.
  induction s as [|c s IH]; simpl; [discriminate|].
  destruct (c =? NL); [discriminate|].
  destruct (split_lines s); discriminate.
Qed.

Lemma split_lines_no_NL (s : text) :
  Forall (fun l => ~ In NL l) (split_lines s).
Proof.
  induction s as [|c s IH]; simpl.
  - constructor; [intros []|constructor].
  - destruct (N.eqb_spec c NL) as [->|Hc].
    + constructor; [intros []|exact IH].
    + destruct (split_lines s) as [|l ls].
      * constructor; [|constructor]. intros [H|[]]. congruence.
      * inversion IH as [|? ? Hl Hls]; subst.
        constructor; [|exact Hls].
        intros [H|H]; [congruence | exact (Hl H)].
Qed.

(** ** The Whitespace Normalizer *)

Lemma fragment_chars (raw_line : text) (following : list text) c :
  In c (fragment raw_line following) -> In c raw_line \/ c = SPACE.
Proof.
  unfold fragment.
  destruct (negb (truthy (strip raw_line))); [intros []|].
  destruct (_ && _ && _).
  - intros H. left. now apply strip_incl.
  - destruct (_ && _).
    + intros H. apply in_app_or in H as [H|[H|[]]].
      * left. now apply strip_incl.
      * now right.
    + intros H. left. now apply strip_incl.
Qed.

Lemma cleaned_lines_no_NL (lines : list text) :
  Forall (fun l => ~ In NL l) lines ->
  Forall (fun l => ~ In NL l) (cleaned_lines lines).
Proof.
  induction 1 as [|l lines Hl Hlines IH]; simpl; constructor; [|exact IH].
  intros H. apply fragment_chars in H as [H|H]; [exact (Hl H)|discriminate].
Qed.

Lemma join_no_NL (fragments : list text) :
  Forall (fun l => ~ In NL l) fragments -> ~ In NL (join fragments).
Proof.
  unfold join. induction 1 as [|l ls Hl Hls IH]; simpl; [intros []|].
  intros H. apply in_app_or in H as [H|H]; auto.
Qed.

(** C4: the output of the Whitespace Normalizer never contains a newline:
    the pieces between the newlines of the text are trimmed and
    concatenated with nothing, or a single blank, between them. *)
Theorem normalize_whitespace_no_newline (text0 : text) :
  ~ In NL (_normalize_whitespace text0).
Proof.
  unfold _normalize_whitespace.
  apply join_no_NL, cleaned_lines_no_NL, split_lines_no_NL.
Qed.

(** C1: where the claim's conditions hold (the trimmed line ends a
    sentence and the next line is not blank), the fragment the loop emits
    is the trimmed line itself, and it does not end with a newline. *)
Theorem kept_break_fragment_has_no_newline
    (raw_line next : text) (rest : list text) :
  ends_sentence (strip raw_line) = true ->
  truthy (strip next) = true ->
  fragment raw_line (next :: rest) = strip raw_line
  /\ forall pre, fragment raw_line (next :: rest) <> pre ++ [NL].
Proof.
  intros Hend Hnext.
  assert (E : fragment raw_line (next :: rest) = strip raw_line).
  { unfold fragment. rewrite Hend, Hnext. simpl.
    destruct (strip raw_line); reflexivity. }
  split; [exact E|].
  intros pre Hpre. rewrite E in Hpre.
  apply strip_last in Hpre. discriminate.
Qed.

Lemma kept_break_fragment_witness :
  (fragment (codes "Done.") [codes "Next"] = strip (codes "Done.")
   /\ forall pre, fragment (codes "Done.") [codes "Next"] <> pre ++ [NL])
  /\ _normalize_whitespace (codes "Done." ++ [NL] ++ codes "Next")
     = codes "Done.Next".
Proof.
  split.
  - apply (kept_break_fragment_has_no_newline (codes "Done.") (codes "Next") []);
      reflexivity.
  - reflexivity.
Defined.

(** ** What the matcher computes *)

Lemma star_sound p s rest :
  In rest (star p s) ->
  exists m, s = m ++ rest /\ Forall (fun c => p c = true) m.
Proof.
  revert rest. induction s as [|c s IH]; simpl; intros rest H.
  - destruct H as [<-|[]]. exists []. split; [reflexivity|constructor].
  - destruct (p c) eqn:Hc.
    + apply in_app_or in H as [H|[<-|[]]].
      * destruct (IH _ H) as (m & -> & Hm).
        exists (c :: m). split; [reflexivity|]. constructor; assumption.
      * exists []. split; [reflexivity|constructor].
    + destruct H as [<-|[]]. exists []. split; [reflexivity|constructor].
Qed.

Lemma star_complete p m rest :
  Forall (fun c => p c = true) m -> In rest (star p (m ++ rest)).
Proof.
  induction 1 as [|c m Hc Hm IH]; simpl.
  - destruct rest as [|c s]; simpl; [now left|].
    destruct (p c); [apply in_or_app; right|]; now left.
  - rewrite Hc. apply in_or_app. now left.
Qed.

Lemma in_no_groups ss g rest :
  In (g, rest) (no_groups ss) <-> g = [] /\ In rest ss.
Proof.
  unfold no_groups. rewrite in_map_iff. split.
  - intros (x & E & Hx). injection E as <- <-. now split.
  - intros [-> H]. exists rest. now split.
Qed.

Lemma run_sound r : forall s g rest,
  In (g, rest) (run r s) -> exists m, s = m ++ rest /\ matches r m.
Proof.
  induction r as [p|p|p|p|r1 IH1 r2 IH2|r1 IH1 r2 IH2|r IH];
    intros s g rest H; simpl in *.
  - destruct s as [|c s]; [destruct H|].
    destruct (p c) eqn:Hc; [|destruct H].
    destruct H as [E|[]]. injection E as <- <-.
    exists [c]. split; [reflexivity|]. exists c. now split.
  - apply in_no_groups in H as [_ H]. now apply star_sound.
  - apply in_no_groups in H as [_ H].
    destruct s as [|c s]; [destruct H|]. simpl in H.
    destruct (p c) eqn:Hc; [|destruct H].
    apply star_sound in H as (m & -> & Hm).
    exists (c :: m). split; [reflexivity|].
    split; [discriminate|]. constructor; assumption.
  - apply in_no_groups in H as [_ H].
    destruct s as [|c s]; simpl in H.
    + destruct H as [<-|[]]. exists []. split; [reflexivity|now left].
    + destruct (p c) eqn:Hc.
      * destruct H as [<-|[<-|[]]].
        -- exists [c]. split; [reflexivity|]. right. exists c. now split.
        -- exists []. split; [reflexivity|now left].
      * destruct H as [<-|[]]. exists []. split; [reflexivity|now left].
  - apply in_flat_map in H as ([g1 s1] & H1 & H).
    apply in_map_iff in H as ([g2 s2] & E & H2). simpl in *.
    injection E as <- <-.
    destruct (IH1 _ _ _ H1) as (m1 & -> & Hm1).
    destruct (IH2 _ _ _ H2) as (m2 & -> & Hm2).
    exists (m1 ++ m2). split; [now rewrite app_assoc|].
    exists m1, m2. now repeat split.
  - apply in_app_or in H as [H|H].
    + destruct (IH1 _ _ _ H) as (m & -> & Hm). exists m. split; [reflexivity|now left].
    + destruct (IH2 _ _ _ H) as (m & -> & Hm). exists m. split; [reflexivity|now right].
  - apply in_map_iff in H as ([g' s'] & E & H). simpl in E.
    injection E as <- <-. exact (IH _ _ _ H).
Qed.

Lemma run_complete r : forall m rest,
  matches r m -> exists g, In (g, rest) (run r (m ++ rest)).
Proof.
  induction r as [p|p|p|p|r1 IH1 r2 IH2|r1 IH1 r2 IH2|r IH];
    intros m rest H; simpl in *.
  - destruct H as (c & -> & Hc). simpl. rewrite Hc. exists []. now left.
  - exists []. apply in_no_groups. split; [reflexivity|].
    now apply star_complete.
  - destruct H as [Hne H]. exists []. apply in_no_groups.
    split; [reflexivity|].
    destruct H as [|c m Hc Hm]; [contradiction|]. simpl. rewrite Hc.
    now apply star_complete.
  - exists []. apply in_no_groups. split; [reflexivity|].
    destruct H as [->|(c & -> & Hc)]; simpl.
    + destruct rest as [|c s]; simpl; [now left|].
      destruct (p c); [right|]; now left.
    + rewrite Hc. now left.
  - destruct H as (m1 & m2 & -> & H1 & H2).
    destruct (IH1 m1 (m2 ++ rest) H1) as (g1 & Hg1).
    destruct (IH2 m2 rest H2) as (g2 & Hg2).
    exists (g1 ++ g2). rewrite <- app_assoc.
    apply in_flat_map. exists (g1, m2 ++ rest). split; [exact Hg1|].
    apply in_map_iff. exists (g2, rest). now split.
  - destruct H as [H|H].
    + destruct (IH1 m rest H) as (g & Hg). exists g. apply in_or_app. now left.
    + destruct (IH2 m rest H) as (g & Hg). exists g. apply in_or_app. now right.
  - destruct (IH m rest H) as (g & Hg).
    eexists. apply in_map_iff. exists (g, rest). split; [reflexivity|exact Hg].
Qed.

Lemma matches_alphabet P r : forall m,
  alphabet P r -> matches r m -> Forall P m.
Proof.
  induction r as [p|p|p|p|r1 IH1 r2 IH2|r1 IH1 r2 IH2|r IH];
    intros m HA H; simpl in *.
  - destruct H as (c & -> & Hc). constructor; [auto|constructor].
  - eapply List.Forall_impl; [|exact H]. auto.
  - destruct H as [_ H]. eapply List.Forall_impl; [|exact H]. auto.
  - destruct H as [->|(c & -> & Hc)]; [constructor|].
    constructor; [auto|constructor].
  - destruct HA as [HA1 HA2]. destruct H as (m1 & m2 & -> & H1 & H2).
    apply Forall_app. split; auto.
  - destruct HA as [HA1 HA2]. destruct H as [H|H]; auto.
  - auto.
Qed.

Lemma matches_not_nullable r : forall m,
  nullable r = false -> matches r m -> m <> [].
Proof.
  induction r as [p|p|p|p|r1 IH1 r2 IH2|r1 IH1 r2 IH2|r IH];
    intros m Hn H; simpl in *; try discriminate.
  - destruct H as (c & -> & _). discriminate.
  - exact (proj1 H).
  - destruct H as (m1 & m2 & -> & H1 & H2).
    apply andb_false_iff in Hn as [Hn|Hn]; intros E;
      apply app_eq_nil in E as [E1 E2].
    + exact (IH1 _ Hn H1 E1).
    + exact (IH2 _ Hn H2 E2).
  - apply orb_false_iff in Hn as [Hn1 Hn2]. destruct H as [H|H]; auto.
  - auto.
Qed.

(** A pattern that cannot match the empty text consumes a character at
    least wherever it matches. *)
Lemma run_consumes r (s : text) g rest :
  nullable r = false -> In (g, rest) (run r s) ->
  (length rest < length s)%nat.
Proof.
  intros Hn H. destruct (run_sound r s g rest H) as (m & -> & Hm).
  pose proof (matches_not_nullable r m Hn Hm) as Hne.
  rewrite length_app. destruct m; [contradiction|simpl; lia].
Qed.

(** No pattern of the program matches the empty text. *)
Lemma source_patterns_consume (decimal_ext : char -> bool) :
  Forall (fun r => nullable r = false)
    [percent_rule decimal_ext; scientific_rule decimal_ext;
     range_rule decimal_ext; error_rule decimal_ext; unit_rule decimal_ext;
     Plus (N.eqb SPACE); Seq [Lit NL; Plus (N.eqb NL)];
     page_label_rule decimal_ext; page_number_rule decimal_ext;
     blank_lines_rule; punctuation_rule].
Proof. repeat constructor. Qed.


(** ** Substitution *)

Lemma sub_from_skip r tpl (a b : text) :
  sub_from r tpl (length a) (a ++ b) = sub_from r tpl O b.
Proof. induction a as [|c a IH]; simpl; [reflexivity|exact IH]. Qed.

(** Where the first way to match consumes [c :: t], the template is
    written and the scan drops [t]. *)
Lemma sub_from_hit r tpl c (t rest : text) g tl :
  run r (c :: t ++ rest) = (g, rest) :: tl ->
  sub_from r tpl O (c :: t ++ rest)
  = expand tpl g ++ sub_from r tpl (length t) (t ++ rest).
Proof.
  intros Hrun. simpl. rewrite Hrun.
  replace (length (t ++ rest)) with (length t + length rest)%nat
    by (now rewrite length_app).
  replace (S (length t + length rest) - length rest)%nat with (S (length t))
    by lia.
  reflexivity.
Qed.

(** Where the pattern matches nowhere in [a], [a] is copied. *)
Lemma sub_from_copy r tpl (a b : text) :
  (forall a1 a2, a = a1 ++ a2 -> a2 <> [] -> run r (a2 ++ b) = []) ->
  sub_from r tpl O (a ++ b) = a ++ sub_from r tpl O b.
Proof.
  induction a as [|c a IH]; intros H; [reflexivity|].
  simpl. specialize (H [] (c :: a) eq_refl) as H0. simpl in H0.
  rewrite H0; [|discriminate]. f_equal. apply IH.
  intros a1 a2 -> Hne. apply (H (c :: a1) a2); [reflexivity|exact Hne].
Qed.

(** Where the first way to match consumes [m], not empty, the template
    replaces [m] and the scan goes on after it. *)
Lemma sub_from_match r tpl (m rest : text) g tl :
  m <> [] ->
  run r (m ++ rest) = (g, rest) :: tl ->
  sub_from r tpl O (m ++ rest) = expand tpl g ++ sub_from r tpl O rest.
Proof.
  intros Hne Hrun. destruct m as [|c m]; [contradiction|].
  simpl. simpl in Hrun. rewrite Hrun.
  replace (length (m ++ rest)) with (length m + length rest)%nat
    by (now rewrite length_app).
  replace (S (length m + length rest) - length rest)%nat with (S (length m))
    by lia.
  now rewrite sub_from_skip.
Qed.

Lemma run_groups r : forall s g rest,
  In (g, rest) (run r s) -> forall t, In t g -> incl t s.
Proof.
  induction r as [p|p|p|p|r1 IH1 r2 IH2|r1 IH1 r2 IH2|r IH];
    intros s g rest H t Ht; simpl in H.
  - destruct s as [|c s]; [destruct H|].
    destruct (p c); [|destruct H]. destruct H as [E|[]].
    injection E as <- <-. destruct Ht.
  - apply in_no_groups in H as [-> _]. destruct Ht.
  - apply in_no_groups in H as [-> _]. destruct Ht.
  - apply in_no_groups in H as [-> _]. destruct Ht.
  - apply in_flat_map in H as ([g1 s1] & H1 & H).
    apply in_map_iff in H as ([g2 s2] & E & H2). simpl in *.
    injection E as <- <-.
    apply in_app_or in Ht as [Ht|Ht].
    + exact (IH1 _ _ _ H1 _ Ht).
    + destruct (run_sound _ _ _ _ H1) as (m1 & -> & _).
      apply incl_appr. exact (IH2 _ _ _ H2 _ Ht).
  - apply in_app_or in H as [H|H]; eauto.
  - apply in_map_iff in H as ([g' s'] & E & H). simpl in E.
    injection E as <- <-. destruct Ht as [<-|Ht].
    + intros c Hc. rewrite <- (firstn_skipn (length s - length s') s).
      apply in_or_app. now left.
    + exact (IH _ _ _ H _ Ht).
Qed.

Lemma expand_chars tpl g c :
  In c (expand tpl g) ->
  In c (template_text tpl) \/ exists t, In t g /\ In c t.
Proof.
  induction tpl as [|[t|n] tpl IH]; simpl; intros H; [destruct H| |].
  - apply in_app_or in H as [H|H].
    + left. apply in_or_app. now left.
    + destruct (IH H) as [H'|H']; [left; apply in_or_app; now right|now right].
  - apply in_app_or in H as [H|H]; [|auto].
    right. destruct (nth_in_or_default (n - 1) g []) as [Hin|E].
    + eauto.
    + rewrite E in H. destruct H.
Qed.

(** [re.sub] writes only characters of the text and of the template. *)
Lemma sub_from_chars r tpl : forall s k c,
  In c (sub_from r tpl k s) -> In c s \/ In c (template_text tpl).
Proof.
  assert (Hexp : forall s g rest c, In (g, rest) (run r s) ->
            In c (expand tpl g) -> In c s \/ In c (template_text tpl)).
  { intros s g rest c Hrun Hc.
    destruct (expand_chars _ _ _ Hc) as [H|(t & Ht & Hct)]; [now right|].
    left. exact (run_groups _ _ _ _ Hrun _ Ht _ Hct). }
  induction s as [|a s IH]; intros k c H; simpl in H.
  - destruct k; [|destruct H].
    destruct (run r []) as [|[g rest] tl] eqn:E; [destruct H|].
    eapply Hexp; [|exact H]. rewrite E. now left.
  - destruct k as [|k].
    + destruct (run r (a :: s)) as [|[g rest] tl] eqn:E.
      * destruct H as [<-|H]; [left; now left|].
        destruct (IH _ _ H); [left; now right|now right].
      * assert (Hin : In (g, rest) (run r (a :: s))) by (rewrite E; now left).
        destruct (_ - _)%nat.
        -- apply in_app_or in H as [H|[<-|H]].
           ++ eapply Hexp; eauto.
           ++ left; now left.
           ++ destruct (IH _ _ H); [left; now right|now right].
        -- apply in_app_or in H as [H|H].
           ++ eapply Hexp; eauto.
           ++ destruct (IH _ _ H); [left; now right|now right].
    + destruct (IH _ _ H); [left; now right|now right].
Qed.

Lemma re_sub_chars r tpl s c :
  In c (re_sub r tpl s) -> In c s \/ In c (template_text tpl).
Proof. apply sub_from_chars. Qed.

(** Replacing the characters of a class is a map over the text. *)
Lemma re_sub_class p x (s : text) :
  re_sub (Cls p) [PText [x]] s = List.map (fun c => if p c then x else c) s.
Proof.
  unfold re_sub. induction s as [|c s IH]; [reflexivity|].
  simpl List.map. destruct (p c) eqn:Hc.
  - rewrite (sub_from_match (Cls p) _ [c] s [] []); [|discriminate|].
    + simpl. now rewrite IH.
    + simpl. now rewrite Hc.
  - rewrite (sub_from_copy (Cls p) _ [c] s).
    + simpl. now rewrite IH.
    + intros a1 a2 E Hne. destruct a1 as [|? a1].
      * simpl in E. subst a2. simpl. now rewrite Hc.
      * injection E as _ E. destruct a1; destruct a2; try discriminate.
        contradiction.
Qed.

(** ** The Symbol Filter *)

Section Cleaning.

Context (decimal_ext alnum_ext : char -> bool).

Local Abbreviation keep_or_blank := (keep_or_blank alnum_ext).
Local Abbreviation symbol_filter := (_clean_preserve_numerical_symbols alnum_ext).
Local Abbreviation noise_remover := (_remove_noise_keep_context decimal_ext).
Local Abbreviation line_break_repair := (_fix_numerical_line_breaks decimal_ext).
Local Abbreviation clean :=
  (_clean_text_for_numerical_extraction decimal_ext alnum_ext).

Lemma symbol_filter_map (t : text) :
  symbol_filter t = List.map keep_or_blank t.
Proof. unfold _clean_preserve_numerical_symbols. apply re_sub_class. Qed.

Lemma essential_SPACE : essential alnum_ext SPACE = true.
Proof. reflexivity. Qed.

Lemma essential_CARET : essential alnum_ext CARET = false.
Proof. reflexivity. Qed.

Lemma keep_or_blank_essential c : essential alnum_ext (keep_or_blank c) = true.
Proof.
  unfold keep_or_blank. destruct (essential alnum_ext c) eqn:E; simpl.
  - exact E.
  - exact essential_SPACE.
Qed.

Lemma keep_or_blank_idempotent c : keep_or_blank (keep_or_blank c) = keep_or_blank c.
Proof.
  unfold keep_or_blank at 1. now rewrite keep_or_blank_essential.
Qed.

(** C7: the Symbol Filter is idempotent. *)
Theorem symbol_filter_idempotent (T : text) :
  symbol_filter (symbol_filter T) = symbol_filter T.
Proof.
  rewrite !symbol_filter_map, List.map_map.
  apply List.map_ext. exact keep_or_blank_idempotent.
Qed.

Lemma symbol_filter_essential (t : text) c :
  In c (symbol_filter t) -> essential alnum_ext c = true.
Proof.
  rewrite symbol_filter_map, in_map_iff.
  intros (x & <- & _). apply keep_or_blank_essential.
Qed.

Lemma noise_remover_chars (t : text) c :
  In c (noise_remover t) -> In c t \/ c = NL \/ c = SPACE.
Proof.
  unfold _remove_noise_keep_context. intros H.
  apply strip_incl in H.
  apply re_sub_chars in H as [H|H]; [|simpl in H; intuition].
  apply re_sub_chars in H as [H|H]; [|simpl in H; intuition].
  apply re_sub_chars in H as [H|H]; [|simpl in H; intuition].
  apply re_sub_chars in H as [H|H]; [|simpl in H; intuition].
  now left.
Qed.

(** Whatever the raw text, the cleaned text holds essential characters
    only; in particular it holds no caret. *)
Lemma clean_essential (raw : text) c :
  In c (clean raw) -> essential alnum_ext c = true.
Proof.
  unfold _clean_text_for_numerical_extraction. intros H.
  apply noise_remover_chars in H as [H|[->| ->]]; try reflexivity.
  exact (symbol_filter_essential _ _ H).
Qed.

Lemma clean_no_caret (raw : text) : ~ In CARET (clean raw).
Proof.
  intros H. apply clean_essential in H.
  rewrite essential_CARET in H. discriminate.
Qed.

End Cleaning.

(** ** The pipeline on the scenarios of the specification *)

Section Scenarios.

Context (decimal_ext alnum_ext : char -> bool).

Local Abbreviation line_break_repair := (_fix_numerical_line_breaks decimal_ext).
Local Abbreviation clean :=
  (_clean_text_for_numerical_extraction decimal_ext alnum_ext).

(** C2: on the first scenario the percent sign is joined to its number,
    but the cleaned text still holds ["Page 3"]: the Whitespace Normalizer
    has dropped every newline, so no line is bounded by newlines when the
    Noise Remover runs. *)
Theorem yield_scenario :
  clean yield_text
    = codes "Yield was 97.2% under standard conditions.Page 3"
  /\ contains (codes "97.2%") (clean yield_text) = true
  /\ contains (codes "Page 3") (clean yield_text) = true.
Proof. repeat split; vm_compute; reflexivity. Qed.

(** C3, as amended: the scientific-notation rule of Line-Break Repair
    inserts a caret, and the caret does not survive: the Symbol Filter
    keeps no caret, so no cleaned text holds one. *)
Theorem caret_does_not_survive :
  line_break_repair rate_text_x = codes "Rate: 1.5 x 10^-6 per second"
  /\ clean rate_text_x = codes "Rate: 1.5 x 10 -6 per second"
  /\ forall raw : text, ~ In CARET (clean raw).
Proof.
  split; [vm_compute; reflexivity|].
  split; [vm_compute; reflexivity|].
  apply clean_no_caret.
Qed.

(** C10: on the third scenario the error-bound rule does not fire (the
    pattern asks for U+00AC before the plus-minus sign), the two line
    breaks become blanks and the cleaned text does not hold ["95.2±0.5"]. *)
Theorem error_scenario :
  line_break_repair error_text = error_text
  /\ clean error_text
     = codes "Error: 95.2 " ++ [PLUS_MINUS] ++ codes " 0.5 units"
  /\ contains (codes "95.2" ++ [PLUS_MINUS] ++ codes "0.5") (clean error_text)
     = false.
Proof. repeat split; vm_compute; reflexivity. Qed.

End Scenarios.

(** C3, as the claim states it: whatever the Unicode tables, the cleaned
    text of the scenario is ["Rate: 1.5   10 -6 per second"], which does not
    hold ["1.5 × 10^-6"]. *)
Lemma rate_scenario_loses_exponent :
  (forall decimal_ext alnum_ext,
     _clean_text_for_numerical_extraction decimal_ext alnum_ext rate_text
     = codes "Rate: 1.5   10 -6 per second")
  /\ contains (codes "1.5 " ++ [TIMES] ++ codes " 10^-6")
              (codes "Rate: 1.5   10 -6 per second") = false.
Proof. split; [intros; vm_compute; reflexivity | vm_compute; reflexivity]. Qed.

(** ** Where a pattern cannot match, and what survives a substitution *)

Lemma run_nil r (s : text) :
  (forall m rest, s = m ++ rest -> ~ matches r m) -> run r s = [].
Proof.
  intros H. destruct (run r s) as [|[g rest] tl] eqn:E; [reflexivity|].
  exfalso. destruct (run_sound r s g rest) as (m & Hs & Hm).
  - rewrite E. now left.
  - exact (H m rest Hs Hm).
Qed.

Lemma run_nil_head r c (s : text) :
  starts_NL r -> c <> NL -> run r (c :: s) = [].
Proof.
  intros Hr Hc. apply run_nil. intros m rest E Hm.
  destruct (Hr m Hm) as (m' & ->). injection E as E _. congruence.
Qed.

Lemma run_nil_empty r : starts_NL r -> run r [] = [].
Proof.
  intros Hr. apply run_nil. intros m rest E Hm.
  destruct (Hr m Hm) as (m' & ->). discriminate.
Qed.

Lemma sub_from_copy_no_NL r tpl (a b : text) :
  starts_NL r -> ~ In NL a ->
  sub_from r tpl O (a ++ b) = a ++ sub_from r tpl O b.
Proof.
  intros Hr Ha. apply sub_from_copy. intros a1 a2 -> Hne.
  destruct a2 as [|c a2]; [contradiction|]. simpl.
  apply run_nil_head; [exact Hr|].
  intros ->. apply Ha. apply in_or_app. right. now left.
Qed.

Lemma sub_from_copy_one r tpl c (b : text) :
  run r (c :: b) = [] ->
  sub_from r tpl O (c :: b) = c :: sub_from r tpl O b.
Proof. intros H. simpl. now rewrite H. Qed.

Lemma sub_from_empty r tpl : starts_NL r -> sub_from r tpl O [] = [].
Proof. intros Hr. simpl. now rewrite (run_nil_empty r Hr). Qed.

(** A text with a single newline splits in one way only around it. *)
Lemma single_NL (A B l post : text) :
  ~ In NL l -> ~ In NL post ->
  A ++ NL :: B = l ++ NL :: post -> A = l /\ B = post.
Proof.
  intros Hl Hpost. revert l Hl. induction A as [|a A IH]; intros l Hl E.
  - destruct l as [|c l]; simpl in E.
    + injection E as E. now split.
    + injection E as E _. exfalso. apply Hl. now left.
  - destruct l as [|c l]; simpl in E.
    + injection E as _ E. exfalso. apply Hpost. rewrite <- E.
      apply in_or_app. right. now left.
    + injection E as -> E.
      destruct (IH l) as [-> ->]; [|exact E|now split].
      intros H. apply Hl. now right.
Qed.

Lemma prefix_cases (m rest a l b : text) :
  m ++ rest = a ++ l ++ b ->
  (exists a2, a = m ++ a2)
  \/ (exists l1 l2, l1 <> [] /\ l2 <> [] /\ l = l1 ++ l2 /\ m = a ++ l1)
  \/ (exists b1, m = a ++ l ++ b1).
Proof.
  intros E. apply app_eq_app in E as (l0 & [[-> E]|[-> _]]).
  - symmetry in E. apply app_eq_app in E as (l1 & [[-> _]|[-> _]]).
    + right. right. exists l1. now rewrite app_assoc.
    + destruct l0 as [|x l0].
      * left. exists []. now rewrite !app_nil_r.
      * destruct l1 as [|y l1].
        -- right. right. exists []. now rewrite !app_nil_r.
        -- right. left. exists (x :: l0), (y :: l1).
           repeat split; discriminate.
  - left. now exists l0.
Qed.

(** A stretch [l] without whitespace that no match can hold stays where it
    is, and the scan goes on after it as if it started there. *)
Lemma sub_from_survives r tpl (l : text) :
  l <> [] ->
  Forall (fun c => isspace c = false) l ->
  space_edged r ->
  (forall m u v, matches r m -> m <> u ++ l ++ v) ->
  forall a b k, (k <= length a)%nat ->
    exists a', sub_from r tpl k (a ++ l ++ b) = a' ++ l ++ sub_from r tpl O b.
Proof.
  intros Hne Hl Hedge Hhold.
  assert (Hstart : forall l2 b, l2 <> [] -> incl l2 l -> run r (l2 ++ b) = []).
  { intros l2 b Hl2 Hincl. apply run_nil. intros m rest E Hm.
    destruct (Hedge m Hm) as [(c & t & -> & Hc) _].
    destruct l2 as [|x l2]; [contradiction|]. simpl in E. injection E as <- _.
    rewrite List.Forall_forall in Hl. rewrite (Hl x) in Hc; [discriminate|].
    apply Hincl. now left. }
  induction a as [|c a IH]; intros b k Hk.
  - simpl in Hk. assert (k = O) by lia. subst k. exists []. simpl.
    apply sub_from_copy. intros a1 a2 -> Ha2. apply Hstart; [exact Ha2|].
    apply incl_appr, incl_refl.
  - destruct k as [|k].
    + change ((c :: a) ++ l ++ b) with (c :: a ++ l ++ b).
      destruct (run r (c :: a ++ l ++ b)) as [|[g rest] tl] eqn:E.
      * destruct (IH b O) as (a' & Ha'); [lia|]. exists (c :: a').
        rewrite (sub_from_copy_one _ _ _ _ E). simpl. now rewrite Ha'.
      * destruct (run_sound r (c :: a ++ l ++ b) g rest) as (m & Hs & Hm);
          [rewrite E; now left|].
        destruct (Hedge m Hm) as [(c0 & t & -> & Hc0) (t' & z & Et' & Hz)].
        change (c :: a ++ l ++ b) with ((c :: a) ++ l ++ b) in Hs.
        symmetry in Hs.
        destruct (prefix_cases _ _ _ _ _ Hs) as [(a2 & Ea)|[H|(b1 & Eb)]].
        -- injection Ea as -> ->.
           simpl in Hs. injection Hs as Hs.
           rewrite <- Hs in E. rewrite <- Hs.
           rewrite (sub_from_hit _ _ _ _ _ _ _ E). rewrite Hs.
           destruct (IH b (length t)) as (a' & Ha'); [rewrite length_app; lia|].
           exists (expand tpl g ++ a'). now rewrite Ha', app_assoc.
        -- exfalso. destruct H as (l1 & l2 & Hl1 & _ & -> & Em).
           rewrite Et' in Em.
           destruct (exists_last Hl1) as (l1' & y & ->).
           assert (Em' : t' ++ [z] = ((c :: a) ++ l1') ++ [y])
             by (rewrite <- app_assoc; exact Em).
           apply app_inj_tail in Em' as [_ ->].
           rewrite List.Forall_forall in Hl. rewrite (Hl y) in Hz; [discriminate|].
           apply in_or_app. left. apply in_or_app. right. now left.
        -- exfalso. apply (Hhold _ (c :: a) b1 Hm). exact Eb.
    + simpl. simpl in Hk. destruct (IH b k) as (a' & Ha'); [lia|].
      exists a'. exact Ha'.
Qed.

Lemma sub_from_no_NL r tpl (s : text) :
  starts_NL r -> ~ In NL s -> sub_from r tpl O s = s.
Proof.
  intros Hr Hs. rewrite <- (app_nil_r s) at 1.
  rewrite (sub_from_copy_no_NL r tpl s [] Hr Hs).
  now rewrite (sub_from_empty r tpl Hr), app_nil_r.
Qed.

Lemma lstrip_survives (a l b : text) :
  l <> [] -> Forall (fun c => isspace c = false) l ->
  exists a', lstrip (a ++ l ++ b) = a' ++ l ++ b.
Proof.
  intros Hne Hl. induction a as [|c a IH]; simpl.
  - exists []. destruct l as [|x l]; [contradiction|].
    simpl. inversion Hl as [|? ? Hx _]; subst. now rewrite Hx.
  - destruct (isspace c); [exact IH|]. now exists (c :: a).
Qed.

Lemma strip_survives (a l b : text) :
  l <> [] -> Forall (fun c => isspace c = false) l ->
  exists a' b', strip (a ++ l ++ b) = a' ++ l ++ b'.
Proof.
  intros Hne Hl. unfold strip, rstrip.
  destruct (lstrip_survives a l b Hne Hl) as (a' & ->).
  rewrite !rev_app_distr, <- app_assoc.
  destruct (lstrip_survives (rev b) (rev l) (rev a')) as (b' & ->).
  - intros E. apply Hne. apply (f_equal (@rev char)) in E.
    now rewrite rev_involutive in E.
  - apply List.Forall_forall. intros x Hx. apply in_rev in Hx.
    rewrite List.Forall_forall in Hl. auto.
  - exists a', (rev b'). now rewrite !rev_app_distr, !rev_involutive, <- app_assoc.
Qed.

Lemma matches_Lit c (m : text) : matches (Lit c) m <-> m = [c].
Proof.
  unfold Lit. simpl. split.
  - intros (x & -> & Hx). apply N.eqb_eq in Hx. now subst.
  - intros ->. exists c. split; [reflexivity|apply N.eqb_refl].
Qed.

(** ** A character no pattern can consume splits the scan *)

Lemma run_empty r : nullable r = false -> run r [] = [].
Proof.
  intros Hr. destruct (run r []) as [|[g rest] tl] eqn:E; [reflexivity|].
  assert (H : In (g, rest) (run r [])) by (rewrite E; now left).
  apply (run_consumes r [] g rest Hr) in H. simpl in H. lia.
Qed.

Lemma star_local p c (X : text) :
  p c = false ->
  forall a, star p (a ++ c :: X) = List.map (fun s => s ++ c :: X) (star p a).
Proof.
  intros Hc. induction a as [|x a IH]; simpl.
  - now rewrite Hc.
  - destruct (p x); [|reflexivity].
    rewrite IH, List.map_app. reflexivity.
Qed.

Lemma no_groups_map (f : text -> text) ss :
  no_groups (List.map f ss)
  = List.map (fun m => (fst m, f (snd m))) (no_groups ss).
Proof. unfold no_groups. rewrite !List.map_map. reflexivity. Qed.

Lemma firstn_prefix (m t : text) :
  firstn (length (m ++ t) - length t) (m ++ t) = m.
Proof.
  rewrite length_app, Nat.add_sub, firstn_app, Nat.sub_diag, firstn_all.
  simpl. apply app_nil_r.
Qed.

(** Before a character of no class of [r], the matches of [r] are those
    of the text up to that character. *)
Lemma run_local (P : char -> Prop) c (X : text) r :
  alphabet P r -> ~ P c ->
  forall a,
    run r (a ++ c :: X)
    = List.map (fun m => (fst m, snd m ++ c :: X)) (run r a).
Proof.
  intros HA Hc.
  assert (Hp : forall p, (forall x, p x = true -> P x) -> p c = false).
  { intros p Hp. destruct (p c) eqn:E; [|reflexivity]. now apply Hp in E. }
  induction r as [p|p|p|p|r1 IH1 r2 IH2|r1 IH1 r2 IH2|r IH];
    cbn [alphabet] in HA; intros a.
  - destruct a as [|x a]; simpl.
    + now rewrite (Hp p HA).
    + now destruct (p x).
  - cbn [run]. rewrite (star_local p c X (Hp p HA)). apply no_groups_map.
  - cbn [run]. destruct a as [|x a]; simpl.
    + now rewrite (Hp p HA).
    + destruct (p x); [|reflexivity].
      rewrite (star_local p c X (Hp p HA)). apply no_groups_map.
  - destruct a as [|x a]; simpl.
    + now rewrite (Hp p HA).
    + now destruct (p x).
  - destruct HA as [HA1 HA2]. cbn [run]. rewrite (IH1 HA1).
    induction (run r1 a) as [|[g1 s1] l IHl]; [reflexivity|].
    cbn [List.map flat_map fst snd]. rewrite (IH2 HA2), IHl.
    rewrite List.map_app, !List.map_map. reflexivity.
  - destruct HA as [HA1 HA2]. cbn [run].
    rewrite (IH1 HA1), (IH2 HA2), List.map_app. reflexivity.
  - cbn [run]. rewrite (IH HA), !List.map_map.
    apply List.map_ext_in. intros [g rest] Hin. cbn [fst snd].
    destruct (run_sound r a g rest Hin) as (m & -> & _).
    do 2 f_equal. rewrite <- app_assoc.
    now rewrite (firstn_prefix m (rest ++ c :: X)), (firstn_prefix m rest).
Qed.

Lemma sub_from_block (P : char -> Prop) c r tpl (X : text) :
  nullable r = false -> alphabet P r -> ~ P c ->
  forall a k, (k <= length a)%nat ->
    sub_from r tpl k (a ++ c :: X)
    = sub_from r tpl k a ++ c :: sub_from r tpl O X.
Proof.
  intros Hr HA Hc. induction a as [|x a IH]; intros k Hk.
  - simpl in Hk. assert (k = O) by lia. subst k.
    change ([] ++ c :: X) with (c :: X).
    assert (E : run r (c :: X) = []).
    { change (c :: X) with ([] ++ c :: X).
      rewrite (run_local P c X r HA Hc []), (run_empty r Hr). reflexivity. }
    rewrite (sub_from_copy_one r tpl c X E). simpl.
    now rewrite (run_empty r Hr).
  - destruct k as [|k].
    + change ((x :: a) ++ c :: X) with (x :: a ++ c :: X).
      cbn [sub_from].
      change (x :: a ++ c :: X) with ((x :: a) ++ c :: X).
      rewrite (run_local P c X r HA Hc (x :: a)).
      destruct (run r (x :: a)) as [|[g rest] tl] eqn:E; cbn [List.map fst snd].
      * rewrite (IH O) by lia. reflexivity.
      * assert (Hin : In (g, rest) (run r (x :: a))) by (rewrite E; now left).
        pose proof (run_consumes r _ _ _ Hr Hin) as Hlen.
        rewrite !length_app. cbn [length] in Hlen |- *.
        destruct (S (length a) - length rest)%nat as [|j] eqn:Ej; [lia|].
        replace (S (length a) + S (length X) - (length rest + S (length X)))%nat
          with (S j) by lia.
        rewrite (IH j) by lia. now rewrite app_assoc.
    + simpl. simpl in Hk. apply IH. lia.
Qed.

(** [re.sub] works on the two sides of such a character separately. *)
Lemma re_sub_block (P : char -> Prop) c r tpl (a X : text) :
  nullable r = false -> alphabet P r -> ~ P c ->
  re_sub r tpl (a ++ c :: X) = re_sub r tpl a ++ c :: re_sub r tpl X.
Proof.
  intros Hr HA Hc. unfold re_sub.
  apply (sub_from_block P c r tpl X Hr HA Hc a O). lia.
Qed.

(** ** The Noise Remover *)

Section NoiseRemover.

Context (decimal_ext : char -> bool).

Local Abbreviation digit := (isdecimal decimal_ext).
Local Abbreviation noise_remover := (_remove_noise_keep_context decimal_ext).
Local Abbreviation consumable := (consumable decimal_ext).
Local Abbreviation page_consumable := (page_consumable decimal_ext).

Lemma page_number_shape (m : text) :
  matches (page_number_rule decimal_ext) m <->
  exists w1 d w2,
    m = NL :: w1 ++ d ++ w2 ++ [NL]
    /\ Forall (fun c => isspace c = true) w1
    /\ d <> [] /\ Forall (fun c => digit c = true) d
    /\ Forall (fun c => isspace c = true) w2.
Proof.
  cbv [page_number_rule Seq]. cbn [matches]. split.
  - intros (m1 & m2 & -> & H1 & m3 & m4 & -> & H3 & m5 & m6 & -> & [H5 H5']
            & m7 & m8 & -> & H7 & H8).
    apply matches_Lit in H1, H8. subst. exists m3, m5, m7. now repeat split.
  - intros (w1 & d & w2 & -> & H1 & Hd & Hd' & H2).
    exists [NL], (w1 ++ d ++ w2 ++ [NL]). split; [reflexivity|].
    split; [now apply matches_Lit|].
    exists w1, (d ++ w2 ++ [NL]). split; [reflexivity|]. split; [exact H1|].
    exists d, (w2 ++ [NL]). split; [reflexivity|]. split; [now split|].
    exists w2, [NL]. split; [reflexivity|]. split; [exact H2|].
    now apply matches_Lit.
Qed.

Lemma page_label_shape (m : text) :
  matches (page_label_rule decimal_ext) m ->
  exists mid p,
    m = NL :: mid ++ [NL] /\ In p mid /\ one_of [80; 112] p = true.
Proof.
  cbv [page_label_rule Seq either_case]. cbn [matches].
  intros (m1 & m2 & -> & H1 & m3 & m4 & -> & H3 & m5 & m6 & -> & (p & -> & Hp)
          & m7 & m8 & -> & _ & m9 & m10 & -> & _ & m11 & m12 & -> & _
          & m13 & m14 & -> & _ & m15 & m16 & -> & _ & m17 & m18 & -> & _ & H18).
  apply matches_Lit in H1, H18. subst.
  exists (m3 ++ [p] ++ m7 ++ m9 ++ m11 ++ m13 ++ m15 ++ m17), p.
  split; [|split; [|exact Hp]].
  - simpl. repeat first [rewrite <- app_assoc | rewrite <- app_comm_cons].
    reflexivity.
  - apply in_or_app. right. now left.
Qed.

Lemma blank_lines_shape (m : text) :
  matches blank_lines_rule m ->
  exists w1 tail, m = NL :: w1 ++ NL :: tail /\ In NL tail.
Proof.
  cbv [blank_lines_rule Seq]. cbn [matches].
  intros (m1 & m2 & -> & H1 & m3 & m4 & -> & _ & m5 & m6 & -> & H5
          & m7 & m8 & -> & _ & Hne & H8).
  apply matches_Lit in H1, H5. subst.
  exists m3, (m7 ++ m8). split; [reflexivity|].
  apply in_or_app. right.
  destruct m8 as [|c m8]; [contradiction|].
  inversion H8 as [|? ? Hc _]; subst. apply N.eqb_eq in Hc. subst c. now left.
Qed.

Lemma punctuation_shape (m : text) :
  matches punctuation_rule m ->
  exists w1 p w2,
    m = w1 ++ p :: w2
    /\ w1 <> [] /\ Forall (fun c => isspace c = true) w1
    /\ one_of (codes ",;:") p = true
    /\ w2 <> [] /\ Forall (fun c => isspace c = true) w2.
Proof.
  cbv [punctuation_rule Seq]. cbn [matches].
  intros (m1 & m2 & -> & [H1 H1'] & m3 & m4 & -> & (p & -> & Hp) & H4 & H4').
  exists m1, p, m4. now repeat split.
Qed.

Lemma starts_NL_page_label : starts_NL (page_label_rule decimal_ext).
Proof.
  intros m Hm. destruct (page_label_shape m Hm) as (mid & p & -> & _).
  now exists (mid ++ [NL]).
Qed.

Lemma starts_NL_page_number : starts_NL (page_number_rule decimal_ext).
Proof.
  intros m Hm. apply page_number_shape in Hm as (w1 & d & w2 & -> & _).
  now exists (w1 ++ d ++ w2 ++ [NL]).
Qed.

Lemma starts_NL_blank_lines : starts_NL blank_lines_rule.
Proof.
  intros m Hm. destruct (blank_lines_shape m Hm) as (w1 & tail & -> & _).
  now exists (w1 ++ NL :: tail).
Qed.

Ltac class_member H :=
  cbn [one_of] in H;
  repeat (apply orb_true_iff in H as [H|H]);
  try discriminate;
  apply N.eqb_eq in H; subst; reflexivity.

Lemma consumable_space c : isspace c = true -> consumable c = true.
Proof. intros H. unfold consumable. now rewrite H. Qed.

Lemma consumable_digit c : digit c = true -> consumable c = true.
Proof. intros H. unfold consumable. rewrite H. now destruct (isspace c). Qed.

Lemma consumable_NL c : (NL =? c) = true -> consumable c = true.
Proof. intros H. apply N.eqb_eq in H. now subst. Qed.

Lemma alphabet_page_label :
  alphabet (fun c => consumable c = true) (page_label_rule decimal_ext).
Proof.
  cbv [page_label_rule Seq either_case Lit]. cbn [alphabet].
  repeat split; intros c H;
    try (now apply consumable_space); try (now apply consumable_digit);
    try (now apply consumable_NL).
  - class_member H.
  - class_member H.
  - class_member H.
  - class_member H.
  - apply N.eqb_eq in H. now subst.
Qed.

Lemma alphabet_page_number :
  alphabet (fun c => consumable c = true) (page_number_rule decimal_ext).
Proof.
  cbv [page_number_rule Seq Lit]. cbn [alphabet].
  repeat split; intros c H;
    try (now apply consumable_space); try (now apply consumable_digit);
    now apply consumable_NL.
Qed.

Lemma alphabet_blank_lines :
  alphabet (fun c => consumable c = true) blank_lines_rule.
Proof.
  cbv [blank_lines_rule Seq Lit]. cbn [alphabet].
  repeat split; intros c H;
    try (now apply consumable_space); now apply consumable_NL.
Qed.

Lemma alphabet_punctuation :
  alphabet (fun c => consumable c = true) punctuation_rule.
Proof.
  cbv [punctuation_rule Seq]. cbn [alphabet].
  repeat split; intros c H; try (now apply consumable_space).
  class_member H.
Qed.

(** A pattern that consumes only [consumable] characters matches no text
    that holds a character of another kind. *)
Lemma cannot_hold r (l : text) x :
  alphabet (fun c => consumable c = true) r ->
  In x l -> consumable x = false ->
  forall m u v, matches r m -> m <> u ++ l ++ v.
Proof.
  intros HA Hx Hcx m u v Hm ->.
  pose proof (matches_alphabet _ _ _ HA Hm) as Hall.
  rewrite List.Forall_forall in Hall.
  rewrite (Hall x) in Hcx; [discriminate|].
  apply in_or_app. right. apply in_or_app. now left.
Qed.

Lemma space_edged_page_label : space_edged (page_label_rule decimal_ext).
Proof.
  intros m Hm. destruct (page_label_shape m Hm) as (mid & p & -> & _). split.
  - now exists NL, (mid ++ [NL]).
  - now exists (NL :: mid), NL.
Qed.

Lemma space_edged_page_number : space_edged (page_number_rule decimal_ext).
Proof.
  intros m Hm. apply page_number_shape in Hm as (w1 & d & w2 & -> & _). split.
  - now exists NL, (w1 ++ d ++ w2 ++ [NL]).
  - exists (NL :: w1 ++ d ++ w2), NL. split; [|reflexivity].
    simpl. now rewrite <- !app_assoc.
Qed.

Lemma space_edged_blank_lines : space_edged blank_lines_rule.
Proof.
  intros m Hm. split.
  - destruct (blank_lines_shape m Hm) as (w1 & tail & -> & _).
    now exists NL, (w1 ++ NL :: tail).
  - revert Hm. cbv [blank_lines_rule Seq]. cbn [matches].
    intros (m1 & m2 & -> & _ & m3 & m4 & -> & _ & m5 & m6 & -> & _
            & m7 & m8 & -> & _ & Hne & H8).
    destruct (exists_last Hne) as (n & z & ->).
    exists (m1 ++ m3 ++ m5 ++ m7 ++ n), z. split.
    + now rewrite <- !app_assoc.
    + apply Forall_app in H8 as [_ H8]. inversion H8 as [|? ? Hz _]; subst.
      apply N.eqb_eq in Hz. now subst z.
Qed.

Lemma space_edged_punctuation : space_edged punctuation_rule.
Proof.
  intros m Hm.
  destruct (punctuation_shape m Hm) as (w1 & p & w2 & -> & H1 & H1' & _ & H2 & H2').
  split.
  - destruct w1 as [|c w1]; [contradiction|].
    inversion H1' as [|? ? Hc _]; subst. now exists c, (w1 ++ p :: w2).
  - destruct (exists_last H2) as (n & z & ->).
    exists (w1 ++ p :: n), z. split.
    + now rewrite <- app_assoc.
    + apply Forall_app in H2' as [_ H2']. now inversion H2'.
Qed.

(** A stretch without whitespace that holds a character no pattern can
    consume is still there after the Noise Remover. *)
Lemma noise_remover_survives (l : text) x :
  Forall (fun c => isspace c = false) l ->
  In x l -> consumable x = false ->
  forall a b, exists a' b', noise_remover (a ++ l ++ b) = a' ++ l ++ b'.
Proof.
  intros Hl Hx Hcx a b.
  assert (Hne : l <> []) by (intros ->; destruct Hx).
  unfold _remove_noise_keep_context, re_sub.
  destruct (sub_from_survives (page_label_rule decimal_ext) [PText [NL]] l Hne Hl
              space_edged_page_label
              (cannot_hold _ l x alphabet_page_label Hx Hcx) a b O)
    as (a1 & ->); [lia|].
  destruct (sub_from_survives (page_number_rule decimal_ext) [PText [NL]] l Hne Hl
              space_edged_page_number
              (cannot_hold _ l x alphabet_page_number Hx Hcx) a1
              (sub_from (page_label_rule decimal_ext) [PText [NL]] O b) O)
    as (a2 & ->); [lia|].
  match goal with |- context [a2 ++ l ++ ?b2] =>
    destruct (sub_from_survives blank_lines_rule [PText [NL; NL]] l Hne Hl
                space_edged_blank_lines
                (cannot_hold _ l x alphabet_blank_lines Hx Hcx) a2 b2 O)
      as (a3 & ->); [lia|]
  end.
  match goal with |- context [a3 ++ l ++ ?b3] =>
    destruct (sub_from_survives punctuation_rule [PGroup 1; PText [SPACE]] l
                Hne Hl space_edged_punctuation
                (cannot_hold _ l x alphabet_punctuation Hx Hcx) a3 b3 O)
      as (a4 & ->); [lia|]
  end.
  apply strip_survives; assumption.
Qed.

(** *** A page-number line between two lines of text *)

Lemma needs_two_NL_page_label : needs_two_NL (page_label_rule decimal_ext).
Proof.
  intros m Hm. destruct (page_label_shape m Hm) as (mid & p & -> & _).
  now exists mid, [].
Qed.

Lemma needs_two_NL_page_number : needs_two_NL (page_number_rule decimal_ext).
Proof.
  intros m Hm. apply page_number_shape in Hm as (w1 & d & w2 & -> & _).
  exists (w1 ++ d ++ w2), []. now rewrite <- !app_assoc.
Qed.

Lemma needs_two_NL_blank_lines : needs_two_NL blank_lines_rule.
Proof.
  intros m Hm. destruct (blank_lines_shape m Hm) as (w1 & tail & -> & _).
  now exists w1, tail.
Qed.

Lemma run_nil_last_line r (post : text) :
  needs_two_NL r -> ~ In NL post -> run r (NL :: post) = [].
Proof.
  intros Hr Hpost. apply run_nil. intros m rest E Hm.
  destruct (Hr m Hm) as (a & b & ->). simpl in E. injection E as E.
  apply Hpost. rewrite E, <- app_assoc. apply in_or_app. right. now left.
Qed.

Lemma two_lines_copied r tpl (pre post : text) :
  starts_NL r -> needs_two_NL r -> ~ In NL pre -> ~ In NL post ->
  sub_from r tpl O (pre ++ NL :: post) = pre ++ NL :: post.
Proof.
  intros Hs Ht Hpre Hpost.
  rewrite (sub_from_copy_no_NL r tpl pre _ Hs Hpre).
  rewrite (sub_from_copy_one r tpl NL post (run_nil_last_line r post Ht Hpost)).
  now rewrite (sub_from_no_NL r tpl post Hs Hpost).
Qed.

Lemma three_lines_copied r tpl (pre l post : text) :
  starts_NL r -> needs_two_NL r ->
  ~ In NL pre -> ~ In NL l -> ~ In NL post ->
  run r (NL :: l ++ NL :: post) = [] ->
  sub_from r tpl O (pre ++ NL :: l ++ NL :: post) = pre ++ NL :: l ++ NL :: post.
Proof.
  intros Hs Ht Hpre Hl Hpost Hrun.
  rewrite (sub_from_copy_no_NL r tpl pre _ Hs Hpre).
  rewrite (sub_from_copy_one r tpl NL _ Hrun).
  rewrite (sub_from_copy_no_NL r tpl l _ Hs Hl).
  rewrite (sub_from_copy_one r tpl NL post (run_nil_last_line r post Ht Hpost)).
  now rewrite (sub_from_no_NL r tpl post Hs Hpost).
Qed.

Lemma blank_lines_three_lines tpl (pre l post : text) :
  ~ In NL pre -> ~ In NL l -> ~ In NL post ->
  sub_from blank_lines_rule tpl O (pre ++ NL :: l ++ NL :: post)
  = pre ++ NL :: l ++ NL :: post.
Proof.
  intros Hpre Hl Hpost.
  apply three_lines_copied; auto using starts_NL_blank_lines,
    needs_two_NL_blank_lines.
  apply run_nil. intros m rest E Hm.
  destruct (blank_lines_shape m Hm) as (w1 & tail & -> & Htail).
  simpl in E. injection E as E. rewrite <- app_assoc in E. simpl in E.
  symmetry in E. apply single_NL in E as [_ E]; [|assumption..].
  apply Hpost. rewrite <- E. apply in_or_app. now left.
Qed.

Lemma digits_no_NL (d : text) :
  Forall (fun c => digit c = true) d -> ~ In NL d.
Proof.
  intros Hd H. rewrite List.Forall_forall in Hd. specialize (Hd NL H).
  discriminate.
Qed.

Lemma page_label_skips_digits tpl (pre d post : text) :
  ~ In NL pre -> ~ In NL post -> Forall (fun c => digit c = true) d ->
  sub_from (page_label_rule decimal_ext) tpl O (pre ++ NL :: d ++ NL :: post)
  = pre ++ NL :: d ++ NL :: post.
Proof.
  intros Hpre Hpost Hd. pose proof (digits_no_NL d Hd) as HdNL.
  apply three_lines_copied; auto using starts_NL_page_label,
    needs_two_NL_page_label.
  apply run_nil. intros m rest E Hm.
  destruct (page_label_shape m Hm) as (mid & p & -> & Hp & Hpp).
  simpl in E. injection E as E. rewrite <- app_assoc in E. simpl in E.
  symmetry in E. apply single_NL in E as [-> _]; [|assumption..].
  rewrite List.Forall_forall in Hd. specialize (Hd p Hp).
  cbn [one_of] in Hpp.
  repeat (apply orb_true_iff in Hpp as [Hpp|Hpp]); try discriminate;
    apply N.eqb_eq in Hpp; subst p; discriminate.
Qed.

Lemma page_number_removes_digits (pre d post : text) :
  ~ In NL pre -> ~ In NL post ->
  d <> [] -> Forall (fun c => digit c = true) d ->
  sub_from (page_number_rule decimal_ext) [PText [NL]] O
           (pre ++ NL :: d ++ NL :: post)
  = pre ++ NL :: post.
Proof.
  intros Hpre Hpost Hne Hd. pose proof (digits_no_NL d Hd) as HdNL.
  rewrite (sub_from_copy_no_NL _ _ pre _ starts_NL_page_number Hpre).
  f_equal.
  assert (Hm0 : matches (page_number_rule decimal_ext) (NL :: d ++ [NL])).
  { apply page_number_shape. exists [], d, []. repeat split; auto. }
  destruct (run_complete _ _ post Hm0) as (g0 & Hin).
  replace ((NL :: d ++ [NL]) ++ post) with (NL :: d ++ NL :: post) in *
    by (simpl; now rewrite <- app_assoc).
  destruct (run (page_number_rule decimal_ext) (NL :: d ++ NL :: post))
    as [|[g rest] tl] eqn:E; [destruct Hin|].
  assert (Hrest : rest = post).
  { destruct (run_sound (page_number_rule decimal_ext)
                (NL :: d ++ NL :: post) g rest) as (m & Hs & Hm);
      [rewrite E; now left|].
    apply page_number_shape in Hm as (w1 & dd & w2 & -> & _).
    simpl in Hs. injection Hs as Hs.
    replace ((w1 ++ dd ++ w2 ++ [NL]) ++ rest)
      with ((w1 ++ dd ++ w2) ++ NL :: rest) in Hs
      by (now rewrite <- !app_assoc).
    symmetry in Hs. now apply single_NL in Hs as [_ ->]. }
  subst rest.
  replace (NL :: d ++ NL :: post) with ((NL :: d ++ [NL]) ++ post) in *
    by (simpl; now rewrite <- app_assoc).
  rewrite (sub_from_match (page_number_rule decimal_ext) [PText [NL]]
             (NL :: d ++ [NL]) post g tl); [|discriminate|exact E].
  simpl. now rewrite (sub_from_no_NL _ _ post starts_NL_page_number Hpost).
Qed.

(** *** A page-number line anywhere in a text *)

Lemma page_consumable_space c : isspace c = true -> page_consumable c = true.
Proof. intros H. unfold page_consumable. now rewrite H. Qed.

Lemma page_consumable_digit c : digit c = true -> page_consumable c = true.
Proof.
  intros H. unfold page_consumable. rewrite H. now destruct (isspace c).
Qed.

Lemma page_consumable_NL c : (NL =? c) = true -> page_consumable c = true.
Proof. intros H. apply N.eqb_eq in H. now subst. Qed.

Lemma page_alphabet_page_label :
  alphabet (fun c => page_consumable c = true) (page_label_rule decimal_ext).
Proof.
  cbv [page_label_rule Seq either_case Lit]. cbn [alphabet].
  repeat split; intros c H;
    try (now apply page_consumable_space);
    try (now apply page_consumable_digit);
    try (now apply page_consumable_NL).
  - class_member H.
  - class_member H.
  - class_member H.
  - class_member H.
  - apply N.eqb_eq in H. now subst.
Qed.

Lemma page_alphabet_page_number :
  alphabet (fun c => page_consumable c = true) (page_number_rule decimal_ext).
Proof.
  cbv [page_number_rule Seq Lit]. cbn [alphabet].
  repeat split; intros c H;
    try (now apply page_consumable_space);
    try (now apply page_consumable_digit);
    now apply page_consumable_NL.
Qed.

(** The two page passes work on a stretch between two characters that
    they cannot consume as if it stood alone. *)
Lemma page_pass_between r tpl (before mid after : text) c c' :
  nullable r = false ->
  alphabet (fun c => page_consumable c = true) r ->
  page_consumable c = false -> page_consumable c' = false ->
  re_sub r tpl (before ++ c :: mid ++ c' :: after)
  = re_sub r tpl before ++ c :: re_sub r tpl mid ++ c' :: re_sub r tpl after.
Proof.
  intros Hr HA Hc Hc'.
  rewrite (re_sub_block _ c r tpl before _ Hr HA)
    by (rewrite Hc; discriminate).
  rewrite (re_sub_block _ c' r tpl mid _ Hr HA)
    by (rewrite Hc'; discriminate).
  reflexivity.
Qed.

Lemma page_number_line_in_context (before pre line post after : text) c c' :
  ~ In NL pre -> ~ In NL post ->
  line <> [] -> Forall (fun c => digit c = true) line ->
  page_consumable c = false -> page_consumable c' = false ->
  noise_remover (before ++ c :: (pre ++ NL :: line ++ NL :: post) ++ c' :: after)
  = noise_remover (before ++ c :: (pre ++ NL :: post) ++ c' :: after).
Proof.
  intros Hpre Hpost Hne Hd Hc Hc'.
  assert (L3 : forall tpl,
             re_sub (page_label_rule decimal_ext) tpl
               (pre ++ NL :: line ++ NL :: post)
             = pre ++ NL :: line ++ NL :: post).
  { intros tpl. now apply page_label_skips_digits. }
  assert (L2 : forall tpl,
             re_sub (page_label_rule decimal_ext) tpl (pre ++ NL :: post)
             = pre ++ NL :: post).
  { intros tpl. apply two_lines_copied;
      auto using starts_NL_page_label, needs_two_NL_page_label. }
  assert (N3 : re_sub (page_number_rule decimal_ext) [PText [NL]]
                 (pre ++ NL :: line ++ NL :: post)
               = pre ++ NL :: post).
  { now apply page_number_removes_digits. }
  assert (N2 : forall tpl,
             re_sub (page_number_rule decimal_ext) tpl (pre ++ NL :: post)
             = pre ++ NL :: post).
  { intros tpl. apply two_lines_copied;
      auto using starts_NL_page_number, needs_two_NL_page_number. }
  unfold _remove_noise_keep_context.
  rewrite !(page_pass_between (page_label_rule decimal_ext) _ _ _ _ c c'
              eq_refl page_alphabet_page_label Hc Hc').
  rewrite L3, L2.
  rewrite !(page_pass_between (page_number_rule decimal_ext) _ _ _ _ c c'
              eq_refl page_alphabet_page_number Hc Hc').
  rewrite N3, N2. reflexivity.
Qed.

(** *** Numeric lines that are not bare integers *)

Lemma page_label_parts (m : text) :
  matches (page_label_rule decimal_ext) m ->
  exists L R,
    m = L ++ SPACE :: R
    /\ Forall (fun c => isspace c = true \/ digit c = false) L
    /\ Forall (fun c => isspace c = true \/ digit c = true) R.
Proof.
  cbv [page_label_rule Seq either_case]. cbn [matches].
  intros (m1 & m2 & -> & H1 & m3 & m4 & -> & H3 & m5 & m6 & -> & (p & -> & Hp)
          & m7 & m8 & -> & (a & -> & Ha) & m9 & m10 & -> & (g & -> & Hg)
          & m11 & m12 & -> & (e & -> & He) & m13 & m14 & -> & H13
          & m15 & m16 & -> & [_ H15] & m17 & m18 & -> & H17 & H18).
  apply matches_Lit in H1, H13, H18. subst.
  exists (NL :: m3 ++ [p; a; g; e]), (m15 ++ m17 ++ [NL]).
  split; [|split].
  - simpl. repeat first [rewrite <- app_assoc | rewrite <- app_comm_cons].
    reflexivity.
  - constructor; [now left|]. apply Forall_app. split.
    + eapply List.Forall_impl; [|exact H3]. intros c Hc. now left.
    + constructor; [right; class_member Hp|].
      constructor; [right; class_member Ha|].
      constructor; [right; class_member Hg|].
      constructor; [right; class_member He|constructor].
  - apply Forall_app. split.
    + eapply List.Forall_impl; [|exact H15]. intros c Hc. now right.
    + apply Forall_app. split.
      * eapply List.Forall_impl; [|exact H17]. intros c Hc. now left.
      * constructor; [now left|constructor].
Qed.

Section NumericLine.

Context (l : text) (x y : char).
Hypothesis l_no_space : Forall (fun c => isspace c = false) l.
Hypothesis x_in_l : In x l.
Hypothesis x_no_digit : digit x = false.
Hypothesis y_in_l : In y l.
Hypothesis y_digit : digit y = true.

Lemma numeric_no_space c : In c l -> isspace c = false.
Proof. rewrite List.Forall_forall in l_no_space. apply l_no_space. Qed.

Lemma page_label_cannot_hold_numeric (m u v : text) :
  matches (page_label_rule decimal_ext) m -> m <> u ++ l ++ v.
Proof.
  intros Hm E. destruct (page_label_parts m Hm) as (L & R & -> & HL & HR).
  rewrite List.Forall_forall in HL, HR.
  destruct (prefix_cases _ _ _ _ _ E) as [(a2 & ->)|[H|(b1 & ->)]].
  - rewrite <- app_assoc in E. apply app_inv_head in E.
    destruct a2 as [|s a2]; simpl in E.
    + assert (Hl : exists c t, l = c :: t).
      { clear E. destruct l as [|c t]; [destruct x_in_l|]. now exists c, t. }
      destruct Hl as (c & t & El). rewrite El in E. simpl in E.
      injection E as Ec _.
      assert (Hin : In SPACE l) by (rewrite El, Ec; now left).
      pose proof (numeric_no_space SPACE Hin) as Hf. discriminate Hf.
    + injection E as _ ->.
      destruct (HR x) as [H|H].
      * apply in_or_app. right. apply in_or_app. now left.
      * now rewrite (numeric_no_space x x_in_l) in H.
      * congruence.
  - destruct H as (l1 & l2 & _ & Hl2 & El & ->).
    rewrite El, <- !app_assoc in E. do 2 apply app_inv_head in E.
    destruct l2 as [|c l2]; [congruence|]. simpl in E. injection E as <- _.
    assert (Hin : In SPACE l) by (rewrite El; apply in_or_app; right; now left).
    pose proof (numeric_no_space SPACE Hin) as Hf. discriminate Hf.
  - destruct (HL y) as [H|H].
    + apply in_or_app. right. apply in_or_app. now left.
    + now rewrite (numeric_no_space y y_in_l) in H.
    + congruence.
Qed.

Lemma page_number_cannot_hold_numeric (m u v : text) :
  matches (page_number_rule decimal_ext) m -> m <> u ++ l ++ v.
Proof.
  intros Hm E.
  apply page_number_shape in Hm as (w1 & d & w2 & -> & H1 & _ & Hd & H2).
  assert (Hx' : In x (NL :: w1 ++ d ++ w2 ++ [NL])).
  { rewrite E. apply in_or_app. right. apply in_or_app. now left. }
  rewrite List.Forall_forall in H1, Hd, H2.
  destruct Hx' as [Ex|Hx'].
  { pose proof (numeric_no_space x x_in_l) as Hf. rewrite <- Ex in Hf.
    discriminate Hf. }
  apply in_app_or in Hx' as [Hx'|Hx'].
  { apply H1 in Hx'. now rewrite (numeric_no_space x x_in_l) in Hx'. }
  apply in_app_or in Hx' as [Hx'|Hx'].
  { apply Hd in Hx'. congruence. }
  apply in_app_or in Hx' as [Hx'|[Ex|[]]].
  - apply H2 in Hx'. now rewrite (numeric_no_space x x_in_l) in Hx'.
  - pose proof (numeric_no_space x x_in_l) as Hf. rewrite <- Ex in Hf.
    discriminate Hf.
Qed.

Lemma blank_lines_cannot_hold_numeric (m u v : text) :
  matches blank_lines_rule m -> m <> u ++ l ++ v.
Proof.
  intros Hm E.
  assert (HA : alphabet (fun c => isspace c = true) blank_lines_rule).
  { cbv [blank_lines_rule Seq Lit]. cbn [alphabet].
    repeat split; intros c H; try exact H; apply N.eqb_eq in H; now subst. }
  pose proof (matches_alphabet _ _ _ HA Hm) as Hall.
  rewrite List.Forall_forall in Hall.
  pose proof (numeric_no_space x x_in_l) as Hs.
  rewrite (Hall x) in Hs; [discriminate|].
  rewrite E. apply in_or_app. right. apply in_or_app. now left.
Qed.

Lemma punctuation_cannot_hold_numeric (m u v : text) :
  matches punctuation_rule m -> m <> u ++ l ++ v.
Proof.
  intros Hm E.
  destruct (punctuation_shape m Hm) as (w1 & p & w2 & -> & _ & H1 & Hp & _ & H2).
  assert (Hy : In y (w1 ++ p :: w2)).
  { rewrite E. apply in_or_app. right. apply in_or_app. now left. }
  rewrite List.Forall_forall in H1, H2.
  apply in_app_or in Hy as [Hy|[<-|Hy]].
  - apply H1 in Hy. now rewrite (numeric_no_space y y_in_l) in Hy.
  - assert (Hd : digit p = false) by class_member Hp. congruence.
  - apply H2 in Hy. now rewrite (numeric_no_space y y_in_l) in Hy.
Qed.

(** A line without whitespace that holds a decimal digit and a character
    that is not one is still there after the Noise Remover. *)
Lemma numeric_line_survives (a b : text) :
  exists a' b', noise_remover (a ++ l ++ b) = a' ++ l ++ b'.
Proof.
  assert (Hne : l <> []) by (intros E; rewrite E in x_in_l; destruct x_in_l).
  unfold _remove_noise_keep_context, re_sub.
  destruct (sub_from_survives (page_label_rule decimal_ext) [PText [NL]] l Hne
              l_no_space (space_edged_page_label)
              (fun m u v => page_label_cannot_hold_numeric m u v) a b O)
    as (a1 & ->); [lia|].
  destruct (sub_from_survives (page_number_rule decimal_ext) [PText [NL]] l Hne
              l_no_space (space_edged_page_number)
              (fun m u v => page_number_cannot_hold_numeric m u v) a1
              (sub_from (page_label_rule decimal_ext) [PText [NL]] O b) O)
    as (a2 & ->); [lia|].
  match goal with |- context [a2 ++ l ++ ?b2] =>
    destruct (sub_from_survives blank_lines_rule [PText [NL; NL]] l Hne
                l_no_space space_edged_blank_lines
                (fun m u v => blank_lines_cannot_hold_numeric m u v) a2 b2 O)
      as (a3 & ->); [lia|]
  end.
  match goal with |- context [a3 ++ l ++ ?b3] =>
    destruct (sub_from_survives punctuation_rule [PGroup 1; PText [SPACE]] l
                Hne l_no_space space_edged_punctuation
                (fun m u v => punctuation_cannot_hold_numeric m u v) a3 b3 O)
      as (a4 & ->); [lia|]
  end.
  apply strip_survives; assumption.
Qed.

End NumericLine.



End NoiseRemover.



(** ** The batch processor *)

Lemma parser_state_distinct self st d m :
  parser_state self st d m -> processing_stats self <> source_mapping d.
Proof.
  intros [H1 H2 _ _] E. rewrite E in H1. rewrite H1 in H2. discriminate.
Qed.

Lemma init_fresh (w : world) :
  __init__ w boot = Some (fresh_parser, fresh_machine).
Proof. reflexivity. Qed.

Lemma fresh_parser_state :
  parser_state fresh_parser fresh_machine fresh_stats ∅.
Proof.
  split; simpl.
  - apply lookup_insert_eq.
  - rewrite lookup_insert_ne by discriminate. apply lookup_insert_eq.
  - reflexivity.
  - reflexivity.
Qed.

Lemma update_stats_spec self st d m f :
  parser_state self st d m ->
  source_mapping (f d) = source_mapping d ->
  exists st',
    update_stats (processing_stats self) f st = Some (tt, st')
    /\ parser_state self st' (f d) m
    /\ clock st' = clock st
    /\ next_loc st' = next_loc st.
Proof.
  intros Hps Hf. pose proof (parser_state_distinct _ _ _ _ Hps) as Hne.
  destruct Hps as [H1 H2 H3 H4].
  unfold update_stats, bind, read_stats, write. rewrite H1.
  eexists. split; [reflexivity|]. split; [|split; reflexivity].
  split; simpl.
  - apply lookup_insert_eq.
  - rewrite Hf. rewrite lookup_insert_ne by exact Hne. exact H2.
  - exact H3.
  - rewrite Hf. exact H4.
Qed.

Lemma mapping_setitem_spec self st d m key value :
  parser_state self st d m ->
  exists st',
    mapping_setitem (source_mapping d) key value st = Some (tt, st')
    /\ parser_state self st' d (<[key := value]> m)
    /\ clock st' = clock st
    /\ next_loc st' = next_loc st.
Proof.
  intros Hps. pose proof (parser_state_distinct _ _ _ _ Hps) as Hne.
  destruct Hps as [H1 H2 H3 H4].
  unfold mapping_setitem, bind, read_mapping, write. rewrite H2.
  eexists. split; [reflexivity|]. split; [|split; reflexivity].
  split; simpl.
  - rewrite lookup_insert_ne by congruence. exact H1.
  - apply lookup_insert_eq.
  - exact H3.
  - exact H4.
Qed.

Section BatchProperties.

Context (decimal_ext alnum_ext : char -> bool).
Context (w : world).

Local Abbreviation clean :=
  (_clean_text_for_numerical_extraction decimal_ext alnum_ext).
Local Abbreviation batch := (process_multiple_pdfs decimal_ext alnum_ext w).
Local Abbreviation document_of := (document_of decimal_ext alnum_ext).
Local Abbreviation produced := (produced decimal_ext alnum_ext w).
Local Abbreviation tally := (tally decimal_ext alnum_ext w).
Local Abbreviation mapped := (mapped w).

Lemma process_one_success self st d m cfg raw docs :
  parser_state self st d m ->
  _extract_text_from_pdf w (cfg_path cfg) = Return raw ->
  exists st',
    process_one decimal_ext alnum_ext w self cfg docs st
    = Some (docs ++ [document_of cfg raw (now w (clock st))], st')
    /\ parser_state self st'
         (add_text_length (len (clean raw)) (add_success d))
         (<[cfg_source_id cfg := cfg_source_label cfg]> m)
    /\ clock st' = S (clock st).
Proof.
  intros Hps Hx. unfold process_one. rewrite Hx.
  unfold bind at 1. unfold read_clock at 1.
  set (st1 := {| objects := objects st; next_loc := next_loc st;
                 clock := S (clock st) |}).
  assert (Hps1 : parser_state self st1 d m) by (destruct Hps; now split).
  destruct (update_stats_spec self st1 d m add_success Hps1 eq_refl)
    as (st2 & E2 & Hps2 & Hc2 & _).
  unfold bind at 1. rewrite E2.
  destruct (update_stats_spec self st2 _ m
              (add_text_length (len (clean raw))) Hps2 eq_refl)
    as (st3 & E3 & Hps3 & Hc3 & _).
  unfold bind at 1. rewrite E3.
  unfold bind at 1. unfold read_stats at 1. rewrite (ps_stats _ _ _ _ Hps3).
  destruct (mapping_setitem_spec self st3 _ m (cfg_source_id cfg)
              (cfg_source_label cfg) Hps3)
    as (st4 & E4 & Hps4 & Hc4 & _).
  unfold bind at 1. simpl source_mapping in *. rewrite E4.
  exists st4. split; [reflexivity|]. split; [exact Hps4|].
  rewrite Hc4, Hc3, Hc2. reflexivity.
Qed.

Lemma process_one_failure self st d m cfg e docs :
  parser_state self st d m ->
  _extract_text_from_pdf w (cfg_path cfg) = Raise e ->
  exists st',
    process_one decimal_ext alnum_ext w self cfg docs st = Some (docs, st')
    /\ parser_state self st' (add_failure d) m
    /\ clock st' = clock st.
Proof.
  intros Hps Hx. unfold process_one. rewrite Hx.
  destruct (update_stats_spec self st d m add_failure Hps eq_refl)
    as (st1 & E1 & Hps1 & Hc1 & _).
  unfold bind. rewrite E1. exists st1.
  split; [reflexivity|]. split; assumption.
Qed.

Lemma extract_missing path :
  path_exists w path = false ->
  _extract_text_from_pdf w path = Raise (FileNotFoundError path).
Proof. intros H. unfold _extract_text_from_pdf. now rewrite H. Qed.

Lemma process_all_spec self cfgs : forall st d m docs,
  parser_state self st d m ->
  exists st',
    process_all decimal_ext alnum_ext w self cfgs docs st
    = Some (docs ++ produced cfgs (clock st), st')
    /\ parser_state self st' (tally cfgs d) (mapped cfgs m)
    /\ clock st' = (clock st + length (produced cfgs (clock st)))%nat.
Proof.
  induction cfgs as [|cfg cfgs IH]; intros st d m docs Hps.
  - exists st. simpl. rewrite app_nil_r. split; [reflexivity|].
    split; [exact Hps|lia].
  - simpl. unfold bind at 1.
    destruct (_extract_text_from_pdf w (cfg_path cfg)) as [raw|e] eqn:Hx.
    + destruct (process_one_success self st d m cfg raw docs Hps Hx)
        as (st1 & E1 & Hps1 & Hc1).
      rewrite E1.
      destruct (IH st1 _ _ (docs ++ [document_of cfg raw (now w (clock st))])
                  Hps1) as (st2 & E2 & Hps2 & Hc2).
      exists st2. rewrite E2, Hc1, <- app_assoc. split; [reflexivity|].
      split; [exact Hps2|]. rewrite Hc2, Hc1. simpl. lia.
    + destruct (process_one_failure self st d m cfg e docs Hps Hx)
        as (st1 & E1 & Hps1 & Hc1).
      rewrite E1.
      destruct (IH st1 _ _ docs Hps1) as (st2 & E2 & Hps2 & Hc2).
      exists st2. rewrite E2, Hc1. split; [reflexivity|].
      split; [exact Hps2|]. rewrite Hc2, Hc1. reflexivity.
Qed.

(** The batch operation always returns: it yields the documents of the
    requests that succeeded, in order, and leaves the tallied statistics
    with [total_documents] set to the number of requests. *)
Lemma process_multiple_pdfs_spec self cfgs st d m :
  parser_state self st d m ->
  exists st',
    batch self cfgs st = Some (produced cfgs (clock st), st')
    /\ parser_state self st'
         (set_total_documents (Z.of_nat (length cfgs)) (tally cfgs d))
         (mapped cfgs m)
    /\ clock st' = (clock st + length (produced cfgs (clock st)))%nat.
Proof.
  intros Hps. unfold process_multiple_pdfs. unfold bind at 1.
  destruct (process_all_spec self cfgs st d m [] Hps) as (st1 & E1 & Hps1 & Hc1).
  rewrite E1. simpl app.
  destruct (update_stats_spec self st1 _ _
              (set_total_documents (Z.of_nat (length cfgs))) Hps1 eq_refl)
    as (st2 & E2 & Hps2 & Hc2 & _).
  unfold bind. rewrite E2. exists st2. split; [reflexivity|].
  split; [exact Hps2|]. now rewrite Hc2.
Qed.

(** C5: on a fresh processor, a batch of three requests whose second path
    does not exist returns the documents of the first and the third
    request, in that order, and leaves two successes, one failure and
    three documents in the statistics. *)
Theorem batch_skips_failed_request (c1 c2 c3 : config) (raw1 raw3 : text) :
  _extract_text_from_pdf w (cfg_path c1) = Return raw1 ->
  path_exists w (cfg_path c2) = false ->
  _extract_text_from_pdf w (cfg_path c3) = Return raw3 ->
  __init__ w boot = Some (fresh_parser, fresh_machine)
  /\ exists st1 d m,
       batch fresh_parser [c1; c2; c3] fresh_machine
       = Some ([document_of c1 raw1 (now w 1); document_of c3 raw3 (now w 2)],
               st1)
       /\ parser_state fresh_parser st1 d m
       /\ successful_extractions d = 2%Z
       /\ failed_extractions d = 1%Z
       /\ total_documents d = 3%Z
       /\ total_text_length d = (len (clean raw1) + len (clean raw3))%Z
       /\ m = <[cfg_source_id c3 := cfg_source_label c3]>
                (<[cfg_source_id c1 := cfg_source_label c1]> ∅).
Proof.
  intros H1 H2 H3. apply extract_missing in H2.
  split; [apply init_fresh|].
  destruct (process_multiple_pdfs_spec fresh_parser [c1; c2; c3] fresh_machine
              _ _ fresh_parser_state) as (st1 & E & Hps1 & _).
  simpl in E, Hps1. rewrite H1, H2, H3 in E. rewrite H1, H2, H3 in Hps1.
  exists st1. eexists _, _. split; [exact E|]. split; [exact Hps1|].
  now repeat split.
Qed.

(** C6: two batch calls on one processor, one successful document each:
    the successes and the text length add up over both calls, and
    [total_documents] is 1 after each call. *)
Theorem statistics_accumulate_across_calls (c1 c2 : config) (raw1 raw2 : text) :
  _extract_text_from_pdf w (cfg_path c1) = Return raw1 ->
  _extract_text_from_pdf w (cfg_path c2) = Return raw2 ->
  __init__ w boot = Some (fresh_parser, fresh_machine)
  /\ exists docs1 st1 d1 m1 docs2 st2 d2 m2,
       batch fresh_parser [c1] fresh_machine = Some (docs1, st1)
       /\ parser_state fresh_parser st1 d1 m1
       /\ total_documents d1 = 1%Z
       /\ successful_extractions d1 = 1%Z
       /\ total_text_length d1 = len (clean raw1)
       /\ batch fresh_parser [c2] st1 = Some (docs2, st2)
       /\ parser_state fresh_parser st2 d2 m2
       /\ total_documents d2 = 1%Z
       /\ successful_extractions d2 = 2%Z
       /\ total_text_length d2 = (len (clean raw1) + len (clean raw2))%Z.
Proof.
  intros H1 H2. split; [apply init_fresh|].
  destruct (process_multiple_pdfs_spec fresh_parser [c1] fresh_machine
              _ _ fresh_parser_state) as (st1 & E1 & Hps1 & _).
  destruct (process_multiple_pdfs_spec fresh_parser [c2] st1 _ _ Hps1)
    as (st2 & E2 & Hps2 & _).
  simpl in E1, Hps1, E2, Hps2.
  rewrite H1 in E1, Hps1, Hps2. rewrite H2 in E2, Hps2.
  eexists _, st1, _, _, _, st2, _, _.
  split; [exact E1|]. split; [exact Hps1|].
  split; [reflexivity|]. split; [reflexivity|]. split; [reflexivity|].
  split; [exact E2|]. split; [exact Hps2|]. now repeat split.
Qed.

End BatchProperties.

(** ** The statistics snapshot *)

Lemma get_processing_statistics_spec self st d m :
  parser_state self st d m ->
  exists st',
    get_processing_statistics self st = Some (next_loc st, st')
    /\ parser_state self st' d m
    /\ objects st' !! next_loc st = Some (Stats d)
    /\ clock st' = clock st.
Proof.
  intros [H1 H2 H3 H4].
  unfold get_processing_statistics, bind, read_stats, alloc. rewrite H1.
  eexists. split; [reflexivity|]. split; [|split; [|reflexivity]].
  - split; simpl.
    + rewrite lookup_insert_ne by lia. exact H1.
    + rewrite lookup_insert_ne by lia. exact H2.
    + lia.
    + lia.
  - simpl. apply lookup_insert_eq.
Qed.

(** C9: the snapshot is a shallow copy.  Taking it changes nothing of the
    processor, and so does any change of the snapshot at its top level;
    but its ['source_mapping'] entry is the processor's own dictionary: an
    entry set through the snapshot is set in the processor's statistics. *)
Theorem snapshot_shares_source_mapping self st d m (key value : text)
    (f : stats_dict -> stats_dict) :
  parser_state self st d m ->
  exists snap st1,
    get_processing_statistics self st = Some (snap, st1)
    /\ parser_state self st1 d m
    /\ (exists st2, snapshot_update snap f st1 = Some (tt, st2)
                    /\ parser_state self st2 d m)
    /\ (exists st2, snapshot_mapping_setitem snap key value st1 = Some (tt, st2)
                    /\ parser_state self st2 d (<[key := value]> m)).
Proof.
  intros Hps.
  destruct (get_processing_statistics_spec self st d m Hps)
    as (st1 & E1 & Hps1 & Hsnap & _).
  exists (next_loc st), st1. split; [exact E1|]. split; [exact Hps1|].
  assert (Hne : next_loc st <> processing_stats self)
    by (destruct Hps; lia).
  assert (Hne' : next_loc st <> source_mapping d)
    by (destruct Hps; lia).
  split.
  - unfold snapshot_update, update_stats, bind, read_stats, write.
    rewrite Hsnap. eexists. split; [reflexivity|].
    destruct Hps1 as [H1 H2 H3 H4]. split; simpl.
    + rewrite lookup_insert_ne by exact Hne. exact H1.
    + rewrite lookup_insert_ne by exact Hne'. exact H2.
    + exact H3.
    + exact H4.
  - unfold snapshot_mapping_setitem, bind at 1. unfold read_stats at 1.
    rewrite Hsnap.
    destruct (mapping_setitem_spec self st1 d m key value Hps1)
      as (st2 & E2 & Hps2 & _).
    exists st2. split; [exact E2|exact Hps2].
Qed.

(** ** Concrete runs *)

Lemma batch_skips_failed_request_witness :
  __init__ sample_world boot = Some (fresh_parser, fresh_machine)
  /\ exists st1 d m,
       process_multiple_pdfs no_ext no_ext sample_world fresh_parser
         [sample_config "a.pdf" "SRC_001" "Source One";
          sample_config "missing.pdf" "SRC_002" "Source Two";
          sample_config "c.pdf" "SRC_003" "Source Three"] fresh_machine
       = Some ([document_of no_ext no_ext
                  (sample_config "a.pdf" "SRC_001" "Source One")
                  sample_raw (now sample_world 1);
                document_of no_ext no_ext
                  (sample_config "c.pdf" "SRC_003" "Source Three")
                  sample_raw (now sample_world 2)],
               st1)
       /\ parser_state fresh_parser st1 d m
       /\ successful_extractions d = 2%Z
       /\ failed_extractions d = 1%Z
       /\ total_documents d = 3%Z
       /\ total_text_length d
          = (len (_clean_text_for_numerical_extraction no_ext no_ext sample_raw)
             + len (_clean_text_for_numerical_extraction no_ext no_ext
                      sample_raw))%Z
       /\ m = <[codes "SRC_003" := codes "Source Three"]>
                (<[codes "SRC_001" := codes "Source One"]> ∅).
Proof.
  apply (batch_skips_failed_request no_ext no_ext sample_world
           (sample_config "a.pdf" "SRC_001" "Source One")
           (sample_config "missing.pdf" "SRC_002" "Source Two")
           (sample_config "c.pdf" "SRC_003" "Source Three")
           sample_raw sample_raw);
    vm_compute; reflexivity.
Defined.

Lemma statistics_accumulate_witness :
  __init__ sample_world boot = Some (fresh_parser, fresh_machine)
  /\ exists docs1 st1 d1 m1 docs2 st2 d2 m2,
       process_multiple_pdfs no_ext no_ext sample_world fresh_parser
         [sample_config "a.pdf" "SRC_001" "Source One"] fresh_machine
       = Some (docs1, st1)
       /\ parser_state fresh_parser st1 d1 m1
       /\ total_documents d1 = 1%Z
       /\ successful_extractions d1 = 1%Z
       /\ total_text_length d1
          = len (_clean_text_for_numerical_extraction no_ext no_ext sample_raw)
       /\ process_multiple_pdfs no_ext no_ext sample_world fresh_parser
            [sample_config "c.pdf" "SRC_003" "Source Three"] st1
          = Some (docs2, st2)
       /\ parser_state fresh_parser st2 d2 m2
       /\ total_documents d2 = 1%Z
       /\ successful_extractions d2 = 2%Z
       /\ total_text_length d2
          = (len (_clean_text_for_numerical_extraction no_ext no_ext sample_raw)
             + len (_clean_text_for_numerical_extraction no_ext no_ext
                      sample_raw))%Z.
Proof.
  apply (statistics_accumulate_across_calls no_ext no_ext sample_world
           (sample_config "a.pdf" "SRC_001" "Source One")
           (sample_config "c.pdf" "SRC_003" "Source Three")
           sample_raw sample_raw);
    vm_compute; reflexivity.
Defined.

(** On a processor just built: the snapshot is taken, an entry is set
    through it, and the processor's own [source_mapping], empty before,
    holds the entry. *)
Lemma snapshot_shares_source_mapping_witness :
  parser_state fresh_parser fresh_machine fresh_stats ∅
  /\ exists snap st1 st2,
       get_processing_statistics fresh_parser fresh_machine = Some (snap, st1)
       /\ snapshot_mapping_setitem snap (codes "SRC_X") (codes "Injected") st1
          = Some (tt, st2)
       /\ parser_state fresh_parser st2 fresh_stats
            (<[codes "SRC_X" := codes "Injected"]> ∅).
Proof.
  split; [exact fresh_parser_state|].
  destruct (snapshot_shares_source_mapping fresh_parser fresh_machine
              fresh_stats ∅ (codes "SRC_X") (codes "Injected") (fun d => d)
              fresh_parser_state)
    as (snap & st1 & E1 & _ & _ & st2 & E2 & H2).
  exists snap, st1, st2. auto.
Defined.

(** * Further properties of the passes and of the processor *)

(** ** Line-Break Repair needs a digit and a newline *)

(** A pattern whose every match holds a character of some kind leaves a
    text without such a character as it is. *)
Lemma re_sub_lacking (P : char -> Prop) r tpl (s : text) :
  (forall m, matches r m -> exists c, In c m /\ P c) ->
  (forall c, In c s -> ~ P c) ->
  re_sub r tpl s = s.
Proof.
  intros Hr Hs. unfold re_sub. rewrite <- (app_nil_r s) at 1.
  rewrite sub_from_copy.
  - simpl. rewrite run_nil; [now rewrite app_nil_r|].
    intros m rest E Hm. destruct (Hr m Hm) as (c & Hc & _).
    symmetry in E. apply app_eq_nil in E as [-> _]. destruct Hc.
  - intros a1 a2 -> Hne. apply run_nil. intros m rest E Hm.
    destruct (Hr m Hm) as (c & Hc & HP). apply (Hs c); [|exact HP].
    apply in_or_app. right. rewrite app_nil_r in E. rewrite E.
    apply in_or_app. now left.
Qed.

Section LineBreakRepair.

Context (decimal_ext : char -> bool).

Local Abbreviation digit := (isdecimal decimal_ext).
Local Abbreviation repair_shaped := (repair_shaped decimal_ext).
Local Abbreviation line_break_repair := (_fix_numerical_line_breaks decimal_ext).

Lemma number_head (m : text) :
  matches (number decimal_ext) m -> exists c t, m = c :: t /\ digit c = true.
Proof.
  cbv [number Seq]. cbn [matches].
  intros (m1 & m2 & -> & (Hne & Hd) & _).
  destruct m1 as [|c m1]; [congruence|].
  exists c, (m1 ++ m2). split; [reflexivity|]. now inversion Hd.
Qed.

Lemma line_break_holds_NL (m : text) : matches line_break m -> In NL m.
Proof.
  cbv [line_break Seq]. cbn [matches].
  intros (m1 & m2 & -> & _ & m3 & m4 & -> & H & _).
  apply matches_Lit in H as ->.
  apply in_or_app. right. now left.
Qed.

Lemma repair_shaped_intro (r1 r2 : regex) :
  (forall m, matches r1 m -> exists c t, m = c :: t /\ digit c = true) ->
  repair_shaped (Cat r1 (Cat line_break r2)).
Proof.
  intros H1 m. cbn [matches].
  intros (m1 & m' & -> & Hm1 & m2 & m3 & -> & Hm2 & _).
  split.
  - destruct (H1 m1 Hm1) as (c & t & -> & Hc).
    now exists c, (t ++ m2 ++ m3).
  - apply in_or_app. right. apply in_or_app. left.
    now apply line_break_holds_NL.
Qed.

Lemma repair_shaped_percent : repair_shaped (percent_rule decimal_ext).
Proof. apply repair_shaped_intro. cbn [matches]. apply number_head. Qed.

Lemma repair_shaped_scientific : repair_shaped (scientific_rule decimal_ext).
Proof.
  apply repair_shaped_intro. cbn [matches].
  intros m (m1 & m2 & -> & H & _).
  destruct (number_head m1 H) as (c & t & -> & Hc).
  now exists c, (t ++ m2).
Qed.

Lemma repair_shaped_range : repair_shaped (range_rule decimal_ext).
Proof. apply repair_shaped_intro. cbn [matches]. apply number_head. Qed.

Lemma repair_shaped_error : repair_shaped (error_rule decimal_ext).
Proof. apply repair_shaped_intro. cbn [matches]. apply number_head. Qed.

Lemma repair_shaped_unit : repair_shaped (unit_rule decimal_ext).
Proof. apply repair_shaped_intro. cbn [matches]. apply number_head. Qed.

Lemma repair_shaped_no_NL r tpl (s : text) :
  repair_shaped r -> ~ In NL s -> re_sub r tpl s = s.
Proof.
  intros Hr Hs. apply (re_sub_lacking (eq NL)).
  - intros m Hm. exists NL. split; [apply (Hr m Hm)|reflexivity].
  - intros c Hc <-. exact (Hs Hc).
Qed.

Lemma repair_shaped_no_digit r tpl (s : text) :
  repair_shaped r -> Forall (fun c => digit c = false) s -> re_sub r tpl s = s.
Proof.
  intros Hr Hs. apply (re_sub_lacking (fun c => digit c = true)).
  - intros m Hm. destruct (Hr m Hm) as [(c & t & -> & Hc) _].
    exists c. split; [now left|exact Hc].
  - intros c Hc Hd. rewrite List.Forall_forall in Hs.
    rewrite (Hs c Hc) in Hd. discriminate.
Qed.

(** X1: Line-Break Repair changes nothing in a text of one line: each of
    its five patterns needs a newline. *)
Theorem line_break_repair_needs_newline (s : text) :
  ~ In NL s -> line_break_repair s = s.
Proof.
  intros Hs. unfold _fix_numerical_line_breaks.
  rewrite (repair_shaped_no_NL _ _ s repair_shaped_percent Hs).
  rewrite (repair_shaped_no_NL _ _ s repair_shaped_scientific Hs).
  rewrite (repair_shaped_no_NL _ _ s repair_shaped_range Hs).
  rewrite (repair_shaped_no_NL _ _ s repair_shaped_error Hs).
  exact (repair_shaped_no_NL _ _ s repair_shaped_unit Hs).
Qed.

(** X2: Line-Break Repair changes nothing in a text without a decimal
    digit: each of its five patterns begins with one. *)
Theorem line_break_repair_needs_digit (s : text) :
  Forall (fun c => isdecimal decimal_ext c = false) s ->
  line_break_repair s = s.
Proof.
  intros Hs. unfold _fix_numerical_line_breaks.
  rewrite (repair_shaped_no_digit _ _ s repair_shaped_percent Hs).
  rewrite (repair_shaped_no_digit _ _ s repair_shaped_scientific Hs).
  rewrite (repair_shaped_no_digit _ _ s repair_shaped_range Hs).
  rewrite (repair_shaped_no_digit _ _ s repair_shaped_error Hs).
  exact (repair_shaped_no_digit _ _ s repair_shaped_unit Hs).
Qed.

End LineBreakRepair.

(** ** Reasoning about [re.sub] match by match *)

(** A property [Q] of a text and its substitution holds when it is kept
    by the two moves of [re.sub]: copying a character at which the pattern
    does not match, and replacing the first match at a position. *)
Lemma re_sub_ind r tpl (Q : text -> text -> Prop) :
  nullable r = false ->
  Q [] [] ->
  (forall c s out, run r (c :: s) = [] -> Q s out -> Q (c :: s) (c :: out)) ->
  (forall m rest g tl out,
     m <> [] -> matches r m -> run r (m ++ rest) = (g, rest) :: tl ->
     Q rest out -> Q (m ++ rest) (expand tpl g ++ out)) ->
  forall s, Q s (re_sub r tpl s).
Proof.
  intros Hr Hnil Hcopy Hmatch s. unfold re_sub.
  remember (length s) as n eqn:Hn. revert s Hn.
  induction n as [n IH] using lt_wf_ind. intros s Hn.
  destruct s as [|c s].
  - simpl. now rewrite (run_empty r Hr).
  - destruct (run r (c :: s)) as [|[g rest] tl] eqn:E.
    + rewrite (sub_from_copy_one r tpl c s E).
      apply Hcopy; [exact E|]. apply (IH (length s)); [|reflexivity].
      subst n. simpl. lia.
    + assert (Hin : In (g, rest) (run r (c :: s))) by (rewrite E; now left).
      destruct (run_sound r _ _ _ Hin) as (m & Es & Hm).
      pose proof (matches_not_nullable r m Hr Hm) as Hne.
      pose proof (run_consumes r _ _ _ Hr Hin) as Hlen.
      rewrite Es in E |- *.
      rewrite (sub_from_match r tpl m rest g tl Hne E).
      apply (Hmatch m rest g tl); [exact Hne|exact Hm|exact E|].
      apply (IH (length rest)); [|reflexivity]. subst n. exact Hlen.
Qed.

(** ** Trimmed texts *)

Lemma lstrip_snoc (a : text) c :
  isspace c = false -> lstrip (a ++ [c]) = lstrip a ++ [c].
Proof.
  intros Hc. induction a as [|x a IH]; simpl.
  - now rewrite Hc.
  - destruct (isspace x); [exact IH|reflexivity].
Qed.

Lemma rstrip_cons c (t : text) :
  isspace c = false -> rstrip (c :: t) = c :: rstrip t.
Proof.
  intros Hc. unfold rstrip. simpl.
  rewrite (lstrip_snoc _ c Hc), rev_app_distr. reflexivity.
Qed.

Lemma lstrip_fixed (s : text) :
  (forall c t, s = c :: t -> isspace c = false) -> lstrip s = s.
Proof.
  intros H. destruct s as [|c t]; [reflexivity|].
  simpl. now rewrite (H c t eq_refl).
Qed.

Lemma rstrip_fixed (s : text) :
  (forall t c, s = t ++ [c] -> isspace c = false) -> rstrip s = s.
Proof.
  intros H. unfold rstrip. rewrite lstrip_fixed; [apply rev_involutive|].
  intros c t E. apply (H (rev t) c).
  rewrite <- (rev_involutive s), E. reflexivity.
Qed.

Lemma strip_head (s : text) c t : strip s = c :: t -> isspace c = false.
Proof.
  unfold strip. destruct (lstrip s) as [|x u] eqn:E.
  - discriminate.
  - pose proof (lstrip_head s x u E) as Hx.
    rewrite (rstrip_cons x u Hx). intros H. injection H as <- _. exact Hx.
Qed.

Lemma strip_fixed (s : text) :
  (forall c t, s = c :: t -> isspace c = false) ->
  (forall t c, s = t ++ [c] -> isspace c = false) ->
  strip s = s.
Proof.
  intros H1 H2. unfold strip. rewrite (lstrip_fixed s H1).
  exact (rstrip_fixed s H2).
Qed.

Lemma strip_strip (s : text) : strip (strip s) = strip s.
Proof.
  apply strip_fixed.
  - intros c t. apply strip_head.
  - intros t c. apply strip_last.
Qed.

Lemma strip_no_NL (s : text) : ~ In NL s -> ~ In NL (strip s).
Proof. intros H Hin. apply H. now apply strip_incl. Qed.

(** ** The Whitespace Normalizer, continued *)

(** The three shapes of a fragment. *)
Lemma fragment_cases (raw_line : text) (following : list text) :
  fragment raw_line following = []
  \/ (strip raw_line <> [] /\ fragment raw_line following = strip raw_line)
  \/ (strip raw_line <> []
      /\ fragment raw_line following = strip raw_line ++ [SPACE]
      /\ exists next rest, following = next :: rest /\ strip next <> []).
Proof.
  unfold fragment. destruct (strip raw_line) as [|c line] eqn:E; simpl.
  - now left.
  - right. destruct following as [|next rest]; simpl.
    + left. split; [discriminate|reflexivity].
    + destruct (strip next) as [|x u] eqn:En; simpl.
      * rewrite andb_false_r. left. split; [discriminate|reflexivity].
      * rewrite !andb_true_r.
        destruct (ends_sentence (c :: line)).
        -- left. split; [discriminate|reflexivity].
        -- right. split; [discriminate|]. split; [reflexivity|].
           exists next, rest. split; [reflexivity|]. rewrite En. discriminate.
Qed.

Lemma fragment_nonempty (next : text) (rest : list text) :
  strip next <> [] -> fragment next rest <> [].
Proof.
  intros Hne. unfold fragment.
  destruct (strip next) as [|c line]; [congruence|]. simpl.
  destruct (_ && _ && _); [discriminate|].
  destruct (_ && _); discriminate.
Qed.

Lemma fragment_head (raw_line : text) (following : list text) c t :
  fragment raw_line following = c :: t -> isspace c = false.
Proof.
  destruct (fragment_cases raw_line following) as [E|[[_ E]|(Hne & E & _)]];
    rewrite E.
  - discriminate.
  - apply strip_head.
  - destruct (strip raw_line) as [|x u] eqn:Es; [congruence|].
    simpl. intros H. injection H as <- _. exact (strip_head _ _ _ Es).
Qed.

Lemma joined_head (lines : list text) c t :
  join (cleaned_lines lines) = c :: t -> isspace c = false.
Proof.
  unfold join. induction lines as [|l following IH]; simpl; [discriminate|].
  destruct (fragment l following) as [|x u] eqn:E; simpl.
  - exact IH.
  - intros H. injection H as <- _. exact (fragment_head _ _ _ _ E).
Qed.

Lemma joined_last (lines : list text) t c :
  join (cleaned_lines lines) = t ++ [c] -> isspace c = false.
Proof.
  unfold join. revert t. induction lines as [|l following IH]; intros t; simpl.
  - now destruct t.
  - destruct (concat (cleaned_lines following)) as [|y J] eqn:EJ.
    + rewrite app_nil_r.
      destruct (fragment_cases l following)
        as [E|[[_ E]|(_ & E & next & rest & -> & Hnext)]]; rewrite E.
      * now destruct t.
      * apply strip_last.
      * exfalso. simpl in EJ. apply app_eq_nil in EJ as [EJ _].
        exact (fragment_nonempty next rest Hnext EJ).
    + intros H.
      destruct (exists_last (l := y :: J)) as (J' & z & EJ'); [discriminate|].
      rewrite EJ', app_assoc in H. apply app_inj_tail in H as [_ <-].
      apply (IH J'). exact EJ'.
Qed.

(** ** Runs of blanks *)

Section Blanks.

Local Abbreviation two_blanks := [SPACE; SPACE].
Local Abbreviation blanks := (Plus (N.eqb SPACE)).
Local Abbreviation newlines := (Seq [Lit NL; Plus (N.eqb NL)]).

Lemma no_double_cons c (s : text) :
  contains two_blanks (c :: s) = false <->
  ~ (c = SPACE /\ exists t, s = SPACE :: t) /\ contains two_blanks s = false.
Proof.
  destruct s as [|d s].
  - simpl. rewrite andb_false_r. simpl. split; [|reflexivity].
    intros _. split; [|reflexivity]. intros [_ [t Ht]]. discriminate.
  - change (contains two_blanks (c :: d :: s))
      with (((SPACE =? c) && ((SPACE =? d) && true))
            || contains two_blanks (d :: s)).
    rewrite orb_false_iff, andb_true_r. split.
    + intros [H1 H2]. split; [|exact H2].
      intros [-> [t Ht]]. injection Ht as -> _. discriminate.
    + intros [H1 H2]. split; [|exact H2].
      destruct (N.eqb_spec SPACE c) as [<-|]; [|reflexivity].
      destruct (N.eqb_spec SPACE d) as [<-|]; [|reflexivity].
      exfalso. apply H1. split; [reflexivity|]. now exists s.
Qed.

Lemma no_double_suffix (a b : text) :
  contains two_blanks (a ++ b) = false -> contains two_blanks b = false.
Proof.
  induction a as [|c a IH]; simpl app; [auto|].
  intros H. apply no_double_cons in H as [_ H]. auto.
Qed.

Lemma no_double_prefix (a b : text) :
  contains two_blanks (a ++ b) = false -> contains two_blanks a = false.
Proof.
  induction a as [|c a IH]; simpl app; [reflexivity|].
  intros H. apply no_double_cons in H as [H1 H2]. apply no_double_cons.
  split; [|auto]. intros [-> [t ->]]. apply H1. split; [reflexivity|].
  now exists (t ++ b).
Qed.

Lemma no_double_app (a b : text) :
  contains two_blanks a = false -> contains two_blanks b = false ->
  (forall t u, a = t ++ [SPACE] -> b = SPACE :: u -> False) ->
  contains two_blanks (a ++ b) = false.
Proof.
  intros Ha Hb Hj. induction a as [|c a IH]; simpl app; [exact Hb|].
  apply no_double_cons in Ha as [H1 H2]. apply no_double_cons. split.
  - intros [-> [t Ht]]. destruct a as [|d a]; simpl in Ht.
    + exact (Hj [] t eq_refl Ht).
    + injection Ht as -> _. apply H1. split; [reflexivity|]. now exists a.
  - apply IH; [exact H2|]. intros t u -> Hu. exact (Hj (c :: t) u eq_refl Hu).
Qed.

(** The greedy repetition stops before a character that is not of the
    class. *)
Lemma star_head p (s x : text) tl :
  star p s = x :: tl -> forall c t, x = c :: t -> p c = false.
Proof.
  revert x tl. induction s as [|a s IH]; intros x tl; simpl.
  - intros H. injection H as <- _. discriminate.
  - destruct (p a) eqn:Ha.
    + destruct (star p s) as [|y ys] eqn:E.
      * simpl. intros H. injection H as <- _.
        destruct s; simpl in E; [discriminate|].
        destruct (p c); [now destruct (star p s)|discriminate].
      * simpl. intros H. injection H as <- _. exact (IH y ys eq_refl).
    + intros H. injection H as <- _. intros c t H. injection H as <- _.
      exact Ha.
Qed.

Lemma plus_head p (s rest : text) g tl :
  run (Plus p) s = (g, rest) :: tl ->
  g = [] /\ forall c t, rest = c :: t -> p c = false.
Proof.
  simpl. unfold plus. destruct s as [|a s]; [discriminate|].
  destruct (p a); [|discriminate].
  destruct (star p s) as [|x xs] eqn:E; [discriminate|].
  simpl. intros H. injection H as <- <- _. split; [reflexivity|].
  exact (star_head p s x xs E).
Qed.

Lemma plus_matches_head p (m : text) :
  m <> [] -> matches (Plus p) m -> exists c t, m = c :: t /\ p c = true.
Proof.
  intros Hne [_ H]. destruct m as [|c t]; [congruence|].
  exists c, t. split; [reflexivity|]. now inversion H.
Qed.

Lemma run_Plus_nil p c (s : text) : run (Plus p) (c :: s) = [] -> p c = false.
Proof.
  simpl. destruct (p c); [|reflexivity].
  destruct s as [|d s]; simpl; [discriminate|].
  destruct (p d); [|discriminate]. now destruct (star p s).
Qed.

(** The first substitution of the pass leaves no two blanks in a row. *)
Lemma collapse_no_double (s : text) :
  contains two_blanks (re_sub blanks [PText [SPACE]] s) = false.
Proof.
  enough (H : contains two_blanks (re_sub blanks [PText [SPACE]] s) = false
              /\ forall t, re_sub blanks [PText [SPACE]] s = SPACE :: t ->
                           exists t', s = SPACE :: t') by apply H.
  apply (re_sub_ind blanks [PText [SPACE]]
           (fun s out => contains two_blanks out = false
                         /\ forall t, out = SPACE :: t ->
                                      exists t', s = SPACE :: t')).
  - reflexivity.
  - split; [reflexivity|discriminate].
  - intros c s0 out Hrun [IH1 IH2].
    apply run_Plus_nil in Hrun. split.
    + apply no_double_cons. split; [|exact IH1].
      intros [-> _]. discriminate.
    + intros t H. injection H as -> _. discriminate.
  - intros m rest g tl out Hne Hm Hrun [IH1 IH2].
    apply plus_head in Hrun as [-> Hrest]. cbn [expand app]. split.
    + apply no_double_cons. split; [|exact IH1].
      intros [_ [t ->]]. destruct (IH2 t eq_refl) as [t' ->].
      now specialize (Hrest SPACE t' eq_refl).
    + intros t _. destruct (plus_matches_head _ m Hne Hm) as (c & u & -> & Hc).
      apply N.eqb_eq in Hc as <-. now exists (u ++ rest).
Qed.

Lemma starts_NL_newlines : starts_NL newlines.
Proof.
  intros m. cbv [Seq]. cbn [matches]. intros (m1 & m2 & -> & H & _).
  apply matches_Lit in H as ->. now exists m2.
Qed.

(** The second one brings in none. *)
Lemma squeeze_no_double (s : text) :
  contains two_blanks s = false ->
  contains two_blanks (re_sub newlines [PText [NL; NL]] s) = false.
Proof.
  enough (H : (contains two_blanks s = false ->
               contains two_blanks (re_sub newlines [PText [NL; NL]] s) = false)
              /\ forall t, re_sub newlines [PText [NL; NL]] s = SPACE :: t ->
                           exists t', s = SPACE :: t') by apply H.
  apply (re_sub_ind newlines [PText [NL; NL]]
           (fun s out => (contains two_blanks s = false ->
                          contains two_blanks out = false)
                         /\ forall t, out = SPACE :: t ->
                                      exists t', s = SPACE :: t')).
  - reflexivity.
  - split; [reflexivity|discriminate].
  - intros c s0 out _ [IH1 IH2]. split.
    + intros H. apply no_double_cons in H as [H1 H2].
      apply no_double_cons. split; [|auto].
      intros [-> [t ->]]. apply H1. split; [reflexivity|]. exact (IH2 t eq_refl).
    + intros t H. injection H as -> _. now exists s0.
  - intros m rest g tl out _ _ _ [IH1 IH2]. cbn [expand app]. split.
    + intros H. apply no_double_suffix in H.
      apply no_double_cons. split; [intros [? _]; discriminate|].
      apply no_double_cons. split; [intros [? _]; discriminate|]. auto.
    + discriminate.
Qed.

Lemma split_lines_head (s l : text) ls x t :
  split_lines s = l :: ls -> l = x :: t -> exists t', s = x :: t'.
Proof.
  destruct s as [|c s]; simpl.
  - intros H. injection H as <- _. discriminate.
  - destruct (c =? NL).
    + intros H. injection H as <- _. discriminate.
    + destruct (split_lines s); intros H; injection H as <- _;
        intros H; injection H as <- _; now exists s.
Qed.

Lemma split_lines_no_double (s : text) :
  contains two_blanks s = false ->
  Forall (fun l => contains two_blanks l = false) (split_lines s).
Proof.
  induction s as [|c s IH]; simpl.
  - intros _. now constructor.
  - intros H. apply no_double_cons in H as [H1 H2]. specialize (IH H2).
    destruct (c =? NL); [now constructor|].
    destruct (split_lines s) as [|l ls] eqn:E;
      [now apply split_lines_nonempty in E|].
    inversion IH as [|? ? Hl Hls]; subst. constructor; [|exact Hls].
    apply no_double_cons. split; [|exact Hl].
    intros [-> [t ->]]. apply H1. split; [reflexivity|].
    exact (split_lines_head s _ ls SPACE t E eq_refl).
Qed.

Lemma lstrip_part (s : text) : exists a, s = a ++ lstrip s.
Proof.
  induction s as [|c s [a IH]]; simpl.
  - now exists [].
  - destruct (isspace c); [|now exists []].
    exists (c :: a). simpl. now f_equal.
Qed.

Lemma strip_part (s : text) : exists a b, s = a ++ strip s ++ b.
Proof.
  unfold strip, rstrip. destruct (lstrip_part s) as [a Ha].
  destruct (lstrip_part (rev (lstrip s))) as [b Hb].
  exists a, (rev b). rewrite <- rev_app_distr, <- Hb, rev_involutive.
  exact Ha.
Qed.

Lemma strip_no_double (s : text) :
  contains two_blanks s = false -> contains two_blanks (strip s) = false.
Proof.
  intros H. destruct (strip_part s) as (a & b & E). rewrite E in H.
  apply no_double_suffix in H. now apply no_double_prefix in H.
Qed.

Lemma fragment_no_double (raw_line : text) (following : list text) :
  contains two_blanks raw_line = false ->
  contains two_blanks (fragment raw_line following) = false.
Proof.
  intros H. apply strip_no_double in H.
  destruct (fragment_cases raw_line following) as [E|[[_ E]|(_ & E & _)]];
    rewrite E.
  - reflexivity.
  - exact H.
  - apply no_double_app; [exact H|reflexivity|].
    intros t u Ht _. apply strip_last in Ht. discriminate.
Qed.

Lemma joined_no_double (lines : list text) :
  Forall (fun l => contains two_blanks l = false) lines ->
  contains two_blanks (join (cleaned_lines lines)) = false.
Proof.
  induction 1 as [|l following Hl Hf IH]; [reflexivity|].
  change (join (cleaned_lines (l :: following)))
    with (fragment l following ++ join (cleaned_lines following)).
  apply no_double_app; [now apply fragment_no_double|exact IH|].
  intros t u _ Hu. apply joined_head in Hu. discriminate.
Qed.

Lemma normalized_no_double (text0 : text) :
  contains two_blanks (_normalize_whitespace text0) = false.
Proof.
  unfold _normalize_whitespace.
  apply joined_no_double, split_lines_no_double, squeeze_no_double.
  apply collapse_no_double.
Qed.

Lemma normalized_no_NL (text0 : text) : ~ In NL (_normalize_whitespace text0).
Proof.
  unfold _normalize_whitespace.
  apply join_no_NL, cleaned_lines_no_NL, split_lines_no_NL.
Qed.

Lemma normalized_trimmed (text0 : text) :
  strip (_normalize_whitespace text0) = _normalize_whitespace text0.
Proof.
  unfold _normalize_whitespace. apply strip_fixed.
  - intros c t. apply joined_head.
  - intros t c. apply joined_last.
Qed.

(** A text with single blanks only is left as it is by the first
    substitution. *)
Lemma collapse_fixed (s : text) :
  contains two_blanks s = false -> re_sub blanks [PText [SPACE]] s = s.
Proof.
  apply (re_sub_ind blanks [PText [SPACE]]
           (fun s out => contains two_blanks s = false -> out = s)).
  - reflexivity.
  - reflexivity.
  - intros c s0 out _ IH H. apply no_double_cons in H as [_ H].
    now rewrite IH.
  - intros m rest g tl out Hne Hm Hrun IH H.
    apply plus_head in Hrun as [-> _]. cbn [expand app].
    rewrite (IH (no_double_suffix _ _ H)).
    destruct Hm as [_ Hm]. destruct m as [|c m]; [congruence|].
    inversion Hm as [|? ? Hc Hm']; subst. apply N.eqb_eq in Hc as <-.
    destruct m as [|d m]; [reflexivity|].
    inversion Hm' as [|? ? Hd _]; subst. apply N.eqb_eq in Hd as <-.
    simpl in H. discriminate.
Qed.

Lemma split_lines_single (s : text) : ~ In NL s -> split_lines s = [s].
Proof.
  induction s as [|c s IH]; [reflexivity|]. intros H. simpl.
  destruct (N.eqb_spec c NL) as [->|_]; [exfalso; apply H; now left|].
  rewrite IH; [reflexivity|]. intros Hin. apply H. now right.
Qed.

(** On a text of one line the pass collapses the blanks and trims. *)
Lemma normalize_one_line (s : text) :
  ~ In NL s ->
  _normalize_whitespace s = strip (re_sub blanks [PText [SPACE]] s).
Proof.
  intros H. unfold _normalize_whitespace.
  assert (H1 : ~ In NL (re_sub blanks [PText [SPACE]] s)).
  { intros Hin. apply re_sub_chars in Hin as [Hin|[Hin|[]]]; [auto|discriminate]. }
  unfold re_sub at 1. rewrite (sub_from_no_NL _ _ _ starts_NL_newlines H1).
  fold (re_sub blanks [PText [SPACE]] s).
  rewrite (split_lines_single _ H1). simpl. unfold join. simpl.
  rewrite app_nil_r. unfold fragment.
  destruct (strip _); reflexivity.
Qed.

Lemma normalize_fixed (s : text) :
  ~ In NL s -> contains two_blanks s = false -> strip s = s ->
  _normalize_whitespace s = s.
Proof.
  intros H1 H2 H3. rewrite (normalize_one_line s H1).
  now rewrite (collapse_fixed s H2).
Qed.

End Blanks.

(** ** The Whitespace Normalizer, the Symbol Filter and the cleaned text *)

(** Settles that a given text holds no newline. *)
Ltac no_newline :=
  let H := fresh "H" in
  intros H; cbv in H; repeat (destruct H as [H|H]; [discriminate|]); exact H.

(** X3: the output of the Whitespace Normalizer has no whitespace at either
    end: trimming it changes nothing. *)
Theorem normalizer_output_is_trimmed (T : text) :
  strip (_normalize_whitespace T) = _normalize_whitespace T
  /\ (forall c t, _normalize_whitespace T = c :: t -> isspace c = false)
  /\ (forall t c, _normalize_whitespace T = t ++ [c] -> isspace c = false).
Proof.
  split; [apply normalized_trimmed|].
  unfold _normalize_whitespace. split.
  - intros c t. apply joined_head.
  - intros t c. apply joined_last.
Qed.

(** X4: the output of the Whitespace Normalizer never holds two blanks in a
    row. *)
Theorem normalizer_collapses_blanks (T : text) :
  contains [SPACE; SPACE] (_normalize_whitespace T) = false.
Proof. apply normalized_no_double. Qed.

(** X5: the Whitespace Normalizer is idempotent. *)
Theorem normalizer_idempotent (T : text) :
  _normalize_whitespace (_normalize_whitespace T) = _normalize_whitespace T.
Proof.
  apply normalize_fixed.
  - apply normalized_no_NL.
  - apply normalized_no_double.
  - apply normalized_trimmed.
Qed.

(** X6: on a text of one line the Whitespace Normalizer collapses the runs
    of blanks and trims; no blank is added or moved. *)
Theorem normalizer_on_one_line (T : text) :
  ~ In NL T ->
  _normalize_whitespace T
  = strip (re_sub (Plus (N.eqb SPACE)) [PText [SPACE]] T).
Proof. apply normalize_one_line. Qed.

Lemma normalizer_on_one_line_witness :
  ~ In NL (codes "  pH   7.4  ")
  /\ _normalize_whitespace (codes "  pH   7.4  ") = codes "pH 7.4".
Proof.
  assert (H : ~ In NL (codes "  pH   7.4  ")).
  { no_newline. }
  split; [exact H|].
  rewrite (normalizer_on_one_line (codes "  pH   7.4  ") H). reflexivity.
Defined.

Section SymbolFilter.

Context (alnum_ext : char -> bool).

Local Abbreviation symbol_filter := (_clean_preserve_numerical_symbols alnum_ext).

(** X7: the Symbol Filter replaces, it never deletes or inserts: the output
    is as long as the input. *)
Theorem symbol_filter_preserves_length (T : text) :
  length (symbol_filter T) = length T.
Proof. rewrite symbol_filter_map. apply length_map. Qed.

Lemma keep_or_blank_fixed c :
  keep_or_blank alnum_ext c = c <-> essential alnum_ext c = true.
Proof.
  unfold keep_or_blank. destruct (essential alnum_ext c) eqn:E; simpl.
  - tauto.
  - split; [|discriminate]. intros <-. now rewrite essential_SPACE in E.
Qed.

(** X8: the texts the Symbol Filter leaves as they are, are the texts made
    of the characters of its allow-list. *)
Theorem symbol_filter_fixed_points (T : text) :
  symbol_filter T = T <-> Forall (fun c => essential alnum_ext c = true) T.
Proof.
  rewrite symbol_filter_map. induction T as [|c T IH]; simpl.
  - split; [constructor|reflexivity].
  - split.
    + intros H. injection H as H1 H2. constructor.
      * now apply keep_or_blank_fixed.
      * now apply IH.
    + intros H. inversion H as [|? ? H1 H2]; subst. f_equal.
      * now apply keep_or_blank_fixed.
      * now apply IH.
Qed.

Lemma filtered_no_NL (t : text) : ~ In NL t -> ~ In NL (symbol_filter t).
Proof.
  intros H. rewrite symbol_filter_map, in_map_iff. intros (c & E & Hc).
  unfold keep_or_blank in E.
  destruct (negb (essential alnum_ext c)); [discriminate|].
  subst. exact (H Hc).
Qed.

End SymbolFilter.

Section CleanedText.

Context (decimal_ext alnum_ext : char -> bool).

Local Abbreviation line_break_repair := (_fix_numerical_line_breaks decimal_ext).
Local Abbreviation symbol_filter := (_clean_preserve_numerical_symbols alnum_ext).
Local Abbreviation noise_remover := (_remove_noise_keep_context decimal_ext).
Local Abbreviation clean :=
  (_clean_text_for_numerical_extraction decimal_ext alnum_ext).

(** On a text of one line the three patterns that begin with a newline
    cannot match: only the punctuation rule and the trimming are left. *)
Lemma noise_remover_one_line (t : text) :
  ~ In NL t ->
  noise_remover t
  = strip (re_sub punctuation_rule [PGroup 1; PText [SPACE]] t).
Proof.
  intros H. unfold _remove_noise_keep_context, re_sub.
  rewrite (sub_from_no_NL _ _ t (starts_NL_page_label decimal_ext) H).
  rewrite (sub_from_no_NL _ _ t (starts_NL_page_number decimal_ext) H).
  rewrite (sub_from_no_NL _ _ t starts_NL_blank_lines H).
  reflexivity.
Qed.

Lemma noise_remover_no_NL (t : text) : ~ In NL t -> ~ In NL (noise_remover t).
Proof.
  intros H. rewrite (noise_remover_one_line t H). intros Hin.
  apply strip_incl in Hin.
  apply re_sub_chars in Hin as [Hin|[Hin|[]]]; [auto|discriminate].
Qed.

Lemma filtered_normalized_no_NL (t : text) :
  ~ In NL (symbol_filter (_normalize_whitespace t)).
Proof. apply filtered_no_NL, normalized_no_NL. Qed.

(** X9: inside the cleaning pipeline the page-label rule, the page-number
    rule and the blank-line rule of the Noise Remover never fire: the pass
    comes down to the punctuation rule and the final trimming. *)
Theorem newline_rules_are_dead_in_pipeline (raw : text) :
  clean raw
  = strip (re_sub punctuation_rule [PGroup 1; PText [SPACE]]
             (symbol_filter (_normalize_whitespace (line_break_repair raw)))).
Proof.
  unfold _clean_text_for_numerical_extraction.
  apply noise_remover_one_line, filtered_normalized_no_NL.
Qed.

(** X10: no cleaned text holds a newline. *)
Theorem cleaned_text_has_no_newline (raw : text) : ~ In NL (clean raw).
Proof.
  unfold _clean_text_for_numerical_extraction.
  apply noise_remover_no_NL, filtered_normalized_no_NL.
Qed.

Lemma noise_remover_trimmed (t : text) :
  strip (noise_remover t) = noise_remover t.
Proof. unfold _remove_noise_keep_context. apply strip_strip. Qed.

(** X11: a cleaned text has no whitespace at either end. *)
Theorem cleaned_text_is_trimmed (raw : text) :
  strip (clean raw) = clean raw
  /\ (forall c t, clean raw = c :: t -> isspace c = false)
  /\ (forall t c, clean raw = t ++ [c] -> isspace c = false).
Proof.
  unfold _clean_text_for_numerical_extraction, _remove_noise_keep_context.
  split; [apply strip_strip|]. split.
  - intros c t. apply strip_head.
  - intros t c. apply strip_last.
Qed.

(** X12: every character of a cleaned text is one the Symbol Filter keeps. *)
Theorem cleaned_text_within_allow_list (raw : text) :
  Forall (fun c => essential alnum_ext c = true) (clean raw).
Proof.
  apply List.Forall_forall. intros c. apply clean_essential.
Qed.

End CleanedText.

(** ** Batches in general *)

Lemma record_sources_other (docs : list SourceDocument) : forall m k,
  (forall doc, In doc docs -> source_id doc <> k) ->
  record_sources docs m !! k = m !! k.
Proof.
  unfold record_sources.
  induction docs as [|doc docs IH]; intros m k H; simpl; [reflexivity|].
  rewrite IH by (intros doc' Hd; apply H; now right).
  apply lookup_insert_ne. apply H. now left.
Qed.

Lemma record_sources_last (docs1 docs2 : list SourceDocument) doc m :
  (forall doc', In doc' docs2 -> source_id doc' <> source_id doc) ->
  record_sources (docs1 ++ doc :: docs2) m !! source_id doc
  = Some (source_label doc).
Proof.
  intros H. unfold record_sources. rewrite fold_left_app. simpl.
  fold (record_sources docs2
          (<[source_id doc := source_label doc]>
             (fold_left (fun m doc => <[source_id doc := source_label doc]> m)
                        docs1 m))).
  rewrite (record_sources_other docs2 _ _ H). apply lookup_insert_eq.
Qed.

(** One step of the three readings of a batch. *)
Ltac batch_step := cbn [tally produced mapped].

Section Batches.

Context (decimal_ext alnum_ext : char -> bool).
Context (w : world).

Local Abbreviation clean :=
  (_clean_text_for_numerical_extraction decimal_ext alnum_ext).
Local Abbreviation batch := (process_multiple_pdfs decimal_ext alnum_ext w).
Local Abbreviation produced := (produced decimal_ext alnum_ext w).
Local Abbreviation tally := (tally decimal_ext alnum_ext w).
Local Abbreviation mapped := (mapped w).

Lemma tally_spec (cfgs : list config) : forall d t,
  total_documents (tally cfgs d) = total_documents d
  /\ source_mapping (tally cfgs d) = source_mapping d
  /\ successful_extractions (tally cfgs d)
     = (successful_extractions d + Z.of_nat (length (produced cfgs t)))%Z
  /\ failed_extractions (tally cfgs d)
     = (failed_extractions d
        + (Z.of_nat (length cfgs) - Z.of_nat (length (produced cfgs t))))%Z
  /\ total_text_length (tally cfgs d)
     = (total_text_length d + total_length (produced cfgs t))%Z.
Proof.
  induction cfgs as [|cfg cfgs IH]; intros d t.
  - simpl. unfold total_length. simpl. repeat split; lia.
  - batch_step.
    destruct (_extract_text_from_pdf w (cfg_path cfg)) as [raw|e].
    + destruct (IH (add_text_length (len (clean raw)) (add_success d)) (S t))
        as (H1 & H2 & H3 & H4 & H5).
      rewrite H1, H2, H3, H4, H5. unfold total_length.
      cbn [length List.map fold_right add_text_length add_success
           total_documents source_mapping successful_extractions
           failed_extractions total_text_length cleaned_text document_of].
      repeat split; lia.
    + destruct (IH (add_failure d) t) as (H1 & H2 & H3 & H4 & H5).
      rewrite H1, H2, H3, H4, H5.
      cbn [length add_failure total_documents source_mapping
           successful_extractions failed_extractions total_text_length].
      repeat split; lia.
Qed.

Lemma produced_requests (cfgs : list config) : forall t,
  List.map request_of (produced cfgs t) = List.filter (succeeds w) cfgs.
Proof.
  induction cfgs as [|cfg cfgs IH]; intros t; [reflexivity|].
  batch_step. cbn [List.filter]. unfold succeeds at 1.
  destruct (_extract_text_from_pdf w (cfg_path cfg)) as [raw|e].
  - cbn [List.map]. rewrite IH. f_equal. now destruct cfg.
  - apply IH.
Qed.

Lemma produced_texts (cfgs : list config) : forall t,
  Forall (fun doc =>
            _extract_text_from_pdf w (file_path doc) = Return (raw_text doc)
            /\ cleaned_text doc = clean (raw_text doc))
         (produced cfgs t).
Proof.
  induction cfgs as [|cfg cfgs IH]; intros t; [constructor|].
  batch_step.
  destruct (_extract_text_from_pdf w (cfg_path cfg)) as [raw|e] eqn:E.
  - constructor; [|apply IH]. split; [exact E|reflexivity].
  - apply IH.
Qed.

Lemma produced_stamps (cfgs : list config) : forall t,
  List.map processing_timestamp (produced cfgs t)
  = List.map (now w) (seq t (length (produced cfgs t))).
Proof.
  induction cfgs as [|cfg cfgs IH]; intros t; [reflexivity|].
  batch_step.
  destruct (_extract_text_from_pdf w (cfg_path cfg)) as [raw|e].
  - cbn [List.map length seq]. now rewrite IH.
  - apply IH.
Qed.

Lemma mapped_record_sources (cfgs : list config) : forall m t,
  mapped cfgs m = record_sources (produced cfgs t) m.
Proof.
  induction cfgs as [|cfg cfgs IH]; intros m t; [reflexivity|].
  batch_step.
  destruct (_extract_text_from_pdf w (cfg_path cfg)) as [raw|e].
  - rewrite (IH _ (S t)). reflexivity.
  - apply IH.
Qed.

End Batches.

(** ** What a batch leaves alone *)

Lemma same_but_refl ls st : same_but ls st st.
Proof. now split. Qed.

Lemma same_but_trans ls st1 st2 st3 :
  same_but ls st1 st2 -> same_but ls st2 st3 -> same_but ls st1 st3.
Proof.
  intros [H1 H2] [H3 H4]. split; [congruence|].
  intros l Hl. rewrite (H4 l Hl). exact (H2 l Hl).
Qed.

Lemma same_but_incl ls ls' st st' :
  incl ls ls' -> same_but ls st st' -> same_but ls' st st'.
Proof.
  intros Hi [H1 H2]. split; [exact H1|]. intros l Hl. apply H2.
  intros Hin. exact (Hl (Hi l Hin)).
Qed.

Lemma update_stats_frame self st d m f :
  parser_state self st d m ->
  source_mapping (f d) = source_mapping d ->
  exists st',
    update_stats (processing_stats self) f st = Some (tt, st')
    /\ parser_state self st' (f d) m
    /\ clock st' = clock st
    /\ same_but [processing_stats self] st st'.
Proof.
  intros Hps Hf. pose proof (parser_state_distinct _ _ _ _ Hps) as Hne.
  destruct Hps as [H1 H2 H3 H4].
  unfold update_stats, bind, read_stats, write. rewrite H1.
  eexists. split; [reflexivity|]. split; [|split; [reflexivity|]].
  - split; simpl.
    + apply lookup_insert_eq.
    + rewrite Hf. rewrite lookup_insert_ne by exact Hne. exact H2.
    + exact H3.
    + rewrite Hf. exact H4.
  - split; [reflexivity|]. simpl. intros l Hl.
    apply lookup_insert_ne. intros <-. apply Hl. now left.
Qed.

Lemma mapping_setitem_frame self st d m key value :
  parser_state self st d m ->
  exists st',
    mapping_setitem (source_mapping d) key value st = Some (tt, st')
    /\ parser_state self st' d (<[key := value]> m)
    /\ clock st' = clock st
    /\ same_but [source_mapping d] st st'.
Proof.
  intros Hps. pose proof (parser_state_distinct _ _ _ _ Hps) as Hne.
  destruct Hps as [H1 H2 H3 H4].
  unfold mapping_setitem, bind, read_mapping, write. rewrite H2.
  eexists. split; [reflexivity|]. split; [|split; [reflexivity|]].
  - split; simpl.
    + rewrite lookup_insert_ne by congruence. exact H1.
    + apply lookup_insert_eq.
    + exact H3.
    + exact H4.
  - split; [reflexivity|]. simpl. intros l Hl.
    apply lookup_insert_ne. intros <-. apply Hl. now left.
Qed.

Section Frame.

Context (decimal_ext alnum_ext : char -> bool).
Context (w : world).

Local Abbreviation clean :=
  (_clean_text_for_numerical_extraction decimal_ext alnum_ext).
Local Abbreviation batch := (process_multiple_pdfs decimal_ext alnum_ext w).
Local Abbreviation produced := (produced decimal_ext alnum_ext w).
Local Abbreviation tally := (tally decimal_ext alnum_ext w).
Local Abbreviation mapped := (mapped w).

Lemma tally_source_mapping (cfgs : list config) d :
  source_mapping (tally cfgs d) = source_mapping d.
Proof. apply (tally_spec decimal_ext alnum_ext w cfgs d O). Qed.

Lemma process_one_frame self st d m cfg docs :
  parser_state self st d m ->
  exists docs' st' d' m',
    process_one decimal_ext alnum_ext w self cfg docs st = Some (docs', st')
    /\ parser_state self st' d' m'
    /\ source_mapping d' = source_mapping d
    /\ same_but [processing_stats self; source_mapping d] st st'.
Proof.
  intros Hps. unfold process_one.
  destruct (_extract_text_from_pdf w (cfg_path cfg)) as [raw|e].
  - unfold bind at 1. unfold read_clock at 1.
    set (st1 := {| objects := objects st; next_loc := next_loc st;
                   clock := S (clock st) |}).
    assert (Hps1 : parser_state self st1 d m) by (destruct Hps; now split).
    assert (F1 : same_but [processing_stats self; source_mapping d] st st1)
      by now split.
    destruct (update_stats_frame self st1 d m add_success Hps1 eq_refl)
      as (st2 & E2 & Hps2 & _ & F2).
    unfold bind at 1. rewrite E2.
    destruct (update_stats_frame self st2 _ m
                (add_text_length (len (clean raw))) Hps2 eq_refl)
      as (st3 & E3 & Hps3 & _ & F3).
    unfold bind at 1. rewrite E3.
    unfold bind at 1. unfold read_stats at 1. rewrite (ps_stats _ _ _ _ Hps3).
    destruct (mapping_setitem_frame self st3 _ m (cfg_source_id cfg)
                (cfg_source_label cfg) Hps3)
      as (st4 & E4 & Hps4 & _ & F4).
    unfold bind at 1. simpl source_mapping in *. rewrite E4.
    eexists _, st4, _, _. split; [reflexivity|]. split; [exact Hps4|].
    split; [reflexivity|].
    apply (same_but_trans _ _ st1); [exact F1|].
    apply (same_but_trans _ _ st2);
      [apply (same_but_incl [processing_stats self]); [|exact F2];
       intros l [<-|[]]; now left|].
    apply (same_but_trans _ _ st3);
      [apply (same_but_incl [processing_stats self]); [|exact F3];
       intros l [<-|[]]; now left|].
    apply (same_but_incl [source_mapping d]); [|exact F4].
    intros l [<-|[]]. right. now left.
  - destruct (update_stats_frame self st d m add_failure Hps eq_refl)
      as (st1 & E1 & Hps1 & _ & F1).
    unfold bind. rewrite E1. eexists _, st1, _, _.
    split; [reflexivity|]. split; [exact Hps1|]. split; [reflexivity|].
    apply (same_but_incl [processing_stats self]); [|exact F1].
    intros l [<-|[]]. now left.
Qed.

Lemma process_all_frame self (cfgs : list config) : forall st d m docs,
  parser_state self st d m ->
  exists docs' st' d' m',
    process_all decimal_ext alnum_ext w self cfgs docs st = Some (docs', st')
    /\ parser_state self st' d' m'
    /\ source_mapping d' = source_mapping d
    /\ same_but [processing_stats self; source_mapping d] st st'.
Proof.
  induction cfgs as [|cfg cfgs IH]; intros st d m docs Hps.
  - exists docs, st, d, m. simpl. split; [reflexivity|].
    split; [exact Hps|]. split; [reflexivity|apply same_but_refl].
  - simpl. unfold bind at 1.
    destruct (process_one_frame self st d m cfg docs Hps)
      as (docs1 & st1 & d1 & m1 & E1 & Hps1 & Hd1 & F1).
    rewrite E1.
    destruct (IH st1 d1 m1 docs1 Hps1)
      as (docs2 & st2 & d2 & m2 & E2 & Hps2 & Hd2 & F2).
    rewrite Hd1 in F2.
    exists docs2, st2, d2, m2. split; [exact E2|]. split; [exact Hps2|].
    split; [congruence|exact (same_but_trans _ _ _ _ F1 F2)].
Qed.

(** A batch writes to the processor's two dictionaries and to nothing
    else, and allocates nothing. *)
Lemma process_multiple_pdfs_frame self (cfgs : list config) st d m :
  parser_state self st d m ->
  exists docs st',
    batch self cfgs st = Some (docs, st')
    /\ same_but [processing_stats self; source_mapping d] st st'.
Proof.
  intros Hps. unfold process_multiple_pdfs. unfold bind at 1.
  destruct (process_all_frame self cfgs st d m [] Hps)
    as (docs1 & st1 & d1 & m1 & E1 & Hps1 & Hd1 & F1).
  rewrite E1.
  destruct (update_stats_frame self st1 d1 m1
              (set_total_documents (Z.of_nat (length cfgs))) Hps1 eq_refl)
    as (st2 & E2 & _ & _ & F2).
  unfold bind. rewrite E2. exists docs1, st2. split; [reflexivity|].
  apply (same_but_trans _ _ st1); [exact F1|].
  apply (same_but_incl [processing_stats self]); [|exact F2].
  intros l [<-|[]]. now left.
Qed.

End Frame.

(** ** Batches, snapshots and processors *)

Lemma parser_state_same_but other ls st st' d m :
  parser_state other st d m -> same_but ls st st' ->
  ~ In (processing_stats other) ls -> ~ In (source_mapping d) ls ->
  parser_state other st' d m.
Proof.
  intros [H1 H2 H3 H4] [Hn Ho] N1 N2. split.
  - rewrite (Ho _ N1). exact H1.
  - rewrite (Ho _ N2). exact H2.
  - now rewrite Hn.
  - now rewrite Hn.
Qed.

(** [__init__] in a machine that holds a processor already: the new
    processor gets two dictionaries of its own. *)
Lemma init_beside (w : world) a st da ma :
  parser_state a st da ma ->
  exists b st1,
    __init__ w st = Some (b, st1)
    /\ parser_state a st1 da ma
    /\ parser_state b st1
         {| total_documents := 0; successful_extractions := 0;
            failed_extractions := 0; total_text_length := 0;
            source_mapping := next_loc st |} ∅
    /\ processing_stats b = Pos.succ (next_loc st)
    /\ next_loc st1 = Pos.succ (Pos.succ (next_loc st)).
Proof.
  intros [H1 H2 H3 H4].
  unfold __init__, bind, read_clock, alloc, ret. simpl.
  eexists _, _. split; [reflexivity|]. simpl.
  split; [|split; [|split; reflexivity]].
  - split; simpl.
    + rewrite !lookup_insert_ne by lia. exact H1.
    + rewrite !lookup_insert_ne by lia. exact H2.
    + lia.
    + lia.
  - split; simpl.
    + apply lookup_insert_eq.
    + rewrite lookup_insert_ne by lia. apply lookup_insert_eq.
    + lia.
    + lia.
Qed.

Section BatchTheorems.

Context (decimal_ext alnum_ext : char -> bool).
Context (w : world).

Local Abbreviation clean :=
  (_clean_text_for_numerical_extraction decimal_ext alnum_ext).
Local Abbreviation batch := (process_multiple_pdfs decimal_ext alnum_ext w).
Local Abbreviation produced := (produced decimal_ext alnum_ext w).
Local Abbreviation tally := (tally decimal_ext alnum_ext w).
Local Abbreviation mapped := (mapped w).

(** The two descriptions of a batch put together. *)
Lemma batch_full self (cfgs : list config) st d m :
  parser_state self st d m ->
  exists st',
    batch self cfgs st = Some (produced cfgs (clock st), st')
    /\ parser_state self st'
         (set_total_documents (Z.of_nat (length cfgs)) (tally cfgs d))
         (record_sources (produced cfgs (clock st)) m)
    /\ clock st' = (clock st + length (produced cfgs (clock st)))%nat
    /\ same_but [processing_stats self; source_mapping d] st st'.
Proof.
  intros Hps.
  destruct (process_multiple_pdfs_spec decimal_ext alnum_ext w self cfgs
              st d m Hps) as (st' & E & Hps' & Hc).
  destruct (process_multiple_pdfs_frame decimal_ext alnum_ext w self cfgs
              st d m Hps) as (docs & st'' & E' & F).
  rewrite E in E'. injection E' as _ <-.
  exists st'. split; [exact E|].
  rewrite <- (mapped_record_sources decimal_ext alnum_ext w).
  split; [exact Hps'|]. split; [exact Hc|exact F].
Qed.

Lemma produced_length (cfgs : list config) t :
  (length (produced cfgs t) <= length cfgs)%nat.
Proof.
  rewrite <- (length_map request_of),
    (produced_requests decimal_ext alnum_ext w).
  apply filter_length_le.
Qed.

(** X13: whatever the requests and the state of the processor, a batch
    returns, and it counts every request once: [total_documents] is the
    number of requests, the successes grow by the number of documents
    returned, the failures by the number of the other requests, and the
    text length by the lengths of the cleaned texts returned. *)
Theorem batch_counts_every_request_once self (cfgs : list config) st d m :
  parser_state self st d m ->
  exists docs st' d' m',
    batch self cfgs st = Some (docs, st')
    /\ parser_state self st' d' m'
    /\ (length docs <= length cfgs)%nat
    /\ total_documents d' = Z.of_nat (length cfgs)
    /\ successful_extractions d'
       = (successful_extractions d + Z.of_nat (length docs))%Z
    /\ failed_extractions d'
       = (failed_extractions d + Z.of_nat (length cfgs - length docs))%Z
    /\ total_text_length d' = (total_text_length d + total_length docs)%Z.
Proof.
  intros Hps. destruct (batch_full self cfgs st d m Hps) as (st' & E & Hps' & _).
  eexists _, st', _, _. split; [exact E|]. split; [exact Hps'|].
  pose proof (produced_length cfgs (clock st)) as Hle.
  destruct (tally_spec decimal_ext alnum_ext w cfgs d (clock st))
    as (_ & _ & H3 & H4 & H5).
  split; [exact Hle|]. split; [reflexivity|].
  cbn [set_total_documents successful_extractions failed_extractions
       total_text_length].
  split; [exact H3|]. split; [|exact H5]. rewrite H4. lia.
Qed.

(** X14: the documents a batch returns are those of the requests whose
    extraction succeeds, in the order of the requests; each holds the text
    extracted from its path and the cleaned form of that text, and the
    time stamps are consecutive readings of the clock. *)
Theorem batch_returns_successful_requests_in_order
    self (cfgs : list config) st d m :
  parser_state self st d m ->
  exists docs st',
    batch self cfgs st = Some (docs, st')
    /\ List.map request_of docs = List.filter (succeeds w) cfgs
    /\ Forall (fun doc =>
                 _extract_text_from_pdf w (file_path doc)
                 = Return (raw_text doc)
                 /\ cleaned_text doc = clean (raw_text doc)) docs
    /\ List.map processing_timestamp docs
       = List.map (now w) (seq (clock st) (length docs))
    /\ clock st' = (clock st + length docs)%nat.
Proof.
  intros Hps.
  destruct (batch_full self cfgs st d m Hps) as (st' & E & _ & Hc & _).
  eexists _, st'. split; [exact E|].
  split; [apply produced_requests|].
  split; [apply produced_texts|].
  split; [apply produced_stamps|exact Hc].
Qed.

(** X15: after a batch the [source_mapping] dictionary, the same object as
    before, holds for every identifier the label of the last document
    returned with it; the entries of the other identifiers are as they
    were. *)
Theorem batch_records_last_label self (cfgs : list config) st d m :
  parser_state self st d m ->
  exists docs st' d' m',
    batch self cfgs st = Some (docs, st')
    /\ parser_state self st' d' m'
    /\ source_mapping d' = source_mapping d
    /\ (forall k, (forall doc, In doc docs -> source_id doc <> k) ->
                  m' !! k = m !! k)
    /\ (forall docs1 doc docs2,
          docs = docs1 ++ doc :: docs2 ->
          (forall doc', In doc' docs2 -> source_id doc' <> source_id doc) ->
          m' !! source_id doc = Some (source_label doc)).
Proof.
  intros Hps. destruct (batch_full self cfgs st d m Hps) as (st' & E & Hps' & _).
  eexists _, st', _, _. split; [exact E|]. split; [exact Hps'|].
  split; [apply (tally_spec decimal_ext alnum_ext w cfgs d O)|]. split.
  - intros k Hk. now apply record_sources_other.
  - intros docs1 doc docs2 -> H. now apply record_sources_last.
Qed.

(** X16: the counters of a snapshot are frozen: a batch run after the
    snapshot was taken leaves the snapshot's dictionary as it was, while
    the [source_mapping] dictionary the snapshot refers to, being the
    processor's, takes the entries of the batch. *)
Theorem snapshot_counters_are_frozen self (cfgs : list config) st d m :
  parser_state self st d m ->
  exists snap st1 docs st2 d' m',
    get_processing_statistics self st = Some (snap, st1)
    /\ batch self cfgs st1 = Some (docs, st2)
    /\ parser_state self st2 d' m'
    /\ objects st2 !! snap = Some (Stats d)
    /\ objects st2 !! source_mapping d = Some (Mapping m')
    /\ m' = record_sources docs m.
Proof.
  intros Hps.
  destruct (get_processing_statistics_spec self st d m Hps)
    as (st1 & E1 & Hps1 & Hsnap & _).
  destruct (batch_full self cfgs st1 d m Hps1) as (st2 & E2 & Hps2 & _ & F).
  eexists (next_loc st), st1, _, st2, _, _.
  split; [exact E1|]. split; [exact E2|]. split; [exact Hps2|].
  split; [|split; [|reflexivity]].
  - destruct F as [_ F]. rewrite F; [exact Hsnap|].
    destruct Hps as [_ _ H3 H4]. intros [H|[H|[]]]; lia.
  - pose proof (ps_mapping _ _ _ _ Hps2) as H.
    cbn [set_total_documents source_mapping] in H.
    destruct (tally_spec decimal_ext alnum_ext w cfgs d O) as (_ & Hm & _).
    rewrite Hm in H. exact H.
Qed.

(** X17: two processors never share statistics: a processor built beside
    another one has dictionaries of its own, and a batch run on either
    leaves the statistics of the other as they were. *)
Theorem processors_do_not_share_statistics a (cfgs : list config) st da ma :
  parser_state a st da ma ->
  exists b st1 db,
    __init__ w st = Some (b, st1)
    /\ parser_state a st1 da ma
    /\ parser_state b st1 db ∅
    /\ (exists docs st2 db' mb',
          batch b cfgs st1 = Some (docs, st2)
          /\ parser_state b st2 db' mb'
          /\ parser_state a st2 da ma)
    /\ (exists docs st2 da' ma',
          batch a cfgs st1 = Some (docs, st2)
          /\ parser_state a st2 da' ma'
          /\ parser_state b st2 db ∅).
Proof.
  intros Hps.
  destruct (init_beside w a st da ma Hps)
    as (b & st1 & E & Ha & Hb & Eb & En).
  eexists b, st1, _. split; [exact E|]. split; [exact Ha|].
  split; [exact Hb|].
  destruct Hps as [_ _ H3 H4]. split.
  - destruct (batch_full b cfgs st1 _ _ Hb) as (st2 & E2 & Hb2 & _ & F).
    eexists _, st2, _, _. split; [exact E2|]. split; [exact Hb2|].
    apply (parser_state_same_but a _ st1 st2 da ma Ha F);
      rewrite Eb; simpl; intros [H|[H|[]]]; lia.
  - destruct (batch_full a cfgs st1 _ _ Ha) as (st2 & E2 & Ha2 & _ & F).
    eexists _, st2, _, _. split; [exact E2|]. split; [exact Ha2|].
    apply (parser_state_same_but b _ st1 st2 _ _ Hb F);
      try rewrite Eb; simpl; intros [H|[H|[]]]; lia.
Qed.

End BatchTheorems.

(** ** Matches and their groups *)

Lemma run_group_free r : forall (s : text) g rest,
  group_free r = true -> In (g, rest) (run r s) -> g = [].
Proof.
  induction r as [p|p|p|p|r1 IH1 r2 IH2|r1 IH1 r2 IH2|r IH];
    intros s g rest Hgf Hin; simpl in Hgf; try discriminate.
  - simpl in Hin. destruct s as [|c s]; [destruct Hin|].
    destruct (p c); [|destruct Hin]. destruct Hin as [H|[]]. congruence.
  - apply in_no_groups in Hin. tauto.
  - apply in_no_groups in Hin. tauto.
  - apply in_no_groups in Hin. tauto.
  - apply andb_true_iff in Hgf as [G1 G2].
    simpl in Hin. apply in_flat_map in Hin as ([g1 s1] & H1 & H2).
    apply in_map_iff in H2 as ([g2 s2] & E & H2). simpl in E.
    injection E as <- <-.
    rewrite (IH1 _ _ _ G1 H1), (IH2 _ _ _ G2 H2). reflexivity.
  - apply andb_true_iff in Hgf as [G1 G2].
    simpl in Hin. apply in_app_or in Hin as [H|H]; eauto.
Qed.

Lemma run_Cat_inv r1 r2 (s : text) g rest :
  In (g, rest) (run (Cat r1 r2) s) ->
  exists g1 s1 g2,
    In (g1, s1) (run r1 s) /\ In (g2, rest) (run r2 s1) /\ g = g1 ++ g2.
Proof.
  simpl. intros Hin. apply in_flat_map in Hin as ([g1 s1] & H1 & H2).
  apply in_map_iff in H2 as ([g2 s2] & E & H2). simpl in E.
  injection E as <- <-. now exists g1, s1, g2.
Qed.

Lemma run_Grp_inv r (s : text) g rest :
  In (g, rest) (run (Grp r) s) ->
  exists g' m,
    g = m :: g' /\ s = m ++ rest /\ matches r m /\ In (g', rest) (run r s).
Proof.
  simpl. intros Hin. apply in_map_iff in Hin as ([g' rest'] & E & H).
  simpl in E. injection E as <- <-.
  destruct (run_sound r s g' rest' H) as (m & Es & Hm).
  exists g', m. split; [|now repeat split]. f_equal.
  rewrite Es, length_app, Nat.add_sub, firstn_app, Nat.sub_diag, firstn_all.
  simpl. apply app_nil_r.
Qed.

(** The two groups of a match of a joining rule are the number and what
    follows the line break. *)
Lemma joining_rule_inv decimal_ext x (s : text) g rest :
  group_free x = true ->
  In (g, rest) (run (joining_rule decimal_ext x) s) ->
  exists m1 m2 m3,
    s = m1 ++ m2 ++ m3 ++ rest
    /\ matches (number decimal_ext) m1
    /\ matches line_break m2
    /\ matches x m3
    /\ g = [m1; m3].
Proof.
  intros Hx Hin. unfold joining_rule in Hin.
  apply run_Cat_inv in Hin as (g1 & s1 & g23 & H1 & H23 & ->).
  apply run_Grp_inv in H1 as (g1' & m1 & -> & -> & Hm1 & H1).
  apply run_group_free in H1; [|reflexivity]. subst g1'.
  apply run_Cat_inv in H23 as (g2 & s2 & g3 & H2 & H3 & ->).
  apply run_group_free in H2 as E2; [|reflexivity]. subst g2.
  destruct (run_sound _ _ _ _ H2) as (m2 & -> & Hm2).
  apply run_Grp_inv in H3 as (g3' & m3 & -> & -> & Hm3 & H3).
  apply run_group_free in H3; [|exact Hx]. subst g3'.
  exists m1, m2, m3. now repeat split.
Qed.

(** ** Lining up two readings of a text around a block of whitespace *)

Lemma ws_block (A W : text) y z (R S : text) :
  Forall (fun c => isspace c = true) A ->
  Forall (fun c => isspace c = true) W ->
  isspace y = false -> isspace z = false ->
  A ++ y :: R = W ++ z :: S -> A = W /\ y = z /\ R = S.
Proof.
  intros HA. revert W. induction HA as [|a A Ha HA IH]; intros W HW Hy Hz E.
  - destruct W as [|w W]; simpl in E.
    + injection E as -> ->. now repeat split.
    + injection E as -> _. inversion HW; subst. congruence.
  - destruct W as [|w W]; simpl in E.
    + injection E as -> _. congruence.
    + injection E as -> E. inversion HW; subst.
      destruct (IH W) as (-> & -> & ->); auto.
Qed.

Lemma number_block (num A : text) y (R P W : text) z (S : text) p (P' : text) :
  Forall (fun c => isspace c = false) num ->
  Forall (fun c => isspace c = true) A -> In NL A ->
  isspace y = false ->
  P = P' ++ [p] -> isspace p = false -> ~ In NL P ->
  Forall (fun c => isspace c = true) W -> W <> [] ->
  isspace z = false ->
  num ++ A ++ y :: R = P ++ W ++ z :: S ->
  num = P /\ A = W /\ y :: R = z :: S.
Proof.
  intros Hnum HA HNL Hy EP Hp HP HW HWne Hz E.
  apply app_eq_app in E as [l [[E1 E2]|[E1 E2]]].
  - (* the number ends at or after the end of [P] *)
    destruct l as [|c l].
    + rewrite app_nil_r in E1. simpl in E2. symmetry in E2.
      destruct (ws_block A W y z R S HA HW Hy Hz E2) as (-> & -> & ->).
      now repeat split.
    + exfalso. destruct W as [|w W]; [congruence|].
      simpl in E2. injection E2 as -> _.
      inversion HW as [|? ? Hw _]. rewrite E1 in Hnum.
      apply Forall_app in Hnum as [_ Hl]. inversion Hl as [|? ? Hc _].
      congruence.
  - (* it ends before *)
    destruct l as [|c l].
    + rewrite app_nil_r in E1. simpl in E2. subst num.
      destruct (ws_block A W y z R S HA HW Hy Hz E2) as (-> & -> & ->).
      now repeat split.
    + exfalso.
      destruct (exists_last (l := c :: l)) as (l' & q & El); [discriminate|].
      rewrite El in E1, E2.
      rewrite E1, app_assoc in EP. apply app_inj_tail in EP as [_ ->].
      rewrite <- app_assoc in E2. simpl in E2.
      apply HP. rewrite E1. apply in_or_app. right. apply in_or_app. left.
      apply app_eq_app in E2 as [k [[E3 E4]|[E3 E4]]].
      * destruct k as [|d k].
        -- rewrite app_nil_r in E3. now subst.
        -- exfalso. simpl in E4. injection E4 as -> _.
           rewrite E3 in HA. apply Forall_app in HA as [_ HA].
           inversion HA as [|? ? Hd _]. congruence.
      * rewrite E3. apply in_or_app. now left.
Qed.

(** ** Joining a number to the sign after the line break *)

Lemma latin1_digit_not_space c :
  between 48 57 c = true -> isspace c = false.
Proof.
  unfold between. intros H. apply andb_true_iff in H as [H1 H2].
  apply N.leb_le in H1, H2. unfold isspace, between.
  repeat match goal with
         | |- context [?a <=? ?b] => destruct (N.leb_spec a b)
         | |- context [?a =? ?b] => destruct (N.eqb_spec a b)
         end; simpl; try reflexivity; lia.
Qed.

Section Joining.

Context (decimal_ext : char -> bool).

(** No decimal digit of Unicode is a whitespace character. *)
Hypothesis digits_are_not_spaces :
  forall c, decimal_ext c = true -> isspace c = false.

Local Abbreviation digit := (isdecimal decimal_ext).
Local Abbreviation line_break_repair := (_fix_numerical_line_breaks decimal_ext).

Lemma digit_not_space c : digit c = true -> isspace c = false.
Proof.
  unfold isdecimal. destruct (c <? 256).
  - apply latin1_digit_not_space.
  - apply digits_are_not_spaces.
Qed.

Lemma digits_not_spaces (m : text) :
  Forall (fun c => digit c = true) m -> Forall (fun c => isspace c = false) m.
Proof. apply List.Forall_impl. exact digit_not_space. Qed.

Lemma number_chars (m : text) :
  matches (number decimal_ext) m ->
  Forall (fun c => isspace c = false) m /\ exists m' p, m = m' ++ [p].
Proof.
  intros Hm. split.
  - revert Hm. cbv [number Seq]. cbn [matches].
    intros (m1 & m23 & -> & [_ H1] & m2 & m3 & -> & H2 & H3).
    apply Forall_app. split; [now apply digits_not_spaces|].
    apply Forall_app. split; [|now apply digits_not_spaces].
    destruct H2 as [->|(c & -> & Hc)]; [constructor|].
    apply N.eqb_eq in Hc as <-. now repeat constructor.
  - destruct (number_head decimal_ext m Hm) as (c & t & -> & _).
    destruct (exists_last (l := c :: t)) as (m' & p & E); [discriminate|].
    now exists m', p.
Qed.

Lemma line_break_chars (m : text) :
  matches line_break m -> Forall (fun c => isspace c = true) m /\ In NL m.
Proof.
  intros Hm. split; [|now apply line_break_holds_NL].
  revert Hm. cbv [line_break Seq]. cbn [matches].
  intros (m1 & m23 & -> & H1 & m2 & m3 & -> & H2 & H3).
  apply matches_Lit in H2 as ->.
  apply Forall_app. split; [exact H1|].
  apply Forall_app. split; [now repeat constructor|exact H3].
Qed.

Lemma line_break_intro (W : text) :
  Forall (fun c => isspace c = true) W -> In NL W -> matches line_break W.
Proof.
  intros HW Hin. apply in_split in Hin as (w1 & w2 & ->).
  apply Forall_app in HW as [H1 H2]. inversion H2 as [|? ? _ H3]; subst.
  cbv [line_break Seq]. cbn [matches].
  exists w1, (NL :: w2). split; [reflexivity|]. split; [exact H1|].
  exists [NL], w2. split; [reflexivity|]. split; [|exact H3].
  now apply matches_Lit.
Qed.

Lemma joining_rule_holds_NL x (m : text) :
  matches (joining_rule decimal_ext x) m -> In NL m.
Proof.
  unfold joining_rule. cbn [matches].
  intros (m1 & m' & -> & _ & m2 & m3 & -> & H & _).
  apply in_or_app. right. apply in_or_app. left.
  now apply line_break_holds_NL.
Qed.

Section Rule.

Context (x : regex).
Hypothesis x_group_free : group_free x = true.
Hypothesis x_head :
  forall m, matches x m -> exists y t, m = y :: t /\ isspace y = false.

Local Abbreviation rule := (joining_rule decimal_ext x).

(** Where the rule matches before a block of whitespace that holds the
    only newlines around, the match runs from there over the block. *)
Lemma joining_rule_at (P P' W S : text) p z g rest tl :
  P = P' ++ [p] -> isspace p = false -> ~ In NL P ->
  Forall (fun c => isspace c = true) W -> W <> [] ->
  isspace z = false -> ~ In NL (z :: S) ->
  run rule (P ++ W ++ z :: S) = (g, rest) :: tl ->
  sub_from rule [PGroup 1; PGroup 2] O (P ++ W ++ z :: S) = P ++ z :: S.
Proof.
  intros EP Hp HP HW HWne Hz HU Hrun.
  assert (Hin : In (g, rest) (run rule (P ++ W ++ z :: S)))
    by (rewrite Hrun; now left).
  apply (joining_rule_inv decimal_ext x _ _ _ x_group_free) in Hin
    as (m1 & m2 & m3 & E & Hm1 & Hm2 & Hm3 & ->).
  destruct (number_chars m1 Hm1) as [H1 _].
  destruct (line_break_chars m2 Hm2) as [H2 H2'].
  destruct (x_head m3 Hm3) as (y & t & -> & Hy).
  symmetry in E. simpl in E.
  destruct (number_block m1 m2 y (t ++ rest) P W z S p P'
              H1 H2 H2' Hy EP Hp HP HW HWne Hz E) as (-> & -> & EU).
  assert (Es : P ++ W ++ z :: S = (P ++ W ++ y :: t) ++ rest).
  { rewrite <- !app_assoc. simpl. now rewrite EU. }
  rewrite Es in Hrun |- *.
  assert (Hne : P ++ W ++ y :: t <> []).
  { intros H. apply app_eq_nil in H as [_ H].
    apply app_eq_nil in H as [_ H]. discriminate. }
  rewrite (sub_from_match rule _ _ rest _ tl Hne Hrun).
  cbn [expand nth Nat.sub]. rewrite app_nil_r, <- EU, <- app_assoc. simpl.
  do 3 f_equal.
  apply (re_sub_lacking (eq NL)).
  - intros m Hm. exists NL. split; [|reflexivity].
    now apply joining_rule_holds_NL in Hm.
  - intros c Hc <-. apply HU. rewrite <- EU. right.
    apply in_or_app. now right.
Qed.

(** The rule joins a number to what follows the line break, wherever the
    number stands in its line. *)
Lemma joining_rule_joins (pre n W u post : text) :
  ~ In NL pre -> matches (number decimal_ext) n ->
  Forall (fun c => isspace c = true) W -> In NL W ->
  matches x u -> ~ In NL (u ++ post) ->
  re_sub rule [PGroup 1; PGroup 2] (pre ++ n ++ W ++ u ++ post)
  = pre ++ n ++ u ++ post.
Proof.
  intros Hpre Hn HW HNL Hu HU. unfold re_sub.
  destruct (number_chars n Hn) as [Hn1 (n' & p & En)].
  assert (Hp : isspace p = false).
  { rewrite En in Hn1. apply Forall_app in Hn1 as [_ H].
    now inversion H. }
  assert (HnNL : ~ In NL n).
  { intros H. rewrite List.Forall_forall in Hn1. now apply Hn1 in H. }
  assert (HWne : W <> []) by (intros ->; destruct HNL).
  destruct (x_head u Hu) as (z & t & Eu & Hz).
  assert (EU : u ++ post = z :: t ++ post) by now rewrite Eu.
  rewrite EU in HU |- *.
  induction pre as [|c pre IH].
  - simpl app at 1.
    destruct (run rule (n ++ W ++ z :: t ++ post)) as [|[g rest] tl] eqn:Hrun.
    + exfalso.
      assert (Hm : matches rule (n ++ W ++ u)).
      { unfold joining_rule. cbn [matches].
        exists n, (W ++ u). split; [reflexivity|]. split; [exact Hn|].
        exists W, u. split; [reflexivity|].
        split; [now apply line_break_intro|exact Hu]. }
      destruct (run_complete rule _ post Hm) as [g Hg].
      rewrite <- !app_assoc, EU, Hrun in Hg. destruct Hg.
    + exact (joining_rule_at n n' W (t ++ post) p z g rest tl
               En Hp HnNL HW HWne Hz HU Hrun).
  - assert (Hpre' : ~ In NL pre) by (intros H; apply Hpre; now right).
    destruct (run rule ((c :: pre) ++ n ++ W ++ z :: t ++ post))
      as [|[g rest] tl] eqn:Hrun.
    + simpl app in Hrun |- *.
      rewrite (sub_from_copy_one _ _ _ _ Hrun). f_equal. exact (IH Hpre').
    + rewrite app_assoc in Hrun |- *.
      rewrite (joining_rule_at ((c :: pre) ++ n) ((c :: pre) ++ n') W
                 (t ++ post) p z g rest tl); try assumption.
      * now rewrite <- app_assoc.
      * now rewrite En, app_assoc.
      * intros H. apply in_app_or in H as [H|H]; auto.
Qed.

End Rule.

Lemma percent_class_head (m : text) :
  matches (Cls (one_of [37; NOT_SIGN; INFINITY])) m ->
  exists y t, m = y :: t /\ isspace y = false.
Proof.
  intros (c & -> & Hc). exists c, []. split; [reflexivity|].
  cbn [one_of] in Hc.
  repeat (apply orb_true_iff in Hc as [Hc|Hc]); try discriminate;
    apply N.eqb_eq in Hc; subst; reflexivity.
Qed.

(** X18: Line-Break Repair joins a percent sign to the number it was cut
    from: a number, whitespace with a line break in it, and a percent sign
    become the number and the sign, whatever stands before on the line of
    the number and after on the line of the sign.  (No decimal digit of
    Unicode is a whitespace character: that is asked of the table behind
    [\d].) *)
Theorem percent_sign_is_joined (pre n W post : text) :
  ~ In NL pre -> matches (number decimal_ext) n ->
  Forall (fun c => isspace c = true) W -> In NL W ->
  ~ In NL post ->
  line_break_repair (pre ++ n ++ W ++ 37 :: post) = pre ++ n ++ 37 :: post.
Proof.
  intros Hpre Hn HW HNL Hpost.
  assert (Hout : ~ In NL (pre ++ n ++ 37 :: post)).
  { intros H. apply in_app_or in H as [H|H]; [auto|].
    apply in_app_or in H as [H|[H|H]]; [|discriminate|auto].
    destruct (number_chars n Hn) as [Hn1 _].
    rewrite List.Forall_forall in Hn1. now apply Hn1 in H. }
  assert (E : re_sub (percent_rule decimal_ext) [PGroup 1; PGroup 2]
                (pre ++ n ++ W ++ 37 :: post)
              = pre ++ n ++ 37 :: post).
  { apply (joining_rule_joins (Cls (one_of [37; NOT_SIGN; INFINITY])) eq_refl
             percent_class_head pre n W [37] post Hpre Hn HW HNL).
    - exists 37. split; reflexivity.
    - intros [H|H]; [discriminate|auto]. }
  unfold _fix_numerical_line_breaks. rewrite E.
  rewrite (repair_shaped_no_NL _ _ _ _ (repair_shaped_scientific decimal_ext) Hout).
  rewrite (repair_shaped_no_NL _ _ _ _ (repair_shaped_range decimal_ext) Hout).
  rewrite (repair_shaped_no_NL _ _ _ _ (repair_shaped_error decimal_ext) Hout).
  exact (repair_shaped_no_NL _ _ _ _ (repair_shaped_unit decimal_ext) Hout).
Qed.

End Joining.

(** ** Line breaks that are kept *)

Lemma re_sub_no_match r tpl (s : text) :
  (forall a1 m rest, s = a1 ++ m ++ rest -> ~ matches r m) ->
  re_sub r tpl s = s.
Proof.
  intros H. unfold re_sub. rewrite <- (app_nil_r s) at 1.
  rewrite sub_from_copy.
  - simpl. rewrite run_nil; [now rewrite app_nil_r|].
    intros m rest E. apply (H s m rest).
    symmetry in E. apply app_eq_nil in E as [-> ->].
    now rewrite !app_nil_r.
  - intros a1 a2 -> _. apply run_nil. intros m rest E.
    apply (H a1 m rest). rewrite app_nil_r in E. now rewrite E.
Qed.

(** Where the newline of a reading [F ++ NL :: T] lies, in a text whose
    newlines are all in one block of whitespace. *)
Lemma newline_in_block (F T pre W post : text) z :
  ~ In NL pre -> isspace z = false -> ~ In NL post ->
  F ++ NL :: T = pre ++ W ++ z :: post ->
  exists W1 W2, W = W1 ++ NL :: W2 /\ T = W2 ++ z :: post.
Proof.
  intros Hpre Hz Hpost E.
  assert (Hz' : z <> NL) by (intros ->; discriminate).
  apply app_eq_app in E as [l [[E1 E2]|[E1 E2]]].
  - apply app_eq_app in E2 as [k [[E3 E4]|[E3 E4]]].
    + destruct k as [|c k]; simpl in E4.
      * injection E4 as E4 _. congruence.
      * injection E4 as <- E4. exists l, k. now split.
    + exfalso. destruct k as [|c k]; simpl in E4.
      * injection E4 as E4 _. congruence.
      * injection E4 as _ E4. apply Hpost. rewrite E4.
        apply in_or_app. right. now left.
  - destruct l as [|c l]; simpl in E2.
    + destruct W as [|w W]; simpl in E2.
      * injection E2 as E2 _. congruence.
      * injection E2 as <- E2. exists [], W. now split.
    + exfalso. injection E2 as <- _. apply Hpre. rewrite E1.
      apply in_or_app. right. now left.
Qed.

Lemma break_kept C r tpl (pre W post : text) z :
  breaks_before C r ->
  ~ In NL pre -> Forall (fun c => isspace c = true) W ->
  isspace z = false -> C z = false -> ~ In NL post ->
  re_sub r tpl (pre ++ W ++ z :: post) = pre ++ W ++ z :: post.
Proof.
  intros Hr Hpre HW Hz HC Hpost. apply re_sub_no_match.
  intros a1 m rest E Hm.
  destruct (Hr m Hm) as (F & A & y & R & -> & HA & Hy & Hy').
  assert (E' : (a1 ++ F) ++ NL :: A ++ y :: R ++ rest
               = pre ++ W ++ z :: post).
  { rewrite E. repeat (rewrite <- app_assoc; simpl). reflexivity. }
  apply newline_in_block in E' as (W1 & W2 & -> & E'); try assumption.
  apply Forall_app in HW as [_ HW]. inversion HW as [|? ? _ HW2]; subst.
  destruct (ws_block A W2 y z _ _ HA HW2 Hy Hz E') as (_ & -> & _).
  congruence.
Qed.

Lemma breaks_before_intro C r1 r2 :
  (forall m, matches r2 m ->
             exists y t, m = y :: t /\ isspace y = false /\ C y = true) ->
  breaks_before C (Cat r1 (Cat line_break r2)).
Proof.
  intros H m. cbn [matches].
  intros (m1 & m' & -> & _ & m2 & m3 & -> & Hm2 & Hm3).
  destruct (H m3 Hm3) as (y & t & -> & Hy & Hy').
  revert Hm2. cbv [line_break Seq]. cbn [matches].
  intros (w1 & w' & -> & _ & nl & w2 & -> & Hnl & Hw2).
  apply matches_Lit in Hnl as ->.
  exists (m1 ++ w1), w2, y, t. split; [|now repeat split].
  repeat (rewrite <- app_assoc; simpl). reflexivity.
Qed.

Lemma breaks_before_weaken (C C' : char -> bool) r :
  (forall c, C c = true -> C' c = true) ->
  breaks_before C r -> breaks_before C' r.
Proof.
  intros HC Hr m Hm. destruct (Hr m Hm) as (F & A & y & R & E & HA & Hy & Hy').
  exists F, A, y, R. repeat split; auto.
Qed.

Ltac class_cases H :=
  cbn [one_of app codes List.map list_ascii_of_string] in H;
  repeat (apply orb_true_iff in H as [H|H]); try discriminate;
  apply N.eqb_eq in H; subst.

Section Kept.

Context (decimal_ext : char -> bool).

Hypothesis digits_are_not_spaces :
  forall c, decimal_ext c = true -> isspace c = false.

Local Abbreviation digit := (isdecimal decimal_ext).
Local Abbreviation line_break_repair := (_fix_numerical_line_breaks decimal_ext).

Lemma breaks_before_percent :
  breaks_before percent_class (percent_rule decimal_ext).
Proof.
  apply breaks_before_intro. cbn [matches].
  intros m (c & -> & Hc). exists c, []. split; [reflexivity|].
  split; [|exact Hc]. class_cases Hc; reflexivity.
Qed.

Lemma breaks_before_scientific :
  breaks_before (exponent_class decimal_ext) (scientific_rule decimal_ext).
Proof.
  apply breaks_before_intro. cbv [Seq]. cbn [matches].
  intros m (m1 & m2 & -> & H1 & [Hne H2]).
  destruct H1 as [->|(c & -> & Hc)].
  - destruct m2 as [|d m2]; [congruence|]. inversion H2 as [|? ? Hd _]; subst.
    exists d, m2. split; [reflexivity|].
    split; [now apply (digit_not_space decimal_ext digits_are_not_spaces)|].
    unfold exponent_class. rewrite Hd. apply orb_true_r.
  - exists c, m2. split; [reflexivity|].
    split; [class_cases Hc; reflexivity|].
    unfold exponent_class. now rewrite Hc.
Qed.

Lemma breaks_before_range :
  breaks_before dash_class (range_rule decimal_ext).
Proof.
  apply breaks_before_intro. cbv [Seq]. cbn [matches].
  intros m (m1 & m2 & -> & (c & -> & Hc) & _).
  exists c, m2. split; [reflexivity|]. split; [|exact Hc].
  class_cases Hc; reflexivity.
Qed.

Lemma breaks_before_error :
  breaks_before (N.eqb NOT_SIGN) (error_rule decimal_ext).
Proof.
  apply breaks_before_intro. cbv [Seq]. cbn [matches].
  intros m (m1 & m2 & -> & H & _). apply matches_Lit in H as ->.
  exists NOT_SIGN, m2. now repeat split.
Qed.

Lemma unit_symbol_head (m : text) :
  matches unit_symbol m ->
  exists y t, m = y :: t /\ isspace y = false /\ unit_class y = true.
Proof.
  cbv [unit_symbol Seq]. cbn [matches].
  intros [(m1 & m2 & -> & H1 & (c & -> & Hc))|(m1 & m2 & -> & H & _)].
  - destruct H1 as [->|(d & -> & Hd)].
    + exists c, []. split; [reflexivity|].
      class_cases Hc; split; reflexivity.
    + exists d, [c]. split; [reflexivity|].
      class_cases Hd; split; reflexivity.
  - apply matches_Lit in H as ->. exists NOT_SIGN, m2. now repeat split.
Qed.

Lemma breaks_before_unit :
  breaks_before unit_class (unit_rule decimal_ext).
Proof. apply breaks_before_intro. cbn [matches]. apply unit_symbol_head. Qed.

End Kept.

(** ** What Line-Break Repair keeps and what it joins *)

Section Repairs.

Context (decimal_ext : char -> bool).

Hypothesis digits_are_not_spaces :
  forall c, decimal_ext c = true -> isspace c = false.

Local Abbreviation line_break_repair := (_fix_numerical_line_breaks decimal_ext).

Lemma repairable_classes c :
  repairable decimal_ext c = false ->
  percent_class c = false /\ exponent_class decimal_ext c = false
  /\ dash_class c = false /\ (NOT_SIGN =? c) = false /\ unit_class c = false.
Proof.
  unfold repairable, percent_class, exponent_class, dash_class, unit_class.
  cbn [one_of app codes List.map list_ascii_of_string].
  intros H.
  repeat match goal with
         | E : (_ || _) = false |- _ => apply orb_false_iff in E as [? ?]
         end.
  rewrite (N.eqb_sym NOT_SIGN c).
  repeat match goal with
         | E : false = false |- _ => clear E
         | E : _ = false |- _ => rewrite E; clear E
         end.
  now repeat split.
Qed.

(** X19: Line-Break Repair leaves a line break as it is when the first
    character after it that is not whitespace is none of those the
    patterns look for (a decimal digit, a sign, a percent sign, a unit
    letter or one of the symbols as the file stores them), whatever stands
    before the break on its line.  (No decimal digit of Unicode is a
    whitespace character: that is asked of the table behind [\d].) *)
Theorem line_break_is_kept_before_other_characters (pre W post : text) z :
  ~ In NL pre -> Forall (fun c => isspace c = true) W ->
  isspace z = false -> repairable decimal_ext z = false -> ~ In NL post ->
  line_break_repair (pre ++ W ++ z :: post) = pre ++ W ++ z :: post.
Proof.
  intros Hpre HW Hz Hrep Hpost.
  destruct (repairable_classes z Hrep) as (C1 & C2 & C3 & C4 & C5).
  unfold _fix_numerical_line_breaks.
  rewrite (break_kept _ _ _ pre W post z
             (breaks_before_percent decimal_ext) Hpre HW Hz C1 Hpost).
  rewrite (break_kept _ _ _ pre W post z
             (breaks_before_scientific decimal_ext digits_are_not_spaces)
             Hpre HW Hz C2 Hpost).
  rewrite (break_kept _ _ _ pre W post z
             (breaks_before_range decimal_ext) Hpre HW Hz C3 Hpost).
  rewrite (break_kept _ _ _ pre W post z
             (breaks_before_error decimal_ext) Hpre HW Hz C4 Hpost).
  exact (break_kept _ _ _ pre W post z
           (breaks_before_unit decimal_ext) Hpre HW Hz C5 Hpost).
Qed.

Lemma ascii_unit_head (u : text) :
  matches ascii_unit u ->
  exists z t, u = z :: t /\ one_of (codes "mkMGTgLVAW") z = true.
Proof.
  cbv [ascii_unit Seq]. cbn [matches].
  intros (m1 & m2 & -> & H1 & (c & -> & Hc)).
  destruct H1 as [->|(d & -> & Hd)].
  - exists c, []. split; [reflexivity|]. class_cases Hc; reflexivity.
  - exists d, [c]. split; [reflexivity|]. class_cases Hd; reflexivity.
Qed.

Lemma ascii_unit_is_unit_symbol (u : text) :
  matches ascii_unit u -> matches unit_symbol u.
Proof.
  cbv [ascii_unit unit_symbol Seq]. cbn [matches].
  intros (m1 & m2 & -> & H1 & H2). left. exists m1, m2.
  split; [reflexivity|]. split; [|exact H2].
  destruct H1 as [->|(d & -> & Hd)]; [now left|]. right.
  exists d. split; [reflexivity|]. class_cases Hd; reflexivity.
Qed.

(** X20: Line-Break Repair joins a unit written in ASCII letters (an
    optional prefix among [mkMGT] and a letter among [gLMVAW]) to the
    number it was cut from, dropping the whitespace and the line break
    between them.  (The same is asked of the table behind [\d].) *)
Theorem unit_is_joined (pre n W u post : text) :
  ~ In NL pre -> matches (number decimal_ext) n ->
  Forall (fun c => isspace c = true) W -> In NL W ->
  matches ascii_unit u -> ~ In NL (u ++ post) ->
  line_break_repair (pre ++ n ++ W ++ u ++ post) = pre ++ n ++ u ++ post.
Proof.
  intros Hpre Hn HW HNL Hu HU.
  destruct (ascii_unit_head u Hu) as (z & t & Eu & Hz).
  assert (Hz' : isspace z = false /\ percent_class z = false
                /\ exponent_class decimal_ext z = false
                /\ dash_class z = false /\ (NOT_SIGN =? z) = false).
  { class_cases Hz; now repeat split. }
  destruct Hz' as (Hs & C1 & C2 & C3 & C4).
  assert (HP : ~ In NL (pre ++ n)).
  { intros H. apply in_app_or in H as [H|H]; [auto|].
    destruct (number_chars decimal_ext digits_are_not_spaces n Hn) as [Hn1 _].
    rewrite List.Forall_forall in Hn1. now apply Hn1 in H. }
  assert (Hpost : ~ In NL (t ++ post)).
  { intros H. apply HU. rewrite Eu. now right. }
  assert (E : pre ++ n ++ W ++ u ++ post = (pre ++ n) ++ W ++ z :: t ++ post).
  { rewrite Eu, <- app_assoc. reflexivity. }
  unfold _fix_numerical_line_breaks. rewrite E.
  rewrite (break_kept _ _ _ (pre ++ n) W (t ++ post) z
             (breaks_before_percent decimal_ext) HP HW Hs C1 Hpost).
  rewrite (break_kept _ _ _ (pre ++ n) W (t ++ post) z
             (breaks_before_scientific decimal_ext digits_are_not_spaces)
             HP HW Hs C2 Hpost).
  rewrite (break_kept _ _ _ (pre ++ n) W (t ++ post) z
             (breaks_before_range decimal_ext) HP HW Hs C3 Hpost).
  rewrite (break_kept _ _ _ (pre ++ n) W (t ++ post) z
             (breaks_before_error decimal_ext) HP HW Hs C4 Hpost).
  rewrite <- E.
  apply (joining_rule_joins decimal_ext digits_are_not_spaces unit_symbol
           eq_refl); try assumption.
  - intros m Hm. destruct (unit_symbol_head m Hm) as (y & t' & -> & Hy & _).
    now exists y, t'.
  - now apply ascii_unit_is_unit_symbol.
Qed.

End Repairs.

(** ** The export *)

Lemma exported_length_total (docs : list SourceDocument) :
  fold_right Z.add 0%Z (List.map doc_text_length (List.map doc_data_of docs))
  = total_length docs.
Proof.
  unfold total_length. induction docs as [|doc docs IH]; [reflexivity|].
  simpl. now rewrite IH.
Qed.

Section Exports.

Context (decimal_ext alnum_ext : char -> bool).
Context (w : world) (env : export_env).

Local Abbreviation batch := (process_multiple_pdfs decimal_ext alnum_ext w).
Local Abbreviation export := (export_processed_documents w env).

(** The export returns or raises, and writes to no dictionary. *)
Lemma export_spec self (docs : list SourceDocument) out st d m :
  parser_state self st d m ->
  exists path stamp st',
    let data :=
      {| export_processing_timestamp := stamp;
         export_total_documents := Z.of_nat (length docs);
         export_processing_stats := processing_stats self;
         export_documents := List.map doc_data_of docs |} in
    export self docs out st
    = Some (if can_write env path data st'
            then Exported path data else WriteError path, st')
    /\ parser_state self st' d m
    /\ objects st' = objects st
    /\ (forall p, out = Some p -> path = p).
Proof.
  intros [H1 H2 H3 H4]. unfold export_processed_documents.
  destruct out as [p|].
  - unfold bind, ret, read_clock. eexists p, _, _. cbn zeta.
    split; [reflexivity|]. split; [now split|]. split; [reflexivity|].
    intros p' E. now injection E.
  - unfold bind, ret, tick, read_clock. simpl. eexists _, _, _.
    split; [reflexivity|]. split; [now split|]. split; [reflexivity|].
    discriminate.
Qed.

(** X21: in the dictionary exported for the documents of a batch,
    ['total_documents'] counts the documents, while the ['total_documents']
    of the statistics it refers to, the processor's own, counts the
    requests: the two differ by the failures of the batch.  The
    ['text_length'] entries add up to what the batch added to
    ['total_text_length'], and the export changes no dictionary. *)
Theorem export_counts_documents_not_requests
    self (cfgs : list config) out st d m :
  parser_state self st d m ->
  exists docs st1 path data st2 d' m',
    batch self cfgs st = Some (docs, st1)
    /\ export self docs out st1
       = Some (if can_write env path data st2
               then Exported path data else WriteError path, st2)
    /\ parser_state self st2 d' m'
    /\ objects st2 = objects st1
    /\ export_processing_stats data = processing_stats self
    /\ export_total_documents data = Z.of_nat (length docs)
    /\ total_documents d' = Z.of_nat (length cfgs)
    /\ (total_documents d' - export_total_documents data
        = failed_extractions d' - failed_extractions d)%Z
    /\ exported_length data = (total_text_length d' - total_text_length d)%Z
    /\ List.map doc_source_id (export_documents data)
       = List.map source_id docs.
Proof.
  intros Hps.
  destruct (batch_full decimal_ext alnum_ext w self cfgs st d m Hps)
    as (st1 & E1 & Hps1 & _ & _).
  destruct (export_spec self
              (produced decimal_ext alnum_ext w cfgs (clock st)) out st1 _ _
              Hps1) as (path & stamp & st2 & E2 & Hps2 & Ho & _).
  cbn zeta in E2.
  pose proof (produced_length decimal_ext alnum_ext w cfgs (clock st)) as Hle.
  destruct (tally_spec decimal_ext alnum_ext w cfgs d (clock st))
    as (_ & _ & _ & H4 & H5).
  eexists _, st1, path, _, st2, _, _.
  split; [exact E1|]. split; [exact E2|]. split; [exact Hps2|].
  split; [exact Ho|]. split; [reflexivity|]. split; [reflexivity|].
  split; [reflexivity|].
  cbn [set_total_documents total_documents failed_extractions
       total_text_length export_total_documents export_documents].
  split; [rewrite H4; lia|]. split.
  - unfold exported_length. cbn [export_documents].
    rewrite exported_length_total, H5. lia.
  - rewrite List.map_map. reflexivity.
Qed.

End Exports.

(** ** Concrete runs of the further properties *)

(** Settles that a given text is a number of the patterns, its integer
    part being [a] and its decimals [b]. *)
Ltac sample_number a b :=
  cbv [number Seq]; cbn [matches];
  exists a, (46 :: b); split; [reflexivity|];
  split; [split; [discriminate|repeat constructor]|];
  exists [46], b; split; [reflexivity|];
  split; [right; exists 46; split; reflexivity|repeat constructor].

(** A text of one line is left as it is. *)
Lemma line_break_repair_needs_newline_witness :
  ~ In NL (codes "Dose 12.5 mg daily")
  /\ _fix_numerical_line_breaks no_ext (codes "Dose 12.5 mg daily")
     = codes "Dose 12.5 mg daily".
Proof.
  assert (H : ~ In NL (codes "Dose 12.5 mg daily")) by no_newline.
  split; [exact H|].
  exact (line_break_repair_needs_newline no_ext _ H).
Defined.

(** Two lines without a digit are left as they are. *)
Lemma line_break_repair_needs_digit_witness :
  Forall (fun c => isdecimal no_ext c = false)
    (codes "Yield" ++ NL :: codes "% of theory")
  /\ _fix_numerical_line_breaks no_ext
       (codes "Yield" ++ NL :: codes "% of theory")
     = codes "Yield" ++ NL :: codes "% of theory".
Proof.
  assert (H : Forall (fun c => isdecimal no_ext c = false)
                (codes "Yield" ++ NL :: codes "% of theory"))
    by (repeat constructor).
  split; [exact H|].
  exact (line_break_repair_needs_digit no_ext _ H).
Defined.

Lemma no_ext_digits_are_not_spaces c : no_ext c = true -> isspace c = false.
Proof. discriminate. Qed.

(** ["Yield was 97.2 \n % of theory."] *)
Lemma percent_sign_is_joined_witness :
  matches (number no_ext) (codes "97.2")
  /\ _fix_numerical_line_breaks no_ext
       (codes "Yield was " ++ codes "97.2" ++ [SPACE; NL; SPACE]
        ++ 37 :: codes " of theory.")
     = codes "Yield was 97.2% of theory.".
Proof.
  assert (Hn : matches (number no_ext) (codes "97.2"))
    by sample_number (codes "97") (codes "2").
  split; [exact Hn|].
  apply (percent_sign_is_joined no_ext no_ext_digits_are_not_spaces
           (codes "Yield was ") (codes "97.2") [SPACE; NL; SPACE]
           (codes " of theory.")).
  - no_newline.
  - exact Hn.
  - repeat constructor.
  - right. now left.
  - no_newline.
Defined.

(** ["Table 5\nResults"]: no pattern looks for the letter [R]. *)
Lemma line_break_is_kept_witness :
  repairable no_ext 82 = false
  /\ _fix_numerical_line_breaks no_ext
       (codes "Table 5" ++ [NL] ++ 82 :: codes "esults")
     = codes "Table 5" ++ [NL] ++ 82 :: codes "esults".
Proof.
  split; [reflexivity|].
  apply (line_break_is_kept_before_other_characters no_ext
           no_ext_digits_are_not_spaces (codes "Table 5") [NL] (codes "esults")).
  - no_newline.
  - repeat constructor.
  - reflexivity.
  - reflexivity.
  - no_newline.
Defined.

(** ["Dose 12.5 \n mg daily"] *)
Lemma unit_is_joined_witness :
  matches ascii_unit (codes "mg")
  /\ _fix_numerical_line_breaks no_ext
       (codes "Dose " ++ codes "12.5" ++ [SPACE; NL; SPACE] ++ codes "mg"
        ++ codes " daily")
     = codes "Dose 12.5mg daily".
Proof.
  assert (Hu : matches ascii_unit (codes "mg")).
  { cbv [ascii_unit Seq]. cbn [matches]. exists (codes "m"), (codes "g").
    split; [reflexivity|]. split.
    - right. exists 109. split; reflexivity.
    - exists 103. split; reflexivity. }
  split; [exact Hu|].
  apply (unit_is_joined no_ext no_ext_digits_are_not_spaces
           (codes "Dose ") (codes "12.5") [SPACE; NL; SPACE] (codes "mg")
           (codes " daily")).
  - no_newline.
  - sample_number (codes "12") (codes "5").
  - repeat constructor.
  - right. now left.
  - exact Hu.
  - no_newline.
Defined.

(** The batch of three requests, the second of which fails, on a processor
    just built. *)
Lemma batch_counts_every_request_once_witness :
  parser_state fresh_parser fresh_machine fresh_stats ∅
  /\ exists docs st' d' m',
       process_multiple_pdfs no_ext no_ext sample_world fresh_parser
         sample_batch fresh_machine
       = Some (docs, st')
       /\ parser_state fresh_parser st' d' m'
       /\ (length docs <= 3)%nat
       /\ total_documents d' = 3%Z
       /\ successful_extractions d' = (0 + Z.of_nat (length docs))%Z
       /\ failed_extractions d' = (0 + Z.of_nat (3 - length docs))%Z
       /\ total_text_length d' = (0 + total_length docs)%Z.
Proof.
  split; [exact fresh_parser_state|].
  exact (batch_counts_every_request_once no_ext no_ext sample_world
           fresh_parser sample_batch fresh_machine fresh_stats ∅
           fresh_parser_state).
Defined.

Lemma batch_returns_successful_requests_witness :
  parser_state fresh_parser fresh_machine fresh_stats ∅
  /\ exists docs st',
       process_multiple_pdfs no_ext no_ext sample_world fresh_parser
         sample_batch fresh_machine
       = Some (docs, st')
       /\ List.map request_of docs
          = [sample_config "a.pdf" "SRC_001" "Source One";
             sample_config "c.pdf" "SRC_003" "Source Three"]
       /\ Forall (fun doc =>
                    _extract_text_from_pdf sample_world (file_path doc)
                    = Return (raw_text doc)
                    /\ cleaned_text doc
                       = _clean_text_for_numerical_extraction no_ext no_ext
                           (raw_text doc)) docs
       /\ List.map processing_timestamp docs
          = List.map (now sample_world) (seq 1 (length docs))
       /\ clock st' = (1 + length docs)%nat.
Proof.
  split; [exact fresh_parser_state|].
  exact (batch_returns_successful_requests_in_order no_ext no_ext sample_world
           fresh_parser sample_batch fresh_machine fresh_stats ∅
           fresh_parser_state).
Defined.

Lemma batch_records_last_label_witness :
  parser_state fresh_parser fresh_machine fresh_stats ∅
  /\ exists docs st' d' m',
       process_multiple_pdfs no_ext no_ext sample_world fresh_parser
         sample_batch fresh_machine
       = Some (docs, st')
       /\ parser_state fresh_parser st' d' m'
       /\ source_mapping d' = 1%positive
       /\ (forall k, (forall doc, In doc docs -> source_id doc <> k) ->
                     m' !! k = (∅ : gmap text text) !! k)
       /\ (forall docs1 doc docs2,
             docs = docs1 ++ doc :: docs2 ->
             (forall doc', In doc' docs2 -> source_id doc' <> source_id doc) ->
             m' !! source_id doc = Some (source_label doc)).
Proof.
  split; [exact fresh_parser_state|].
  exact (batch_records_last_label no_ext no_ext sample_world
           fresh_parser sample_batch fresh_machine fresh_stats ∅
           fresh_parser_state).
Defined.

Lemma snapshot_counters_are_frozen_witness :
  parser_state fresh_parser fresh_machine fresh_stats ∅
  /\ exists snap st1 docs st2 d' m',
       get_processing_statistics fresh_parser fresh_machine = Some (snap, st1)
       /\ process_multiple_pdfs no_ext no_ext sample_world fresh_parser
            sample_batch st1
          = Some (docs, st2)
       /\ parser_state fresh_parser st2 d' m'
       /\ objects st2 !! snap = Some (Stats fresh_stats)
       /\ objects st2 !! 1%positive = Some (Mapping m')
       /\ m' = record_sources docs ∅.
Proof.
  split; [exact fresh_parser_state|].
  exact (snapshot_counters_are_frozen no_ext no_ext sample_world
           fresh_parser sample_batch fresh_machine fresh_stats ∅
           fresh_parser_state).
Defined.

Lemma processors_do_not_share_statistics_witness :
  parser_state fresh_parser fresh_machine fresh_stats ∅
  /\ exists b st1 db,
       __init__ sample_world fresh_machine = Some (b, st1)
       /\ parser_state fresh_parser st1 fresh_stats ∅
       /\ parser_state b st1 db ∅
       /\ (exists docs st2 db' mb',
             process_multiple_pdfs no_ext no_ext sample_world b
               sample_batch st1
             = Some (docs, st2)
             /\ parser_state b st2 db' mb'
             /\ parser_state fresh_parser st2 fresh_stats ∅)
       /\ (exists docs st2 da' ma',
             process_multiple_pdfs no_ext no_ext sample_world fresh_parser
               sample_batch st1
             = Some (docs, st2)
             /\ parser_state fresh_parser st2 da' ma'
             /\ parser_state b st2 db ∅).
Proof.
  split; [exact fresh_parser_state|].
  exact (processors_do_not_share_statistics no_ext no_ext sample_world
           fresh_parser sample_batch fresh_machine fresh_stats ∅
           fresh_parser_state).
Defined.

(** The export of the documents of the same batch, the path left out. *)
Lemma export_counts_documents_witness :
  parser_state fresh_parser fresh_machine fresh_stats ∅
  /\ exists docs st1 path data st2 d' m',
       process_multiple_pdfs no_ext no_ext sample_world fresh_parser
         sample_batch fresh_machine
       = Some (docs, st1)
       /\ export_processed_documents sample_world sample_env fresh_parser
            docs None st1
          = Some (if can_write sample_env path data st2
                  then Exported path data else WriteError path, st2)
       /\ parser_state fresh_parser st2 d' m'
       /\ objects st2 = objects st1
       /\ export_processing_stats data = processing_stats fresh_parser
       /\ export_total_documents data = Z.of_nat (length docs)
       /\ total_documents d' = 3%Z
       /\ (total_documents d' - export_total_documents data
           = failed_extractions d' - 0)%Z
       /\ exported_length data = (total_text_length d' - 0)%Z
       /\ List.map doc_source_id (export_documents data)
          = List.map source_id docs.
Proof.
  split; [exact fresh_parser_state|].
  exact (export_counts_documents_not_requests no_ext no_ext sample_world
           sample_env fresh_parser sample_batch None fresh_machine fresh_stats ∅
           fresh_parser_state).
Defined.
